(** * The Lua serializer of Pioneer: pickle, unpickle, Serialize, Unserialize

    A shallow embedding of [src/LuaSerializer.cpp].  The file has three
    layers: the part of the C library the serializer calls ([snprintf] with
    [%d] and [%f], [strtol], [strtod], [strchr], [strlen]); the part of the
    Lua 5.1 C API it calls (a value stack, tables, the registry field
    [PiSerializerCallbacks]); and the four functions of the serializer itself,
    written in state-passing style over an outcome type that keeps the C++
    exception, the fatal [Error] and undefined behaviour apart. *)

From Stdlib Require Import String Ascii ZArith List Bool Lia Permutation.
Import ListNotations.
Local Open Scope Z_scope.

(* ===================================================================== *)
(** ** The C library *)
(* ===================================================================== *)

Module C.

Definition bytes := list ascii.

Definition str (s : string) : bytes := list_ascii_of_string s.

Definition code (c : ascii) : Z := Z.of_N (N_of_ascii c).

Definition chr (n : Z) : ascii := ascii_of_N (Z.to_N n).

Definition NUL : ascii := chr 0.
Definition NL : ascii := chr 10.

(** The C string that starts at the head of a byte sequence: the bytes
    before the first NUL. *)
Fixpoint cstr (s : bytes) : bytes :=
  match s with
  | [] => []
  | c :: s' => if Ascii.eqb c NUL then [] else c :: cstr s'
  end.

Definition strlen (s : bytes) : Z := Z.of_nat (length (cstr s)).

(** [strchr s c] for [c <> NUL]: offset of the first [c] in the C string. *)
Fixpoint strchr (s : bytes) (c : ascii) : option nat :=
  match s with
  | [] => None
  | x :: s' =>
      if Ascii.eqb x c then Some O
      else if Ascii.eqb x NUL then None
      else option_map S (strchr s' c)
  end.

Fixpoint bytes_eqb (a b : bytes) : bool :=
  match a, b with
  | [], [] => true
  | x :: a', y :: b' => Ascii.eqb x y && bytes_eqb a' b'
  | _, _ => false
  end.

(** [strncmp(s, lit, n) == 0] for a literal [lit] of exactly [n] bytes
    without NUL. *)
Definition strncmp_eq (s lit : bytes) : bool :=
  bytes_eqb (firstn (length lit) s) lit.

(** *** Machine integers *)

Definition wrap (w z : Z) : Z := (z + 2 ^ (w - 1)) mod 2 ^ w - 2 ^ (w - 1).

Definition INT_MIN : Z := - 2 ^ 31.
Definition INT_MAX : Z := 2 ^ 31 - 1.
Definition LONG_MIN : Z := - 2 ^ 63.
Definition LONG_MAX : Z := 2 ^ 63 - 1.

(** Conversion of a wider integer to [int]. *)
Definition to_int (z : Z) : Z := wrap 32 z.

Definition clamp_long (z : Z) : Z := Z.max LONG_MIN (Z.min LONG_MAX z).

(** *** Printing integers: the [%d] conversion *)

Definition digit_char (d : Z) : ascii := chr (48 + d).

Fixpoint dec_aux (fuel : nat) (n : Z) (acc : bytes) : bytes :=
  match fuel with
  | O => digit_char n :: acc
  | S f =>
      if n <? 10 then digit_char n :: acc
      else dec_aux f (n / 10) (digit_char (n mod 10) :: acc)
  end.

(** Decimal digits of [n >= 0], most significant first, no leading zero. *)
Definition decimal (n : Z) : bytes := dec_aux (Z.to_nat (Z.log2 n)) n [].

Definition snprintf_d (n : Z) : bytes :=
  if n <? 0 then "-"%char :: decimal (- n) else decimal n.

(** *** Scanning numbers *)

Definition isspace (c : ascii) : bool :=
  let n := code c in (n =? 32) || ((9 <=? n) && (n <=? 13)).

Definition tolower (c : ascii) : ascii :=
  let n := code c in if (65 <=? n) && (n <=? 90) then chr (n + 32) else c.

Definition digit_of (c : ascii) : option Z :=
  let n := code c in
  if (48 <=? n) && (n <=? 57) then Some (n - 48)
  else if (97 <=? n) && (n <=? 122) then Some (n - 87)
  else if (65 <=? n) && (n <=? 90) then Some (n - 55)
  else None.

Definition digit_in (base : Z) (c : ascii) : option Z :=
  match digit_of c with
  | Some d => if d <? base then Some d else None
  | None => None
  end.

(** The longest run of digits of [base] at the head of [s]: its value on
    top of [acc], its length, and what follows. *)
Fixpoint scan_digits (base acc : Z) (s : bytes) : Z * nat * bytes :=
  match s with
  | [] => (acc, O, [])
  | c :: s' =>
      match digit_in base c with
      | Some d =>
          let '(v, n, r) := scan_digits base (acc * base + d) s' in (v, S n, r)
      | None => (acc, O, s)
      end
  end.

Fixpoint skip_space (s : bytes) : nat * bytes :=
  match s with
  | c :: s' => if isspace c then let '(n, r) := skip_space s' in (S n, r) else (O, s)
  | [] => (O, [])
  end.

(** An optional sign: is it minus, how many bytes, what follows. *)
Definition scan_sign (s : bytes) : bool * nat * bytes :=
  match s with
  | c :: s' =>
      if Ascii.eqb c "-" then (true, 1%nat, s')
      else if Ascii.eqb c "+" then (false, 1%nat, s')
      else (false, O, s)
  | [] => (false, O, [])
  end.

Definition is_hex_prefix (s : bytes) : bool :=
  match s with
  | c0 :: cx :: ch :: _ =>
      Ascii.eqb c0 "0" && Ascii.eqb (tolower cx) "x"
      && match digit_in 16 ch with Some _ => true | None => false end
  | _ => false
  end.

(** [strtol(s, &end, 0)]: the value as a [long] and the number of bytes up
    to [end]; no byte consumed means that no conversion was performed. *)
Definition strtol0 (s : bytes) : Z * nat :=
  let '(ws, s1) := skip_space s in
  let '(neg, sg, s2) := scan_sign s1 in
  let '(base, pre, s3) :=
    if is_hex_prefix s2 then (16, 2%nat, skipn 2 s2)
    else match s2 with
         | c :: _ => if Ascii.eqb c "0" then (8, O, s2) else (10, O, s2)
         | [] => (10, O, s2)
         end in
  let '(v, n, _) := scan_digits base 0 s3 in
  match n with
  | O => (0, O)
  | _ => (clamp_long (if neg then - v else v), (ws + sg + pre + n)%nat)
  end.

(** *** Doubles *)

(** An IEEE 754 binary64 datum: a finite non-zero value is [m * 2^e] with
    [0 < m < 2^53] and [-1074 <= e <= 971]. *)
Inductive double : Type :=
  | DZero (neg : bool)
  | DInf (neg : bool)
  | DNaN (neg : bool)
  | DFinite (neg : bool) (m e : Z).

Definition round_half_even (n d : Z) : Z :=
  let q := n / d in
  let r := n mod d in
  if 2 * r <? d then q
  else if d <? 2 * r then q + 1
  else if Z.even q then q else q + 1.

(** The double nearest to [num / den] ([0 <= num], [0 < den]), ties to
    even, with overflow to infinity and gradual underflow. *)
Definition round_double (neg : bool) (num den : Z) : double :=
  if num =? 0 then DZero neg
  else
    let l := Z.log2 num - Z.log2 den in
    let above := if 0 <=? l then den * 2 ^ l <=? num else den <=? num * 2 ^ (- l) in
    let fl := if above then l else l - 1 in
    let e := Z.max (fl - 52) (-1074) in
    let m := if 0 <=? e then round_half_even num (den * 2 ^ e)
             else round_half_even (num * 2 ^ (- e)) den in
    let '(m, e) := if m =? 2 ^ 53 then (2 ^ 52, e + 1) else (m, e) in
    if m =? 0 then DZero neg
    else if 971 <? e then DInf neg
    else DFinite neg m e.

(** Conversion of a double to [int]: truncation toward zero; undefined
    (here [None]) when the truncated value is not an [int]. *)
Definition double_to_int (x : double) : option Z :=
  match x with
  | DZero _ => Some 0
  | DFinite s m e =>
      let t := if 0 <=? e then m * 2 ^ e else m / 2 ^ (- e) in
      let v := if s then - t else t in
      if (INT_MIN <=? v) && (v <=? INT_MAX) then Some v else None
  | _ => None
  end.

(** *** Printing doubles: the [%f] conversion *)

Definition sign_text (neg : bool) : bytes := if neg then ["-"%char] else [].

Definition pad6 (n : Z) : bytes :=
  [digit_char (n / 100000 mod 10); digit_char (n / 10000 mod 10);
   digit_char (n / 1000 mod 10); digit_char (n / 100 mod 10);
   digit_char (n / 10 mod 10); digit_char (n mod 10)].

(** The value times [10^6], rounded to an integer. *)
Definition micro (x : double) : Z :=
  match x with
  | DFinite _ m e =>
      if 0 <=? e then m * 2 ^ e * 10 ^ 6
      else round_half_even (m * 10 ^ 6) (2 ^ (- e))
  | _ => 0
  end.

Definition fmt_f (x : double) : bytes :=
  match x with
  | DNaN s => sign_text s ++ str "nan"
  | DInf s => sign_text s ++ str "inf"
  | DZero s | DFinite s _ _ =>
      sign_text s ++ decimal (micro x / 10 ^ 6) ++ "."%char :: pad6 (micro x mod 10 ^ 6)
  end.

(** What a double becomes when its [%f] text is read back: the value
    rounded to six decimals, then to the nearest double. *)
Definition reread (x : double) : double :=
  match x with
  | DNaN s => DNaN s
  | DInf s => DInf s
  | DZero s | DFinite s _ _ => round_double s (micro x) (10 ^ 6)
  end.

(** [snprintf(buf, sizeof(buf), ...)] into [static char buf[256]]: at most
    255 bytes of the formatted text are stored. *)
Definition snprintf256 (text : bytes) : bytes := firstn 255 text.

(** *** Scanning doubles: [strtod] *)

Fixpoint prefix_ci (lit s : bytes) : bool :=
  match lit, s with
  | [], _ => true
  | l :: lit', c :: s' => Ascii.eqb (tolower c) l && prefix_ci lit' s'
  | _ :: _, [] => false
  end.

(** [D * 10^x] and [D * 2^x], rounded. *)
Definition round_decimal (neg : bool) (D x : Z) : double :=
  if 0 <=? x then round_double neg (D * 10 ^ x) 1
  else round_double neg D (10 ^ (- x)).

Definition round_binary (neg : bool) (D x : Z) : double :=
  if 0 <=? x then round_double neg (D * 2 ^ x) 1
  else round_double neg D (2 ^ (- x)).

(** An exponent part introduced by [marker]: its value and its length,
    both zero when there is none. *)
Definition scan_exponent (marker : ascii) (s : bytes) : Z * nat :=
  match s with
  | c :: s' =>
      if Ascii.eqb (tolower c) marker then
        let '(neg, sg, s'') := scan_sign s' in
        let '(v, n, _) := scan_digits 10 0 s'' in
        match n with
        | O => (0, O)
        | _ => (if neg then - v else v, (1 + sg + n)%nat)
        end
      else (0, O)
  | [] => (0, O)
  end.

(** Digits with an optional point; [None] when there is no digit at all.
    Yields all the digits read as one integer, the number of digits after
    the point, the bytes consumed and what follows. *)
Definition scan_mantissa (base : Z) (s : bytes) : option (Z * nat * nat * bytes) :=
  let '(ip, ni, r1) := scan_digits base 0 s in
  let '(D, nf, dot, r2) :=
    match r1 with
    | c :: r1' =>
        if Ascii.eqb c "." then
          let '(v, n, r) := scan_digits base ip r1' in (v, n, 1%nat, r)
        else (ip, O, O, r1)
    | [] => (ip, O, O, r1)
    end in
  match (ni + nf)%nat with
  | O => None
  | _ => Some (D, nf, (ni + dot + nf)%nat, r2)
  end.

Definition is_nchar (c : ascii) : bool :=
  match digit_of c with Some _ => true | None => Ascii.eqb c "_" end.

Fixpoint skip_nchars (s : bytes) : nat * bytes :=
  match s with
  | c :: s' => if is_nchar c then let '(n, r) := skip_nchars s' in (S n, r) else (O, s)
  | [] => (O, [])
  end.

(** The subject sequence after the sign. *)
Definition scan_number (neg : bool) (s : bytes) : option (double * nat) :=
  if prefix_ci (str "infinity") s then Some (DInf neg, 8%nat)
  else if prefix_ci (str "inf") s then Some (DInf neg, 3%nat)
  else if prefix_ci (str "nan") s then
    match skipn 3 s with
    | c :: r =>
        if Ascii.eqb c "(" then
          let '(n, r') := skip_nchars r in
          match r' with
          | c' :: _ => if Ascii.eqb c' ")" then Some (DNaN neg, (5 + n)%nat)
                       else Some (DNaN neg, 3%nat)
          | [] => Some (DNaN neg, 3%nat)
          end
        else Some (DNaN neg, 3%nat)
    | [] => Some (DNaN neg, 3%nat)
    end
  else
    let hex :=
      match s with
      | c0 :: cx :: r =>
          if Ascii.eqb c0 "0" && Ascii.eqb (tolower cx) "x" then
            match scan_mantissa 16 r with
            | Some (D, nf, n, r2) =>
                let '(ex, ne) := scan_exponent "p" r2 in
                Some (round_binary neg D (ex - 4 * Z.of_nat nf), (2 + n + ne)%nat)
            | None => None
            end
          else None
      | _ => None
      end in
    match hex with
    | Some r => Some r
    | None =>
        match scan_mantissa 10 s with
        | Some (D, nf, n, r2) =>
            let '(ex, ne) := scan_exponent "e" r2 in
            Some (round_decimal neg D (ex - Z.of_nat nf), (n + ne)%nat)
        | None => None
        end
    end.

(** [strtod(s, &end)]: the value and the number of bytes up to [end]; no
    byte consumed means that no conversion was performed. *)
Definition strtod (s : bytes) : double * nat :=
  let '(ws, s1) := skip_space s in
  let '(neg, sg, s2) := scan_sign s1 in
  match scan_number neg s2 with
  | Some (x, n) => (x, (ws + sg + n)%nat)
  | None => (DZero false, O)
  end.

End C.

Import C.

(* ===================================================================== *)
(** ** The Lua runtime and the host objects *)
(* ===================================================================== *)

(** Identifier of a [LuaObject]: what a serializable userdata holds. *)
Definition lid := Z.

(** A Lua value.  A table is given by its entries in the order [lua_next]
    enumerates them; tables are trees here, so a table that contains itself
    is outside the model. *)
#[warnings="-register-all"]
Inductive LuaValue : Type :=
  | LNil
  | LBoolean (b : bool)
  | LLightUserdata (p : Z)
  | LNumber (x : double)
  | LString (s : bytes)
  | LTable (entries : list (LuaValue * LuaValue))
  | LFunction (f : nat)
  | LUserdata (id : lid)
  | LThread (t : nat).

Definition entry := (LuaValue * LuaValue)%type.

Inductive lua_type_tag : Type :=
  | LUA_TNONE | LUA_TNIL | LUA_TBOOLEAN | LUA_TLIGHTUSERDATA | LUA_TNUMBER
  | LUA_TSTRING | LUA_TTABLE | LUA_TFUNCTION | LUA_TUSERDATA | LUA_TTHREAD.

Definition type_of (v : LuaValue) : lua_type_tag :=
  match v with
  | LNil => LUA_TNIL
  | LBoolean _ => LUA_TBOOLEAN
  | LLightUserdata _ => LUA_TLIGHTUSERDATA
  | LNumber _ => LUA_TNUMBER
  | LString _ => LUA_TSTRING
  | LTable _ => LUA_TTABLE
  | LFunction _ => LUA_TFUNCTION
  | LUserdata _ => LUA_TUSERDATA
  | LThread _ => LUA_TTHREAD
  end.

Definition lua_typename (t : lua_type_tag) : string :=
  match t with
  | LUA_TNONE => "no value"
  | LUA_TNIL => "nil"
  | LUA_TBOOLEAN => "boolean"
  | LUA_TLIGHTUSERDATA => "userdata"
  | LUA_TNUMBER => "number"
  | LUA_TSTRING => "string"
  | LUA_TTABLE => "table"
  | LUA_TFUNCTION => "function"
  | LUA_TUSERDATA => "userdata"
  | LUA_TTHREAD => "thread"
  end.

(** [Object::Type] as far as the serializer distinguishes it. *)
Inductive ObjectType : Type :=
  | BODY | SHIP | SPACESTATION | PLANET | STAR | PLAYER
  | OTHER_OBJECT (tag : nat).

Record Body : Type := { body_address : nat; GetType : ObjectType }.

(** What a [LuaObjectBase] wraps: [Isa("SBodyPath")] holds of the first,
    [Isa("Body")] of the second, neither of the third. *)
Inductive LuaObject : Type :=
  | OSBodyPath (sectorX sectorY systemNum sbodyId : Z)
  | OBody (wrapper : ObjectType) (b : Body)
  | OOther (type_name : string).

Definition Isa_SBodyPath (o : LuaObject) : bool :=
  match o with OSBodyPath _ _ _ _ => true | _ => false end.

Definition Isa_Body (o : LuaObject) : bool :=
  match o with OBody _ _ => true | _ => false end.

(** The state the serializer works on: the Lua value stack (top first),
    the registry field [PiSerializerCallbacks], and the table of live
    [LuaObject]s behind [LuaObjectBase::Lookup]. *)
Record lua_State : Type := {
  stack : list LuaValue;
  callbacks : LuaValue;
  objects : list (lid * LuaObject);
  next_lid : lid
}.

Definition with_stack (l : lua_State) (s : list LuaValue) : lua_State :=
  {| stack := s; callbacks := callbacks l; objects := objects l; next_lid := next_lid l |}.

Definition with_callbacks (l : lua_State) (c : LuaValue) : lua_State :=
  {| stack := stack l; callbacks := c; objects := objects l; next_lid := next_lid l |}.

(** The three diagnostics of [pickle], each with the [key] it is given. *)
Inductive Diagnostic : Type :=
  | NoLongerExists (key : option bytes) (id : lid)
  | UnsupportedUserdata (key : option bytes)
  | UnsupportedType (key : option bytes) (type_name : string).

Definition diagnostic_key (d : Diagnostic) : option bytes :=
  match d with
  | NoLongerExists k _ => k
  | UnsupportedUserdata k => k
  | UnsupportedType k _ => k
  end.

(** Modelled from the spec: how a call ends.  [Corrupt] is
    [throw SavedGameCorruptException()], the catchable corruption
    condition; [Fatal] is [Error(...)], which is not in [src/] and by the
    spec ends the process with its diagnostic; [LuaError] is an error
    raised by the Lua runtime.  Each carries the state at that moment.
    [Undefined] is undefined behaviour of the C++ (a read outside the
    buffer, a null pointer dereferenced).  [OutOfFuel] belongs to the
    model only: the recursive functions take a bound on their depth. *)
Inductive Outcome (A : Type) : Type :=
  | Ok (a : A)
  | Corrupt (l : lua_State)
  | Fatal (d : Diagnostic) (l : lua_State)
  | LuaError (l : lua_State)
  | Undefined
  | OutOfFuel.

Arguments Ok {A} a.
Arguments Corrupt {A} l.
Arguments Fatal {A} d l.
Arguments LuaError {A} l.
Arguments Undefined {A}.
Arguments OutOfFuel {A}.

Definition bind {A B : Type} (m : Outcome A) (k : A -> Outcome B) : Outcome B :=
  match m with
  | Ok a => k a
  | Corrupt l => Corrupt l
  | Fatal d l => Fatal d l
  | LuaError l => LuaError l
  | Undefined => Undefined
  | OutOfFuel => OutOfFuel
  end.

Notation "x <- m ;; k" := (bind m (fun x => k))
  (at level 61, m at next level, right associativity).
Notation "' p <- m ;; k" := (bind m (fun x => let 'p := x in k))
  (at level 61, p pattern, m at next level, right associativity).

(** *** Stack *)

(** The value at an acceptable index: positive from the bottom, negative
    from the top. *)
Definition index2adr (l : lua_State) (idx : Z) : option LuaValue :=
  if 0 <? idx then nth_error (rev (stack l)) (Z.to_nat (idx - 1))
  else if idx <? 0 then nth_error (stack l) (Z.to_nat (- idx - 1))
  else None.

Definition lua_type (l : lua_State) (idx : Z) : lua_type_tag :=
  match index2adr l idx with
  | Some v => type_of v
  | None => LUA_TNONE
  end.

Definition lua_gettop (l : lua_State) : Z := Z.of_nat (length (stack l)).

Definition lua_push (v : LuaValue) (l : lua_State) : lua_State :=
  with_stack l (v :: stack l).

Definition lua_pop (l : lua_State) (n : nat) : lua_State :=
  with_stack l (skipn n (stack l)).

Definition lua_pushvalue (l : lua_State) (idx : Z) : lua_State :=
  lua_push (match index2adr l idx with Some v => v | None => LNil end) l.

Definition lua_pushnil (l : lua_State) : lua_State := lua_push LNil l.
Definition lua_newtable (l : lua_State) : lua_State := lua_push (LTable []) l.
Definition lua_pushnumber (l : lua_State) (x : double) : lua_State := lua_push (LNumber x) l.
Definition lua_pushboolean (l : lua_State) (b : bool) : lua_State := lua_push (LBoolean b) l.
Definition lua_pushlstring (l : lua_State) (s : bytes) : lua_State := lua_push (LString s) l.

(** An [int] as a [lua_Number]. *)
Definition double_of_int (n : Z) : double := round_double (n <? 0) (Z.abs n) 1.

Definition lua_pushinteger (l : lua_State) (n : Z) : lua_State :=
  lua_push (LNumber (double_of_int n)) l.

Definition lua_tonumber (l : lua_State) (idx : Z) : double :=
  match index2adr l idx with
  | Some (LNumber x) => x
  | _ => DZero false
  end.

Definition lua_toboolean (l : lua_State) (idx : Z) : bool :=
  match index2adr l idx with
  | Some LNil | None => false
  | Some (LBoolean b) => b
  | Some _ => true
  end.

Definition lua_touserdata (l : lua_State) (idx : Z) : lid :=
  match index2adr l idx with
  | Some (LUserdata id) => id
  | _ => 0
  end.

Definition lua_istable (l : lua_State) (idx : Z) : bool :=
  match lua_type l idx with LUA_TTABLE => true | _ => false end.

Definition lua_isnil (l : lua_State) (idx : Z) : bool :=
  match lua_type l idx with LUA_TNIL => true | _ => false end.

(** Replace the value at an index. *)
Fixpoint list_set {A : Type} (xs : list A) (n : nat) (x : A) : list A :=
  match xs, n with
  | [], _ => []
  | _ :: xs', O => x :: xs'
  | y :: xs', S n' => y :: list_set xs' n' x
  end.

Definition set_index (l : lua_State) (idx : Z) (v : LuaValue) : lua_State :=
  if 0 <? idx then
    with_stack l (rev (list_set (rev (stack l)) (Z.to_nat (idx - 1)) v))
  else with_stack l (list_set (stack l) (Z.to_nat (- idx - 1)) v).

(** [lua_insert(l, -2)]: the top value moves below its neighbour. *)
Definition lua_insert_2 (l : lua_State) : lua_State :=
  match stack l with
  | a :: b :: s => with_stack l (b :: a :: s)
  | _ => l
  end.

(** *** Tables *)

Definition double_eqb (x y : double) : bool :=
  match x, y with
  | DZero _, DZero _ => true
  | DInf a, DInf b => Bool.eqb a b
  | DFinite a m e, DFinite b m' e' => Bool.eqb a b && (m =? m') && (e =? e')
  | _, _ => false
  end.

(** Raw equality of keys.  Numbers, booleans and strings are compared by
    value and userdata by the object they name; a table has no identity in
    this model and is taken to differ from every other key, as a table
    just created does. *)
Definition rawequal (a b : LuaValue) : bool :=
  match a, b with
  | LNil, LNil => true
  | LBoolean x, LBoolean y => Bool.eqb x y
  | LLightUserdata x, LLightUserdata y => x =? y
  | LNumber x, LNumber y => double_eqb x y
  | LString x, LString y => bytes_eqb x y
  | LFunction x, LFunction y => Nat.eqb x y
  | LUserdata x, LUserdata y => x =? y
  | LThread x, LThread y => Nat.eqb x y
  | _, _ => false
  end.

Fixpoint tbl_get (es : list entry) (k : LuaValue) : LuaValue :=
  match es with
  | [] => LNil
  | (k', v) :: es' => if rawequal k' k then v else tbl_get es' k
  end.

Fixpoint tbl_mem (es : list entry) (k : LuaValue) : bool :=
  match es with
  | [] => false
  | (k', _) :: es' => rawequal k' k || tbl_mem es' k
  end.

Fixpoint tbl_replace (es : list entry) (k v : LuaValue) : list entry :=
  match es with
  | [] => []
  | (k', v') :: es' =>
      if rawequal k' k then (k', v) :: es' else (k', v') :: tbl_replace es' k v
  end.

Fixpoint tbl_remove (es : list entry) (k : LuaValue) : list entry :=
  match es with
  | [] => []
  | (k', v') :: es' =>
      if rawequal k' k then es' else (k', v') :: tbl_remove es' k
  end.

Definition is_nan_key (k : LuaValue) : bool :=
  match k with LNumber (DNaN _) => true | _ => false end.

(** Where [lua_next] lists an entry depends on the runtime's hash table
    and is left open by the Lua manual: [place es e] is the enumeration of
    the table after an entry [e] with a new key joined the entries [es]. *)
Definition placement := list entry -> entry -> list entry.

(** A runtime that lists a new key last. *)
Definition place_last : placement := fun es e => es ++ [e].

Definition placement_ok (place : placement) : Prop :=
  forall es e, Permutation (place es e) (e :: es).

Section Runtime.

Variable place : placement.

(** Assignment [t[k] = v] without metamethods on the entries of [t]. *)
Definition tbl_set (es : list entry) (k v : LuaValue) : list entry :=
  match v with
  | LNil => tbl_remove es k
  | _ => if tbl_mem es k then tbl_replace es k v else place es (k, v)
  end.

(** [lua_rawset(l, idx)] for a negative index: the table is at [idx], the
    key below the top, the value on top; both are popped. *)
Definition lua_rawset (l : lua_State) (idx : Z) : Outcome lua_State :=
  match stack l, index2adr l idx with
  | v :: k :: _, Some (LTable es) =>
      match k with
      | LNil => LuaError l
      | _ =>
          if is_nan_key k then LuaError l
          else Ok (lua_pop (set_index l idx (LTable (tbl_set es k v))) 2)
      end
  | _, _ => Undefined
  end.

(** [lua_settable(l, idx)]; no table of the serializer has a metatable. *)
Definition lua_settable (l : lua_State) (idx : Z) : Outcome lua_State :=
  match index2adr l idx with
  | Some (LTable _) => lua_rawset l idx
  | Some _ => LuaError l
  | None => Undefined
  end.

(** [lua_gettable(l, idx)]: the key on top is replaced by [t[key]]. *)
Definition lua_gettable (l : lua_State) (idx : Z) : Outcome lua_State :=
  match stack l, index2adr l idx with
  | k :: _, Some (LTable es) => Ok (lua_push (tbl_get es k) (lua_pop l 1))
  | _ :: _, Some _ => LuaError l
  | _, _ => Undefined
  end.

(** [lua_getfield(l, idx, name)] with a C string [name]. *)
Definition lua_getfield (l : lua_State) (idx : Z) (name : bytes) : Outcome lua_State :=
  match index2adr l idx with
  | Some (LTable es) => Ok (lua_push (tbl_get es (LString (cstr name))) l)
  | Some _ => LuaError l
  | None => Undefined
  end.

(** [lua_getfield(l, LUA_REGISTRYINDEX, "PiSerializerCallbacks")] and the
    matching [lua_setfield], which pops the value it stores. *)
Definition lua_getfield_registry_callbacks (l : lua_State) : lua_State :=
  lua_push (callbacks l) l.

Definition lua_setfield_registry_callbacks (l : lua_State) : lua_State :=
  match stack l with
  | v :: s => with_stack (with_callbacks l v) s
  | [] => l
  end.

(** The text of a number made a string, [LUAI_NUMFFORMAT]. *)
Variable lua_number2str : double -> bytes.

(** [lua_tostring(l, idx)]: the bytes of a string; a number is first turned
    into a string in its stack slot; [None] is the null pointer. *)
Definition lua_tostring (l : lua_State) (idx : Z) : lua_State * option bytes :=
  match index2adr l idx with
  | Some (LString s) => (l, Some s)
  | Some (LNumber x) =>
      (set_index l idx (LString (lua_number2str x)), Some (lua_number2str x))
  | _ => (l, None)
  end.

(** [lua_next] leaves the stack in one of two shapes: the key it was given
    replaced by the next key with its value on top, or that key just
    popped when the enumeration is over.  The loops over [lua_next] recurse
    over the entries of the table in the order [lua_next] yields them. *)
Definition lua_next_entry (l : lua_State) (k v : LuaValue) : lua_State :=
  lua_push v (lua_push k (lua_pop l 1)).

Definition lua_next_done (l : lua_State) : lua_State := lua_pop l 1.

Definition table_entries (l : lua_State) (idx : Z) : option (list entry) :=
  match index2adr l idx with
  | Some (LTable es) => Some es
  | _ => None
  end.

(** *** Host objects *)

(** Modelled from the spec: the table of live [LuaObject]s behind
    [LuaObjectBase::Lookup], which is not in [src/]: an id names an object
    or is not found. *)
Definition Lookup_in (objs : list (lid * LuaObject)) (id : lid) : option LuaObject :=
  match find (fun p => fst p =? id) objs with
  | Some (_, o) => Some o
  | None => None
  end.

(** [LuaObjectBase::Lookup(id)]. *)
Definition Lookup (l : lua_State) (id : lid) : option LuaObject :=
  Lookup_in (objects l) id.

(** Modelled from the spec: the [PushToLua] of each wrapper class, which is
    not in [src/]: it constructs a reference wrapper for the object, a new
    userdata naming a new [LuaObject]. *)
Definition PushToLua (o : LuaObject) (l : lua_State) : lua_State :=
  {| stack := LUserdata (next_lid l) :: stack l;
     callbacks := callbacks l;
     objects := (next_lid l, o) :: objects l;
     next_lid := next_lid l + 1 |}.

(** The identity table, [Serializer::LookupBody] in its two directions. *)
Variable LookupBody_index : Body -> Z.
Variable LookupBody : Z -> option Body.

(* ===================================================================== *)
(** ** The serializer *)
(* ===================================================================== *)

Definition append (out : bytes) (s : string) : bytes := out ++ str s.

(** The loop [while (lua_next(l, -2)) { ... }] of [pickle], over the
    entries [lua_next] is still to yield; [rec] is [pickle] itself. *)
Definition pickle_while
    (rec : lua_State -> Z -> bytes -> option bytes -> Outcome (lua_State * bytes))
    (key : option bytes)
    : list entry -> lua_State -> bytes -> Outcome (lua_State * bytes) :=
  fix while (es : list entry) (l : lua_State) (out : bytes) {struct es} :=
    match es with
    | [] => Ok (lua_next_done l, out)
    | (k, v) :: es' =>
        let l := lua_next_entry l k v in
        ' (l, out) <-
          match key with
          | Some _ =>
              ' (l, out) <- rec l (-2) out key ;;
              rec l (-1) out key
          | None =>
              let l := lua_pushvalue l (-2) in
              let '(l, k) := lua_tostring l (-1) in
              ' (l, out) <- rec l (-3) out k ;;
              ' (l, out) <- rec l (-2) out k ;;
              Ok (lua_pop l 1, out)
          end ;;
        let l := lua_pop l 1 in
        while es' l out
    end.

(** [pickle(l, idx, out, key)].  The result is the state and the grown
    [out].  The source brackets the body with [LUA_DEBUG_START(l)] and
    [LUA_DEBUG_END(l, 0)], which assert in debug builds that a normal
    return leaves the stack at its depth at entry. *)
Fixpoint pickle (fuel : nat) (l : lua_State) (idx : Z) (out : bytes)
    (key : option bytes) {struct fuel} : Outcome (lua_State * bytes) :=
  match fuel with
  | O => OutOfFuel
  | S fuel' =>
      match lua_type l idx with
      | LUA_TNIL => Ok (l, out)
      | LUA_TNUMBER =>
          let buf := snprintf256 ("f"%char :: fmt_f (lua_tonumber l idx) ++ [NL]) in
          Ok (l, out ++ buf)
      | LUA_TBOOLEAN =>
          let buf := snprintf256
            ("b"%char :: snprintf_d (if lua_toboolean l idx then 1 else 0)) in
          Ok (l, out ++ buf)
      | LUA_TSTRING =>
          let l := lua_pushvalue l idx in
          let '(l, s) := lua_tostring l (-1) in
          match s with
          | None => Undefined
          | Some s =>
              let buf := snprintf256
                ("s"%char :: snprintf_d (to_int (strlen s)) ++ [NL]) in
              let out := out ++ buf in
              let out := out ++ cstr s in
              Ok (lua_pop l 1, out)
          end
      | LUA_TTABLE =>
          let out := append out "t" in
          let l := lua_pushvalue l idx in
          let l := lua_pushnil l in
          match table_entries l (-2) with
          | None => Undefined
          | Some es =>
              ' (l, out) <- pickle_while (pickle fuel') key es l out ;;
              let l := lua_pop l 1 in
              Ok (l, append out "n")
          end
      | LUA_TUSERDATA =>
          let out := append out "u" in
          let idp := lua_touserdata l idx in
          match Lookup l idp with
          | None => Fatal (NoLongerExists key idp) l
          | Some lo =>
              if Isa_SBodyPath lo then
                match lo with
                | OSBodyPath sectorX sectorY systemNum sbodyId =>
                    let buf := snprintf256
                      (str "SBodyPath" ++ NL :: snprintf_d sectorX ++ NL ::
                       snprintf_d sectorY ++ NL :: snprintf_d systemNum ++ NL ::
                       snprintf_d sbodyId ++ [NL]) in
                    Ok (l, out ++ buf)
                | _ => Undefined
                end
              else if Isa_Body lo then
                match lo with
                | OBody _ b =>
                    let buf := snprintf256
                      (str "Body" ++ NL :: snprintf_d (LookupBody_index b) ++ [NL]) in
                    Ok (l, out ++ buf)
                | _ => Undefined
                end
              else Fatal (UnsupportedUserdata key) l
          end
      | t => Fatal (UnsupportedType key (lua_typename t)) l
      end
  end.

(** The buffer [pickled.c_str()]: the bytes of the string followed by the
    terminating NUL.  A position counts bytes from its start; reading at a
    position is defined up to and including the terminator. *)
Definition peek (buf : bytes) (pos : nat) : option ascii :=
  nth_error (buf ++ [NUL]) pos.

(** The C string that starts at [pos]. *)
Definition cstring_at (buf : bytes) (pos : nat) : option bytes :=
  if (pos <=? length buf)%nat then Some (cstr (skipn pos buf)) else None.

(** The [len] bytes at [pos], as [lua_pushlstring] copies them. *)
Definition read_bytes (buf : bytes) (pos : nat) (len : Z) : option bytes :=
  if (0 <=? len) && (Z.of_nat pos + len <=? Z.of_nat (length buf) + 1)
  then Some (firstn (Z.to_nat len) (skipn pos (buf ++ [NUL])))
  else None.

(** [int x = strtol(pos, (char** )&end, 0); if (pos == end) throw ...]:
    the [int] and the position [end]. *)
Definition strtol_field (l : lua_State) (buf : bytes) (pos : nat) : Outcome (Z * nat) :=
  match cstring_at buf pos with
  | None => Undefined
  | Some s =>
      let '(v, n) := strtol0 s in
      let e := (pos + n)%nat in
      if (pos =? e)%nat then Corrupt l else Ok (to_int v, e)
  end.

(** The loop [while ( *pos != 'n') { ... }] of [unpickle]; [rec] is
    [unpickle] itself and [n] bounds the number of rounds. *)
Definition unpickle_while
    (rec : lua_State -> nat -> Outcome (lua_State * nat)) (buf : bytes)
    : nat -> lua_State -> nat -> Outcome (lua_State * nat) :=
  fix while (n : nat) (l : lua_State) (pos : nat) {struct n} :=
    match n with
    | O => OutOfFuel
    | S n' =>
        match peek buf pos with
        | None => Undefined
        | Some c =>
            if Ascii.eqb c "n" then Ok (l, pos)
            else
              ' (l, pos) <- rec l pos ;;
              ' (l, pos) <- rec l pos ;;
              l <- lua_rawset l (-3) ;;
              while n' l pos
        end
    end.

(** [unpickle(l, pos)] on the buffer [buf].  The result is the state and
    the returned position.  Here the pair [LUA_DEBUG_START(l)],
    [LUA_DEBUG_END(l, 1)] asserts that a normal return has pushed one
    value. *)
Fixpoint unpickle (fuel : nat) (l : lua_State) (buf : bytes) (pos : nat)
    {struct fuel} : Outcome (lua_State * nat) :=
  match fuel with
  | O => OutOfFuel
  | S fuel' =>
      match peek buf pos with
      | None => Undefined
      | Some type =>
          let pos := S pos in
          if Ascii.eqb type "f" then
            match cstring_at buf pos with
            | None => Undefined
            | Some s =>
                let '(f, n) := strtod s in
                let e := (pos + n)%nat in
                if (pos =? e)%nat then Corrupt l
                else
                  let l := lua_pushnumber l f in
                  Ok (l, S e)
            end
          else if Ascii.eqb type "b" then
            match peek buf pos with
            | None => Undefined
            | Some c =>
                if negb (Ascii.eqb c "0") && negb (Ascii.eqb c "1") then Corrupt l
                else
                  let b := if Ascii.eqb c "0" then false else true in
                  let l := lua_pushboolean l b in
                  Ok (l, S pos)
            end
          else if Ascii.eqb type "s" then
            match cstring_at buf pos with
            | None => Undefined
            | Some s =>
                let '(x, n) := strtod s in
                let len := double_to_int x in
                let e := (pos + n)%nat in
                if (pos =? e)%nat then Corrupt l
                else
                  let e := S e in
                  match len with
                  | None => Undefined
                  | Some len =>
                      match read_bytes buf e len with
                      | None => Undefined
                      | Some data =>
                          let l := lua_pushlstring l data in
                          Ok (l, (e + Z.to_nat len)%nat)
                      end
                  end
            end
          else if Ascii.eqb type "t" then
            let l := lua_newtable l in
            ' (l, pos) <-
              unpickle_while (fun l pos => unpickle fuel' l buf pos) buf fuel' l pos ;;
            Ok (l, S pos)
          else if Ascii.eqb type "u" then
            match cstring_at buf pos with
            | None => Undefined
            | Some s =>
                match strchr s NL with
                | None => Corrupt l
                | Some len =>
                    let e := S (pos + len) in
                    if (len =? 9)%nat && strncmp_eq s (str "SBodyPath") then
                      let pos := e in
                      ' (sectorX, e) <- strtol_field l buf pos ;;
                      let pos := S e in
                      ' (sectorY, e) <- strtol_field l buf pos ;;
                      let pos := S e in
                      ' (systemNum, e) <- strtol_field l buf pos ;;
                      let pos := S e in
                      ' (sbodyId, e) <- strtol_field l buf pos ;;
                      let pos := S e in
                      let l := PushToLua (OSBodyPath sectorX sectorY systemNum sbodyId) l in
                      Ok (l, pos)
                    else if (len =? 4)%nat && strncmp_eq s (str "Body") then
                      let pos := e in
                      ' (n, e) <- strtol_field l buf pos ;;
                      let pos := S e in
                      let body := LookupBody n in
                      if (pos =? e)%nat then Corrupt l
                      else
                        match body with
                        | None => Undefined
                        | Some body =>
                            match GetType body with
                            | BODY => Ok (PushToLua (OBody BODY body) l, pos)
                            | SHIP => Ok (PushToLua (OBody SHIP body) l, pos)
                            | SPACESTATION => Ok (PushToLua (OBody SPACESTATION body) l, pos)
                            | PLANET => Ok (PushToLua (OBody PLANET body) l, pos)
                            | STAR => Ok (PushToLua (OBody STAR body) l, pos)
                            | PLAYER => Ok (PushToLua (OBody PLAYER body) l, pos)
                            | OTHER_OBJECT _ => Corrupt l
                            end
                        end
                    else Corrupt l
                end
            end
          else Corrupt l
      end
  end.

(** *** Serialize and Unserialize *)

(** The scripts' own state, and what calling a Lua function does to it:
    the function, its arguments, the state before; the state after and the
    values returned. *)
Variable World : Type.
Variable call_function : nat -> list LuaValue -> World -> World * list LuaValue.

(** [lua_call(l, nargs, nresults)]. *)
Definition lua_call (w : World) (l : lua_State) (nargs nresults : nat)
    : Outcome (World * lua_State) :=
  let args := rev (firstn nargs (stack l)) in
  match skipn nargs (stack l) with
  | LFunction f :: s =>
      let '(w, res) := call_function f args w in
      let res := firstn nresults (res ++ repeat LNil nresults) in
      Ok (w, with_stack l (rev res ++ s))
  | _ :: _ => LuaError l
  | [] => Undefined
  end.

(** The registry field, made an empty table when it is still nil; it is
    left on the stack. *)
Definition push_callbacks (l : lua_State) : lua_State :=
  let l := lua_getfield_registry_callbacks l in
  if lua_isnil l (-1) then
    let l := lua_pop l 1 in
    let l := lua_newtable l in
    let l := lua_pushvalue l (-1) in
    lua_setfield_registry_callbacks l
  else l.

(** The loop of [Serialize] over the registered modules. *)
Fixpoint Serialize_while (savetable : Z) (es : list entry) (w : World)
    (l : lua_State) {struct es} : Outcome (World * lua_State) :=
  match es with
  | [] => Ok (w, lua_next_done l)
  | (k, v) :: es' =>
      let l := lua_next_entry l k v in
      let l := lua_pushinteger l 1 in
      l <- lua_gettable l (-2) ;;
      ' (w, l) <- lua_call w l 0 1 ;;
      let l := lua_pushvalue l (-3) in
      let l := lua_insert_2 l in
      l <- lua_settable l savetable ;;
      let l := lua_pop l 1 in
      Serialize_while savetable es' w l
  end.

(** [Serialize(wr)]: the bytes handed to [wr.String]. *)
Definition Serialize (fuel : nat) (w : World) (l : lua_State)
    : Outcome (World * lua_State * bytes) :=
  let l := lua_newtable l in
  let savetable := lua_gettop l in
  let l := push_callbacks l in
  let l := lua_pushnil l in
  match table_entries l (-2) with
  | None => Undefined
  | Some es =>
      ' (w, l) <- Serialize_while savetable es w l ;;
      let l := lua_pop l 1 in
      ' (l, pickled) <- pickle fuel l savetable [] None ;;
      let l := lua_pop l 1 in
      Ok (w, l, pickled)
  end.

(** The loop of [Unserialize] over the registered modules. *)
Fixpoint Unserialize_while (savetable : Z) (es : list entry) (w : World)
    (l : lua_State) {struct es} : Outcome (World * lua_State) :=
  match es with
  | [] => Ok (w, lua_next_done l)
  | (k, v) :: es' =>
      let l := lua_next_entry l k v in
      let l := lua_pushvalue l (-2) in
      let l := lua_pushinteger l 2 in
      l <- lua_gettable l (-3) ;;
      let '(l, name) := lua_tostring l (-2) in
      match name with
      | None => Undefined
      | Some name =>
          l <- lua_getfield l savetable name ;;
          let l := if lua_isnil l (-1) then lua_newtable (lua_pop l 1) else l in
          ' (w, l) <- lua_call w l 1 0 ;;
          let l := lua_pop l 2 in
          Unserialize_while savetable es' w l
      end
  end.

(** [Unserialize(rd)] on the bytes [rd.String()] returns. *)
Definition Unserialize (fuel : nat) (w : World) (l : lua_State) (pickled : bytes)
    : Outcome (World * lua_State) :=
  let start := O in
  ' (l, e) <- unpickle fuel l pickled start ;;
  if negb ((e - start) =? length pickled)%nat then Corrupt l
  else if negb (lua_istable l (-1)) then Corrupt l
  else
    let savetable := lua_gettop l in
    let l := push_callbacks l in
    let l := lua_pushnil l in
    match table_entries l (-2) with
    | None => Undefined
    | Some es =>
        ' (w, l) <- Unserialize_while savetable es w l ;;
        let l := lua_pop l 2 in
        Ok (w, l)
    end.

(** *** Registration *)

(** [luaL_checkstring(l, idx)]: the bytes of a string or of a number made
    a string; any other value is a Lua error. *)
Definition luaL_checkstring (l : lua_State) (idx : Z) : Outcome (lua_State * bytes) :=
  match lua_tostring l idx with
  | (l, Some s) => Ok (l, s)
  | (l, None) => LuaError l
  end.

Definition lua_isfunction (l : lua_State) (idx : Z) : bool :=
  match lua_type l idx with LUA_TFUNCTION => true | _ => false end.

(** [l_register(l)], the Lua method [Serializer:Register(key, save, load)]:
    the object is at index 1 and the arguments follow.  The table on the
    stack at the last [lua_rawset] is the registry's own table, so the
    assignment is made to the registry field as well. *)
Definition l_register (l : lua_State) : Outcome lua_State :=
  ' (l, key) <- luaL_checkstring l 2 ;;
  if negb (lua_isfunction l 3) then LuaError l
  else if negb (lua_isfunction l 4) then LuaError l
  else
    let l := push_callbacks l in
    l <- lua_getfield l (-1) key ;;
    if negb (lua_isnil l (-1)) then LuaError l
    else
      let l := lua_pop l 1 in
      let l := lua_newtable l in
      let l := lua_pushinteger l 1 in
      let l := lua_pushvalue l 3 in
      l <- lua_rawset l (-3) ;;
      let l := lua_pushinteger l 2 in
      let l := lua_pushvalue l 4 in
      l <- lua_rawset l (-3) ;;
      let l := lua_pushlstring l (cstr key) in
      let l := lua_pushvalue l (-2) in
      l <- lua_rawset l (-4) ;;
      let l := with_callbacks l
                 (match index2adr l (-2) with Some t => t | None => LNil end) in
      let l := lua_pop l 2 in
      Ok l.

(* ===================================================================== *)
(** ** What the serializer is compared with *)
(* ===================================================================== *)

(** The values [pickle] accepts: nil, numbers, booleans, strings, tables of
    such values, and userdata naming a live [SBodyPath] or [Body]. *)
Fixpoint supported (objs : list (lid * LuaObject)) (v : LuaValue) : bool :=
  match v with
  | LNil | LNumber _ | LBoolean _ | LString _ => true
  | LTable es => forallb (fun e => supported objs (fst e) && supported objs (snd e)) es
  | LUserdata id =>
      match Lookup_in objs id with
      | Some (OSBodyPath _ _ _ _) | Some (OBody _ _) => true
      | _ => false
      end
  | _ => false
  end.

(** The bytes of a supported value, by the grammar in the comment at the
    head of the source file. *)
Fixpoint encode (objs : list (lid * LuaObject)) (v : LuaValue) : bytes :=
  match v with
  | LNumber x => snprintf256 ("f"%char :: fmt_f x ++ [NL])
  | LBoolean b => snprintf256 ("b"%char :: snprintf_d (if b then 1 else 0))
  | LString s =>
      snprintf256 ("s"%char :: snprintf_d (to_int (strlen s)) ++ [NL]) ++ cstr s
  | LTable es =>
      str "t" ++ flat_map (fun e => encode objs (fst e) ++ encode objs (snd e)) es
      ++ str "n"
  | LUserdata id =>
      match Lookup_in objs id with
      | Some (OSBodyPath sectorX sectorY systemNum sbodyId) =>
          str "u" ++ snprintf256
            (str "SBodyPath" ++ NL :: snprintf_d sectorX ++ NL ::
             snprintf_d sectorY ++ NL :: snprintf_d systemNum ++ NL ::
             snprintf_d sbodyId ++ [NL])
      | Some (OBody _ b) =>
          str "u" ++ snprintf256
            (str "Body" ++ NL :: snprintf_d (LookupBody_index b) ++ [NL])
      | _ => []
      end
  | _ => []
  end.

(** Nesting depth of tables. *)
Fixpoint depth (v : LuaValue) : nat :=
  match v with
  | LTable es =>
      S (fold_right (fun e d => Nat.max (Nat.max (depth (fst e)) (depth (snd e))) d) O es)
  | _ => O
  end.

(** The values whose bytes [unpickle] reads back: a number whose [%f]
    text fits the 256-byte buffer, a boolean, a string without NUL byte of
    a length that is an [int], a table of such keys and values.  Neither
    nil nor a NaN key occurs in a Lua table. *)
Definition double_ok (x : double) : bool :=
  match x with DFinite _ m _ => 0 <? m | _ => true end
  && (length (fmt_f x) <=? 253)%nat.

Definition string_ok (s : bytes) : bool :=
  forallb (fun c => negb (Ascii.eqb c NUL)) s && (Z.of_nat (length s) <=? INT_MAX).

Fixpoint storable (v : LuaValue) : bool :=
  match v with
  | LNumber x => double_ok x
  | LBoolean _ => true
  | LString s => string_ok s
  | LTable es =>
      forallb (fun e => storable (fst e) && negb (is_nan_key (fst e)) && storable (snd e)) es
  | _ => false
  end.

(** What [unpickle] makes of the bytes of a value: each number read back
    from its text, each table filled anew, its entries assigned in the
    order of the stream. *)
Fixpoint decoded (v : LuaValue) : LuaValue :=
  match v with
  | LNumber x => LNumber (reread x)
  | LTable es =>
      LTable (fold_left (fun acc e => tbl_set acc (decoded (fst e)) (decoded (snd e))) es [])
  | _ => v
  end.

(** No key is raw-equal to an earlier one. *)
Fixpoint keys_distinct (seen ks : list LuaValue) : bool :=
  match ks with
  | [] => true
  | k :: ks' => negb (existsb (fun k' => rawequal k' k) seen) && keys_distinct (seen ++ [k]) ks'
  end.

End Runtime.

(** A runtime that lists the key [false] before every other key and a
    new key last otherwise.  Lua 5.1 enumerates a table with the two keys
    [true] and [false] in this order, whichever was assigned first: after
    the second assignment the hash part has two nodes, and [false] hashes
    to node 0, [true] to node 1. *)
Definition place_false_first : placement :=
  fun es e =>
    match fst e with
    | LBoolean false => e :: es
    | _ => es ++ [e]
    end.

(** The state before anything was pushed or registered. *)
Definition empty_state : lua_State :=
  {| stack := []; callbacks := LNil; objects := []; next_lid := 1 |}.

(* ===================================================================== *)
(** ** Example inputs *)
(* ===================================================================== *)

(** A number-to-string conversion that is never reached by strings. *)
Definition no_number2str : double -> bytes := fun _ => [].

(** An identity table that knows one ship, under the id 7. *)
Definition the_ship : Body := {| body_address := 1; GetType := SHIP |}.

Definition ship_index : Body -> Z := fun _ => 7.

Definition ship_table : Z -> option Body :=
  fun n => if n =? 7 then Some the_ship else None.

(** A string with a NUL byte in the middle. *)
Definition a_NUL_b : bytes := "a"%char :: NUL :: str "b".

(** The registry after [Serializer:Register("ModuleA", save, load)]: the
    key maps to the table [{save, load}]. *)
Definition module_functions (save load : nat) : LuaValue :=
  LTable [(LNumber (double_of_int 1), LFunction save);
          (LNumber (double_of_int 2), LFunction load)].

Definition state_A : lua_State :=
  {| stack := [];
     callbacks := LTable [(LString (str "ModuleA"), module_functions 0 1)];
     objects := [];
     next_lid := 1 |}.

(** The stack of that call of [l_register]: the arguments above the
    Serializer object, functions 0 and 1 being the two callbacks. *)
Definition register_A_call : lua_State :=
  {| stack := [LFunction 1; LFunction 0; LString (str "ModuleA"); LUserdata 0];
     callbacks := LNil;
     objects := [];
     next_lid := 1 |}.

Definition data_A : LuaValue := LTable [(LString (str "x"), LBoolean true)].
Definition data_B : LuaValue := LTable [(LString (str "y"), LBoolean false)].

(** A saved game with the data of two modules. *)
Definition saved_AB : bytes :=
  str "ts7" ++ NL :: str "ModuleAts1" ++ NL :: str "xb1ns7" ++ NL ::
  str "ModuleBts1" ++ NL :: str "yb0nn".

(** The scripts: function 0 is the save callback of ModuleA and returns
    its data; every call is logged with its arguments. *)
Definition call_log : Type := list (nat * list LuaValue).

Definition scripts (f : nat) (args : list LuaValue) (w : call_log)
    : call_log * list LuaValue :=
  (w ++ [(f, args)], match f with O => [data_A] | _ => [] end).

(** A state whose userdata 1 names the ship and userdata 2 a location. *)
Definition state_refs : lua_State :=
  {| stack := [LUserdata 2; LUserdata 1];
     callbacks := LNil;
     objects := [(1, OBody SHIP the_ship); (2, OSBodyPath 3 (-7) 12 5)];
     next_lid := 3 |}.

(** The double 1.5. *)
Definition one_and_a_half : double := DFinite false 6755399441055744 (-52).

(** A table whose value under the module key is a function. *)
Definition bad_module : LuaValue :=
  LTable [(LString (str "ModuleA"), LTable [(LString (str "f"), LFunction 3)])].

(** A table with three string keys. *)
Definition table_abc : list entry :=
  [(LString (str "a"), LBoolean true);
   (LString (str "b"), LNumber one_and_a_half);
   (LString (str "c"), LString (str "x"))].

(** The keys [true] and [false], assigned in this order. *)
Definition assigned_true_false : list entry :=
  [(LBoolean true, LString (str "first")); (LBoolean false, LString (str "second"))].

(** The table these assignments build in a runtime with [place]. *)
Definition built (place : placement) (assigned : list entry) : list entry :=
  fold_left (fun acc e => tbl_set place acc (fst e) (snd e)) assigned [].

(** The bytes of a Body reference and of a Location reference. *)
Definition body_bytes (n : Z) : bytes := str "uBody" ++ NL :: snprintf_d n ++ [NL].

Definition location_bytes (x y s t : Z) : bytes :=
  str "uSBodyPath" ++ NL :: snprintf_d x ++ NL :: snprintf_d y ++ NL ::
  snprintf_d s ++ NL :: snprintf_d t ++ [NL].


(* ===================================================================== *)
(** ** Predicates of the proofs *)
(* ===================================================================== *)

(** Induction on values that reaches into the entries of a table. *)
Fixpoint LuaValue_nested_ind (P : LuaValue -> Prop)
    (Hnil : P LNil) (Hbool : forall b, P (LBoolean b))
    (Hlight : forall p, P (LLightUserdata p)) (Hnum : forall x, P (LNumber x))
    (Hstr : forall s, P (LString s))
    (Htbl : forall es, Forall (fun e => P (fst e) /\ P (snd e)) es -> P (LTable es))
    (Hfun : forall f, P (LFunction f)) (Hud : forall id, P (LUserdata id))
    (Hthr : forall t, P (LThread t)) (v : LuaValue) {struct v} : P v :=
  match v with
  | LNil => Hnil
  | LBoolean b => Hbool b
  | LLightUserdata p => Hlight p
  | LNumber x => Hnum x
  | LString s => Hstr s
  | LTable es =>
      Htbl es
        ((fix go (es : list entry) : Forall (fun e => P (fst e) /\ P (snd e)) es :=
            match es with
            | [] => Forall_nil _
            | (k, v') :: es' =>
                Forall_cons (k, v')
                  (conj (LuaValue_nested_ind P Hnil Hbool Hlight Hnum Hstr Htbl Hfun Hud Hthr k)
                        (LuaValue_nested_ind P Hnil Hbool Hlight Hnum Hstr Htbl Hfun Hud Hthr v'))
                  (go es')
            end) es)
  | LFunction f => Hfun f
  | LUserdata id => Hud id
  | LThread t => Hthr t
  end.


(** A decimal digit character. *)
Definition dec_digit (c : ascii) : Prop := exists d, 0 <= d < 10 /\ c = digit_char d.

(** The number a run of decimal digits denotes, on top of [a]. *)
Definition eval_digits (a : Z) (ds : bytes) : Z :=
  fold_left (fun a c => a * 10 + match digit_in 10 c with Some d => d | None => 0 end) ds a.

Definition valid_double (x : double) : Prop :=
  match x with DFinite _ m _ => 0 < m | _ => True end.

(** What every call of [pickle] guarantees: a normal return leaves the
    state as it was, a fatal error carries the [key] of the call, and no
    exception, Lua error or undefined behaviour occurs. *)
Definition pickle_post (l : lua_State) (key : option bytes)
    (r : Outcome (lua_State * bytes)) : Prop :=
  match r with
  | Ok (l', _) => l' = l
  | Fatal d _ => forall k, key = Some k -> diagnostic_key d = Some k
  | OutOfFuel => True
  | _ => False
  end.

Definition while_post (l : lua_State) (T : list LuaValue) (key : option bytes)
    (r : Outcome (lua_State * bytes)) : Prop :=
  match r with
  | Ok (l', _) => l' = with_stack l T
  | Fatal d _ => forall k, key = Some k -> diagnostic_key d = Some k
  | OutOfFuel => True
  | _ => False
  end.

(** The buffer holds [s] from position [pos] on. *)
Definition at_pos (buf : bytes) (pos : nat) (s : bytes) : Prop :=
  (pos <= length buf)%nat /\ skipn pos buf = s.

(** A normal return of [unpickle] has pushed exactly one value, touched
    nothing below it, and moved the position forward. *)
Definition unpickle_post (l : lua_State) (pos : nat)
    (r : Outcome (lua_State * nat)) : Prop :=
  match r with
  | Ok (l', pos') =>
      (exists v, stack l' = v :: stack l) /\ callbacks l' = callbacks l
      /\ (pos < pos')%nat
  | _ => True
  end.

Definition unpickle_while_post (l : lua_State) (T : list LuaValue) (pos : nat)
    (r : Outcome (lua_State * nat)) : Prop :=
  match r with
  | Ok (l', pos') =>
      (exists t, stack l' = t :: T) /\ callbacks l' = callbacks l
      /\ (pos <= pos')%nat
  | _ => True
  end.

Definition entry_ok (e : entry) : bool :=
  storable (fst e) && negb (is_nan_key (fst e)) && storable (snd e).

Section Specs.

Variable place : placement.
Variable LookupBody_index : Body -> Z.
Variable objs : list (lid * LuaObject).

(** What [pickle] does with the value [v], as a property of the function
    [rec] that stands for it at a given fuel. *)
Definition pickle_spec
    (rec : lua_State -> Z -> bytes -> option bytes -> Outcome (lua_State * bytes))
    (v : LuaValue) : Prop :=
  forall l idx out key, objects l = objs -> index2adr l idx = Some v ->
  if supported objs v
  then rec l idx out key = Ok (l, out ++ encode LookupBody_index objs v)
  else exists d l', rec l idx out key = Fatal d l'.

(** [rec], standing for [unpickle] at some fuel, reads back the value [v]
    wherever its bytes lie in the buffer. *)
Definition unpickle_spec (rec : lua_State -> nat -> Outcome (lua_State * nat))
    (buf : bytes) (v : LuaValue) : Prop :=
  forall l pos rest, at_pos buf pos (encode LookupBody_index objs v ++ rest) ->
  rec l pos = Ok (lua_push (decoded place v) l,
                  (pos + length (encode LookupBody_index objs v))%nat).

Definition enc_entry (e : entry) : bytes :=
  encode LookupBody_index objs (fst e) ++ encode LookupBody_index objs (snd e).

(** One assignment of [unpickle]'s loop, on the entries of the table. *)
Definition assign (acc : list entry) (e : entry) : list entry :=
  tbl_set place acc (decoded place (fst e)) (decoded place (snd e)).

End Specs.







(* ===================================================================== *)
(** ** Further inputs and notions *)
(* ===================================================================== *)

(** A string with a newline in the middle. *)
Definition a_NL_b : bytes := "a"%char :: NL :: str "b".

(** The double [1e300], whose [%f] text has 308 bytes. *)
Definition ten_to_300 : double := fst (strtod (str "1e300")).

(** The bytes of a table whose closing [n] is missing. *)
Definition encode_open (LookupBody_index : Body -> Z) (objs : list (lid * LuaObject))
    (es : list entry) : bytes :=
  str "t" ++ flat_map (enc_entry LookupBody_index objs) es.

(** *** The registry and the scripts *)

(** What [l_register] stored for one module: the key and the two
    functions. *)
Record Registered : Type := {
  reg_key : bytes;
  reg_serialize : nat;
  reg_unserialize : nat
}.

(** The modules of the registry table, in the order [lua_next] lists
    them, when each entry is a string key with a table that holds a
    function at [1] and at [2]. *)
Fixpoint registry_modules (reg : list entry) : option (list Registered) :=
  match reg with
  | [] => Some []
  | (LString key, LTable fs) :: reg' =>
      match tbl_get fs (LNumber (double_of_int 1)),
            tbl_get fs (LNumber (double_of_int 2)),
            registry_modules reg' with
      | LFunction s, LFunction u, Some ms =>
          Some ({| reg_key := key; reg_serialize := s; reg_unserialize := u |} :: ms)
      | _, _, _ => None
      end
  | _ => None
  end.

Section Scripts.

Variable place : placement.
Variable World : Type.
Variable call_function : nat -> list LuaValue -> World -> World * list LuaValue.

(** The serialize functions called in turn without arguments: the world
    after the calls and the first result of each, nil when there is
    none. *)
Fixpoint run_serializers (ms : list Registered) (w : World) : World * list LuaValue :=
  match ms with
  | [] => (w, [])
  | m :: ms' =>
      let '(w, res) := call_function (reg_serialize m) [] w in
      let '(w, vs) := run_serializers ms' w in
      (w, hd LNil res :: vs)
  end.

(** The table [acc] after each result was assigned under the key of its
    module. *)
Definition collect (acc : list entry) (ms : list Registered) (vs : list LuaValue)
    : list entry :=
  fold_left (fun acc mv => tbl_set place acc (LString (reg_key (fst mv))) (snd mv))
    (combine ms vs) acc.

(** What a module is handed at load: its entry of the decoded table, or a
    new empty table when there is none. *)
Definition load_argument (data : list entry) (key : bytes) : LuaValue :=
  match tbl_get data (LString (cstr key)) with
  | LNil => LTable []
  | v => v
  end.

(** The unserialize functions called in turn, each with its argument. *)
Fixpoint run_unserializers (data : list entry) (ms : list Registered) (w : World) : World :=
  match ms with
  | [] => w
  | m :: ms' =>
      run_unserializers data ms'
        (fst (call_function (reg_unserialize m) [load_argument data (reg_key m)] w))
  end.

End Scripts.

Section HandBack.

Variable place : placement.
Variable World : Type.
Variable call_function : nat -> list LuaValue -> World -> World * list LuaValue.

(** Each unserialize function called in turn with what its module's
    serialize function returned, read back from the bytes; a module that
    returned nothing is handed a new empty table. *)
Fixpoint hand_back (ms : list Registered) (vs : list LuaValue) (w : World) : World :=
  match ms, vs with
  | m :: ms', v :: vs' =>
      hand_back ms' vs'
        (fst (call_function (reg_unserialize m)
                [match v with LNil => LTable [] | _ => decoded place v end] w))
  | _, _ => w
  end.

End HandBack.

(** The entries [Serialize] assigns to its table, one for each module. *)
Definition saved_entries (ms : list Registered) (vs : list LuaValue) : list entry :=
  map (fun mv => (LString (reg_key (fst mv)), snd mv)) (combine ms vs).

(** A value a serialize function may return: nothing, or a value whose
    bytes are read back. *)
Definition returnable (v : LuaValue) : bool :=
  match v with LNil => true | _ => storable v end.

(** An entry whose key is a string, and an entry that holds a value. *)
Definition string_key (e : entry) : Prop := exists s, fst e = LString s.

Definition has_value (e : entry) : bool :=
  match snd e with LNil => false | _ => true end.

(** The module of [state_A]. *)
Definition module_A : Registered :=
  {| reg_key := str "ModuleA"; reg_serialize := 0; reg_unserialize := 1 |}.

(** [Serializer:Register("ModuleA", save, load)] called once more when
    the module is registered already. *)
Definition register_A_again : lua_State :=
  {| stack := stack register_A_call;
     callbacks := callbacks state_A;
     objects := [];
     next_lid := 1 |}.


(** *** Values with references *)

Definition int_ok (n : Z) : bool := (INT_MIN <=? n) && (n <=? INT_MAX).

Section References.

Variable place : placement.
Variable LookupBody_index : Body -> Z.
Variable LookupBody : Z -> option Body.
Variable objs : list (lid * LuaObject).

(** An object whose reference is read back: a location of four [int]s,
    or a body whose stable id is an [int] that the identity table
    resolves to a body of one of the six types with a wrapper. *)
Definition object_ok (o : LuaObject) : bool :=
  match o with
  | OSBodyPath sectorX sectorY systemNum sbodyId =>
      int_ok sectorX && int_ok sectorY && int_ok systemNum && int_ok sbodyId
  | OBody _ b =>
      int_ok (LookupBody_index b)
      && match LookupBody (LookupBody_index b) with
         | Some b' => match GetType b' with OTHER_OBJECT _ => false | _ => true end
         | None => false
         end
  | OOther _ => false
  end.

(** The storable values, and references to such objects, in tables as
    well. *)
Fixpoint storable_ref (v : LuaValue) : bool :=
  match v with
  | LNumber x => double_ok x
  | LBoolean _ => true
  | LString s => string_ok s
  | LUserdata id =>
      match Lookup_in objs id with
      | Some o => object_ok o
      | None => false
      end
  | LTable es =>
      forallb (fun e => storable_ref (fst e) && negb (is_nan_key (fst e))
                        && storable_ref (snd e)) es
  | _ => false
  end.

(** The object behind a reference that was read back: the same location,
    or the body the identity table finds, wrapped by its own type. *)
Definition revived_object (o : LuaObject) : LuaObject :=
  match o with
  | OBody _ b =>
      match LookupBody (LookupBody_index b) with
      | Some b' => OBody (GetType b') b'
      | None => o
      end
  | _ => o
  end.

(** The live objects and the next free id. *)
Definition heap : Type := (list (lid * LuaObject) * lid)%type.

(** What [unpickle] makes of the bytes of a value with references: as
    [decoded], and each reference becomes a new userdata for a new
    [LuaObject], allocated in the order of the stream. *)
Fixpoint revive (v : LuaValue) (h : heap) : LuaValue * heap :=
  match v with
  | LNumber x => (LNumber (reread x), h)
  | LUserdata id =>
      match Lookup_in objs id with
      | Some o => (LUserdata (snd h), ((snd h, revived_object o) :: fst h, snd h + 1))
      | None => (v, h)
      end
  | LTable es =>
      let '(t, h) :=
        fold_left (fun (st : list entry * heap) e =>
                     let '(k, h1) := revive (fst e) (snd st) in
                     let '(x, h2) := revive (snd e) h1 in
                     (tbl_set place (fst st) k x, h2)) es ([], h) in
      (LTable t, h)
  | _ => (v, h)
  end.

(** The state after [unpickle] pushed the value read back. *)
Definition push_revived (v : LuaValue) (l : lua_State) : lua_State :=
  let '(v', h) := revive v (objects l, next_lid l) in
  {| stack := v' :: stack l; callbacks := callbacks l;
     objects := fst h; next_lid := snd h |}.

End References.

Section ReferenceSpecs.

Variable place : placement.
Variable LookupBody_index : Body -> Z.
Variable LookupBody : Z -> option Body.
Variable objs : list (lid * LuaObject).

(** One round of the loop of [unpickle] on the entries read so far and
    the heap. *)
Definition revive_step (st : list entry * heap) (e : entry) : list entry * heap :=
  let '(k, h1) := revive place LookupBody_index LookupBody objs (fst e) (snd st) in
  let '(x, h2) := revive place LookupBody_index LookupBody objs (snd e) h1 in
  (tbl_set place (fst st) k x, h2).

(** [rec], standing for [unpickle] at some fuel, reads back the value [v]
    with its references wherever its bytes lie in the buffer. *)
Definition unpickle_ref_spec (rec : lua_State -> nat -> Outcome (lua_State * nat))
    (buf : bytes) (v : LuaValue) : Prop :=
  forall l pos rest, at_pos buf pos (encode LookupBody_index objs v ++ rest) ->
  rec l pos = Ok (push_revived place LookupBody_index LookupBody objs v l,
                  (pos + length (encode LookupBody_index objs v))%nat).

Definition entry_ok_ref (e : entry) : bool :=
  storable_ref LookupBody_index LookupBody objs (fst e)
  && negb (is_nan_key (fst e))
  && storable_ref LookupBody_index LookupBody objs (snd e).

End ReferenceSpecs.

(** The data of a module that holds a reference to the ship and one to a
    location of [state_refs]. *)
Definition refs_table : LuaValue :=
  LTable [(LString (str "ship"), LUserdata 1); (LString (str "home"), LUserdata 2)].

(* ===================================================================== *)
(** ** Facts about the C library *)
(* ===================================================================== *)

Module CFacts.

Ltac digit_cases d H :=
  let E := fresh "E" in
  assert (E : d = 0 \/ d = 1 \/ d = 2 \/ d = 3 \/ d = 4 \/ d = 5 \/ d = 6
              \/ d = 7 \/ d = 8 \/ d = 9) by lia;
  clear H; repeat (destruct E as [E | E]; [subst d | ]); [ .. | subst d].

Lemma digit_in_10 d : 0 <= d < 10 -> digit_in 10 (digit_char d) = Some d.
Proof. intro H. digit_cases d H; reflexivity. Qed.

Lemma dec_digit_not_nul c : dec_digit c -> Ascii.eqb c NUL = false.
Proof. intros (d & H & ->). digit_cases d H; reflexivity. Qed.

Lemma dec_digit_not_space c : dec_digit c -> isspace c = false.
Proof. intros (d & H & ->). digit_cases d H; reflexivity. Qed.

Lemma dec_digit_sign c s : dec_digit c -> scan_sign (c :: s) = (false, O, c :: s).
Proof. intros (d & H & ->). digit_cases d H; reflexivity. Qed.

Lemma dec_digit_not_x c : dec_digit c -> Ascii.eqb (tolower c) "x" = false.
Proof. intros (d & H & ->). digit_cases d H; reflexivity. Qed.

Lemma dec_digit_not_dot c : dec_digit c -> Ascii.eqb c "." = false.
Proof. intros (d & H & ->). digit_cases d H; reflexivity. Qed.

Lemma dec_digit_not_word c lit s :
  dec_digit c -> lit = "i"%char \/ lit = "n"%char ->
  forall lits, prefix_ci (lit :: lits) (c :: s) = false.
Proof.
  intros (d & H & ->) [-> | ->] lits; digit_cases d H; reflexivity.
Qed.

(** *** [%d] and the digit scanner *)

Lemma eval_digits_app a x y : eval_digits a (x ++ y) = eval_digits (eval_digits a x) y.
Proof. apply fold_left_app. Qed.

Lemma scan_digits_run ds : Forall dec_digit ds ->
  forall a r, (match r with [] => True | c :: _ => digit_in 10 c = None end) ->
  scan_digits 10 a (ds ++ r) = (eval_digits a ds, length ds, r).
Proof.
  induction 1 as [ | c ds (d & Hd & ->) _ IH]; intros a r Hr.
  - destruct r as [ | c r]; [reflexivity | ]. cbn [app scan_digits]. now rewrite Hr.
  - cbn [app scan_digits]. rewrite (digit_in_10 d Hd). rewrite (IH _ r Hr).
    unfold eval_digits. cbn [fold_left length]. now rewrite (digit_in_10 d Hd).
Qed.

Lemma dec_aux_app f : forall n acc, dec_aux f n acc = dec_aux f n [] ++ acc.
Proof.
  induction f as [ | f IH]; intros n acc; simpl.
  - reflexivity.
  - destruct (n <? 10); [reflexivity | ].
    rewrite IH. rewrite (IH _ [_]). now rewrite <- app_assoc.
Qed.

Lemma dec_aux_digits f : forall n, 0 <= n < 10 * 2 ^ Z.of_nat f ->
  Forall dec_digit (dec_aux f n []) /\ eval_digits 0 (dec_aux f n []) = n.
Proof.
  induction f as [ | f IH]; intros n Hn.
  - simpl in *. split.
    + constructor; [ | constructor]. exists n. split; [lia | reflexivity].
    + unfold eval_digits. simpl. rewrite digit_in_10; lia.
  - simpl. destruct (Z.ltb_spec n 10) as [Hlt | Hge].
    + split.
      * constructor; [ | constructor]. exists n. split; [lia | reflexivity].
      * unfold eval_digits. simpl. rewrite digit_in_10; lia.
    + rewrite dec_aux_app.
      assert (Hm : 0 <= n mod 10 < 10) by (apply Z.mod_pos_bound; lia).
      assert (Hq : 0 <= n / 10 < 10 * 2 ^ Z.of_nat f).
      { split; [apply Z.div_pos; lia | ].
        apply Z.div_lt_upper_bound; [lia | ].
        rewrite Nat2Z.inj_succ, Z.pow_succ_r in Hn by lia. lia. }
      destruct (IH _ Hq) as [IH1 IH2]. split.
      * apply Forall_app. split; [exact IH1 | ].
        constructor; [ | constructor]. exists (n mod 10). split; [lia | reflexivity].
      * rewrite eval_digits_app, IH2. unfold eval_digits. simpl.
        rewrite digit_in_10 by lia. pose proof (Z.div_mod n 10). lia.
Qed.

Lemma decimal_bound n : 0 <= n -> 0 <= n < 10 * 2 ^ Z.of_nat (Z.to_nat (Z.log2 n)).
Proof.
  intro H. split; [exact H | ].
  rewrite Z2Nat.id by apply Z.log2_nonneg.
  destruct (Z.eq_dec n 0) as [-> | Hz]; [reflexivity | ].
  pose proof (Z.log2_spec n ltac:(lia)) as [_ Hs].
  rewrite Z.pow_succ_r in Hs by apply Z.log2_nonneg. lia.
Qed.

Lemma decimal_digits n : 0 <= n -> Forall dec_digit (decimal n).
Proof. intro H. apply dec_aux_digits, decimal_bound, H. Qed.

Lemma decimal_eval n : 0 <= n -> eval_digits 0 (decimal n) = n.
Proof. intro H. apply dec_aux_digits, decimal_bound, H. Qed.

Lemma dec_aux_head f : forall n, 0 < n < 10 * 2 ^ Z.of_nat f ->
  exists d tl, dec_aux f n [] = digit_char d :: tl /\ 1 <= d <= 9.
Proof.
  induction f as [ | f IH]; intros n Hn.
  - simpl in *. exists n, []. split; [reflexivity | lia].
  - simpl. destruct (Z.ltb_spec n 10) as [Hlt | Hge].
    + exists n, []. split; [reflexivity | lia].
    + rewrite dec_aux_app.
      assert (Hq : 0 < n / 10 < 10 * 2 ^ Z.of_nat f).
      { split; [apply Z.div_str_pos; lia | ].
        apply Z.div_lt_upper_bound; [lia | ].
        rewrite Nat2Z.inj_succ, Z.pow_succ_r in Hn by lia. lia. }
      destruct (IH _ Hq) as (d & tl & E & Hd). rewrite E.
      exists d, (tl ++ [digit_char (n mod 10)]). split; [reflexivity | exact Hd].
Qed.

Lemma decimal_head n : 0 < n ->
  exists d tl, decimal n = digit_char d :: tl /\ 1 <= d <= 9.
Proof.
  intro H. apply dec_aux_head. pose proof (decimal_bound n ltac:(lia)). lia.
Qed.

Lemma decimal_nonempty n : 0 <= n -> exists c tl, decimal n = c :: tl /\ dec_digit c.
Proof.
  intro H. pose proof (decimal_digits n H) as F.
  destruct (decimal n) as [ | c tl] eqn:E.
  - unfold decimal in E. destruct (Z.to_nat (Z.log2 n)); simpl in E;
      [discriminate | ]. destruct (n <? 10); [discriminate | ].
    rewrite dec_aux_app in E. now destruct (dec_aux n0 (n / 10) []).
  - exists c, tl. split; [reflexivity | ]. now inversion F.
Qed.

Lemma NL_not_digit b : digit_in b NL = None.
Proof. reflexivity. Qed.

Lemma scan_decimal n a r : 0 <= n ->
  scan_digits 10 a (decimal n ++ NL :: r)
  = (eval_digits a (decimal n), length (decimal n), NL :: r).
Proof. intro H. apply scan_digits_run; [now apply decimal_digits | reflexivity]. Qed.

(** *** [strtol] reads back what [%d] wrote *)

Lemma clamp_long_int n : INT_MIN <= n <= INT_MAX -> clamp_long n = n.
Proof. unfold clamp_long, INT_MIN, INT_MAX, LONG_MIN, LONG_MAX. lia. Qed.

Lemma to_int_int n : INT_MIN <= n <= INT_MAX -> to_int n = n.
Proof.
  unfold to_int, wrap, INT_MIN, INT_MAX. intro H.
  change (2 ^ (32 - 1)) with 2147483648. change (2 ^ 32) with 4294967296.
  rewrite Z.mod_small; lia.
Qed.

Lemma strtol0_positive n r : 0 <= n <= INT_MAX ->
  strtol0 (decimal n ++ NL :: r) = (n, length (decimal n)).
Proof.
  intro H. destruct (Z.eq_dec n 0) as [-> | Hz]; [now destruct r | ].
  destruct (decimal_head n ltac:(lia)) as (d & tl & E & Hd).
  pose proof (scan_decimal n 0 r ltac:(lia)) as Hs.
  rewrite decimal_eval in Hs by lia.
  unfold strtol0. rewrite E in *. simpl app in *.
  assert (Hc : dec_digit (digit_char d)) by (exists d; split; [lia | reflexivity]).
  cbn [skip_space]. rewrite (dec_digit_not_space _ Hc).
  rewrite (dec_digit_sign _ _ Hc).
  assert (Hh : is_hex_prefix (digit_char d :: tl ++ NL :: r) = false).
  { destruct Hd as [H1 H9]. assert (Hd' : 0 <= d - 1 < 9) by lia.
    assert (E' : d = 1 \/ d = 2 \/ d = 3 \/ d = 4 \/ d = 5 \/ d = 6 \/ d = 7
                 \/ d = 8 \/ d = 9) by lia.
    unfold is_hex_prefix.
    destruct (tl ++ NL :: r) as [ | cx [ | ch ?]]; [reflexivity .. | ].
    repeat (destruct E' as [E' | E']; [subst d; reflexivity | ]).
    subst d; reflexivity. }
  rewrite Hh.
  assert (Hz0 : Ascii.eqb (digit_char d) "0" = false).
  { assert (E' : d = 1 \/ d = 2 \/ d = 3 \/ d = 4 \/ d = 5 \/ d = 6 \/ d = 7
                 \/ d = 8 \/ d = 9) by lia.
    repeat (destruct E' as [E' | E']; [subst d; reflexivity | ]).
    subst d; reflexivity. }
  rewrite Hz0, Hs. cbn [length]. rewrite clamp_long_int by (unfold INT_MIN; lia).
  reflexivity.
Qed.

Lemma strtol0_snprintf_d n r : INT_MIN <= n <= INT_MAX ->
  strtol0 (snprintf_d n ++ NL :: r) = (n, length (snprintf_d n)).
Proof.
  intro H. unfold snprintf_d. destruct (Z.ltb_spec n 0) as [Hneg | Hpos].
  - destruct (decimal_head (- n) ltac:(lia)) as (d & tl & E & Hd).
    pose proof (scan_decimal (- n) 0 r ltac:(lia)) as Hs.
    rewrite decimal_eval in Hs by lia.
    unfold strtol0. rewrite E in *. simpl app in *.
    assert (Hc : dec_digit (digit_char d)) by (exists d; split; [lia | reflexivity]).
    cbn [skip_space]. change (isspace "-") with false. cbv iota.
    change (scan_sign ("-"%char :: digit_char d :: tl ++ NL :: r))
      with (true, 1%nat, digit_char d :: tl ++ NL :: r).
    cbv beta iota zeta.
    assert (E' : d = 1 \/ d = 2 \/ d = 3 \/ d = 4 \/ d = 5 \/ d = 6 \/ d = 7
                 \/ d = 8 \/ d = 9) by lia.
    assert (Hh : is_hex_prefix (digit_char d :: tl ++ NL :: r) = false).
    { unfold is_hex_prefix.
      destruct (tl ++ NL :: r) as [ | cx [ | ch ?]]; [reflexivity .. | ].
      repeat (destruct E' as [E' | E']; [subst d; reflexivity | ]).
      subst d; reflexivity. }
    rewrite Hh.
    assert (Hz0 : Ascii.eqb (digit_char d) "0" = false).
    { repeat (destruct E' as [E' | E']; [subst d; reflexivity | ]).
      subst d; reflexivity. }
    rewrite Hz0, Hs. cbn [length].
    rewrite clamp_long_int by (unfold INT_MIN, INT_MAX in *; lia).
    f_equal. lia.
  - apply strtol0_positive. lia.
Qed.


(** *** Integers survive the detour through [double] *)

Lemma double_to_int_round n : 0 <= n <= INT_MAX ->
  double_to_int (round_double false n 1) = Some n.
Proof.
  unfold INT_MAX. intro H. unfold round_double.
  destruct (Z.eqb_spec n 0) as [-> | Hz]; [reflexivity | ].
  change (Z.log2 1) with 0. rewrite Z.sub_0_r, Z.mul_1_l.
  pose proof (Z.log2_spec n ltac:(lia)) as [Hlo Hhi].
  pose proof (Z.log2_nonneg n) as Hl0.
  assert (Hl : Z.log2 n < 31) by (apply Z.log2_lt_pow2; lia).
  set (l := Z.log2 n) in *.
  replace (0 <=? l) with true by (symmetry; apply Z.leb_le; lia).
  replace (2 ^ l <=? n) with true by (symmetry; apply Z.leb_le; lia).
  replace (Z.max (l - 52) (-1074)) with (l - 52) by lia.
  replace (0 <=? l - 52) with false by (symmetry; apply Z.leb_gt; lia).
  unfold round_half_even. rewrite Z.div_1_r, Z.mod_1_r.
  change (2 * 0 <? 1) with true. cbv iota.
  replace (- (l - 52)) with (52 - l) by lia.
  assert (Hp : 0 < 2 ^ (52 - l)) by (apply Z.pow_pos_nonneg; lia).
  assert (Hm : n * 2 ^ (52 - l) < 2 ^ 53).
  { replace 53 with (Z.succ l + (52 - l)) by lia.
    rewrite Z.pow_add_r by lia. apply Z.mul_lt_mono_pos_r; assumption. }
  set (m := n * 2 ^ (52 - l)) in *.
  assert (Hm0 : 0 < m) by (unfold m; apply Z.mul_pos_pos; lia).
  replace (m =? 2 ^ 53) with false by (symmetry; apply Z.eqb_neq; lia).
  cbv iota beta.
  replace (m =? 0) with false by (symmetry; apply Z.eqb_neq; lia).
  replace (971 <? l - 52) with false by (symmetry; apply Z.ltb_ge; lia).
  unfold double_to_int.
  replace (0 <=? l - 52) with false by (symmetry; apply Z.leb_gt; lia).
  replace (- (l - 52)) with (52 - l) by lia.
  unfold m. rewrite Z.div_mul by lia.
  unfold INT_MIN, INT_MAX.
  replace (- 2 ^ 31 <=? n) with true by (symmetry; apply Z.leb_le; lia).
  replace (n <=? 2 ^ 31 - 1) with true by (symmetry; apply Z.leb_le; lia).
  reflexivity.
Qed.

(** *** [strtod] on the text of a length *)

Lemma scan_number_digits neg ds c r a :
  Forall dec_digit ds -> ds <> [] ->
  (match ds with c0 :: _ :: _ => True | c0 :: [] => Ascii.eqb (tolower c) "x" = false | [] => True end) ->
  scan_mantissa 10 (ds ++ c :: r) = Some a ->
  scan_number neg (ds ++ c :: r)
  = (let '(D, nf, n, r2) := a in
     let '(ex, ne) := scan_exponent "e" r2 in
     Some (round_decimal neg D (ex - Z.of_nat nf), (n + ne)%nat)).
Proof.
  intros F Hne Hx Hm. destruct ds as [ | c0 ds]; [congruence | ].
  inversion F as [ | ? ? Hc0 F']; subst. clear Hne.
  unfold scan_number, str. cbn [app list_ascii_of_string].
  rewrite (dec_digit_not_word c0 "i" _ Hc0 (or_introl eq_refl)).
  rewrite (dec_digit_not_word c0 "i" _ Hc0 (or_introl eq_refl)).
  rewrite (dec_digit_not_word c0 "n" _ Hc0 (or_intror eq_refl)).
  assert (Hhex : match ds ++ c :: r with
                 | cx :: _ => Ascii.eqb (tolower cx) "x" = false
                 | [] => True
                 end).
  { destruct ds as [ | c1 ds]; cbn [app]; [exact Hx | ].
    inversion F'; subst. now apply dec_digit_not_x. }
  cbn [app] in Hm.
  destruct (ds ++ c :: r) as [ | cx rr] eqn:E.
  - now destruct ds.
  - rewrite Hhex, andb_false_r. rewrite Hm. reflexivity.
Qed.

Lemma strtod_decimal n r : 0 <= n <= INT_MAX ->
  strtod (decimal n ++ NL :: r) = (round_double false n 1, length (decimal n)).
Proof.
  intro H. pose proof (decimal_digits n ltac:(lia)) as F.
  destruct (decimal_nonempty n ltac:(lia)) as (c0 & tl & E & Hc0).
  assert (Hm : scan_mantissa 10 (decimal n ++ NL :: r)
               = Some (n, O, (length (decimal n) + 0 + 0)%nat, NL :: r)).
  { unfold scan_mantissa. rewrite scan_decimal by lia.
    rewrite decimal_eval by lia. change (Ascii.eqb NL ".") with false. cbv iota.
    rewrite E. reflexivity. }
  unfold strtod. rewrite E in *. cbn [app skip_space].
  rewrite (dec_digit_not_space _ Hc0), (dec_digit_sign _ _ Hc0).
  change (c0 :: tl ++ NL :: r) with ((c0 :: tl) ++ NL :: r).
  rewrite (scan_number_digits false (c0 :: tl) NL r _ F ltac:(discriminate)
             ltac:(now destruct tl) Hm).
  cbv beta iota zeta. change (scan_exponent "e" (NL :: r)) with (0, O).
  cbv beta iota zeta. unfold round_decimal.
  change (0 <=? 0 - Z.of_nat 0) with true. cbv iota.
  change (10 ^ (0 - Z.of_nat 0)) with 1. rewrite Z.mul_1_r.
  f_equal. simpl. lia.
Qed.

(** *** [strtod] on the text of [%f] *)

Lemma round_half_even_nonneg n d : 0 <= n -> 0 < d -> 0 <= round_half_even n d.
Proof.
  intros Hn Hd. unfold round_half_even.
  assert (0 <= n / d) by (apply Z.div_pos; lia).
  destruct (2 * (n mod d) <? d); [lia | ].
  destruct (d <? 2 * (n mod d)); [lia | ].
  destruct (Z.even (n / d)); lia.
Qed.

Lemma micro_nonneg x : valid_double x -> 0 <= micro x.
Proof.
  destruct x as [ | | | s m e]; simpl; try lia. intro Hm.
  destruct (Z.leb_spec 0 e).
  - assert (0 < 2 ^ e) by (apply Z.pow_pos_nonneg; lia).
    assert (0 <= 2 ^ e) by lia. nia.
  - apply round_half_even_nonneg; [lia | ].
    destruct (Z.le_gt_cases 0 (- e)).
    + apply Z.pow_pos_nonneg; lia.
    + rewrite Z.pow_neg_r by lia. lia.
Qed.

Lemma pad6_digits b : Forall dec_digit (pad6 b).
Proof.
  unfold pad6. repeat constructor;
    (eexists; split; [ | reflexivity]; apply Z.mod_pos_bound; lia).
Qed.

Lemma pad6_eval a b : 0 <= b < 10 ^ 6 -> eval_digits a (pad6 b) = a * 10 ^ 6 + b.
Proof.
  intro H. change (10 ^ 6) with 1000000 in *.
  unfold eval_digits, pad6. cbn [fold_left].
  rewrite !digit_in_10 by (apply Z.mod_pos_bound; lia).
  Z.div_mod_to_equations. lia.
Qed.

Lemma strtod_body neg k r : 0 <= k ->
  scan_number neg (decimal (k / 10 ^ 6) ++ "."%char :: pad6 (k mod 10 ^ 6) ++ NL :: r)
  = Some (round_double neg k (10 ^ 6),
          (length (decimal (k / 10 ^ 6)) + 7)%nat).
Proof.
  intro Hk.
  assert (Ha : 0 <= k / 10 ^ 6) by (apply Z.div_pos; lia).
  assert (Hb : 0 <= k mod 10 ^ 6 < 10 ^ 6) by (apply Z.mod_pos_bound; lia).
  set (a := k / 10 ^ 6) in *. set (b := k mod 10 ^ 6) in *.
  pose proof (decimal_digits a Ha) as F.
  destruct (decimal_nonempty a Ha) as (c0 & tl & E & Hc0).
  assert (Hm : scan_mantissa 10 (decimal a ++ "."%char :: pad6 b ++ NL :: r)
               = Some (k, 6%nat, (length (decimal a) + 1 + 6)%nat, NL :: r)).
  { unfold scan_mantissa.
    rewrite (scan_digits_run _ F 0 ("."%char :: pad6 b ++ NL :: r) eq_refl).
    rewrite decimal_eval by lia. change (Ascii.eqb "." ".") with true. cbv iota.
    rewrite (scan_digits_run _ (pad6_digits b) a (NL :: r) eq_refl).
    rewrite pad6_eval by exact Hb.
    replace (a * 10 ^ 6 + b) with k
      by (unfold a, b; pose proof (Z.div_mod k (10 ^ 6)); lia).
    rewrite E. reflexivity. }
  rewrite (scan_number_digits neg _ "."%char _ _ F
             ltac:(rewrite E; discriminate)
             ltac:(rewrite E; now destruct tl) Hm).
  cbv beta iota zeta. change (scan_exponent "e" (NL :: r)) with (0, O).
  cbv beta iota zeta. unfold round_decimal.
  change (0 <=? 0 - Z.of_nat 6) with false. cbv iota.
  change (- (0 - Z.of_nat 6)) with 6.
  f_equal. f_equal. lia.
Qed.

Lemma strtod_fmt_f x r : valid_double x ->
  strtod (fmt_f x ++ NL :: r) = (reread x, length (fmt_f x)).
Proof.
  intro V. pose proof (micro_nonneg x V) as Hk.
  assert (Finite : forall s,
    strtod ((sign_text s ++ decimal (micro x / 10 ^ 6)
             ++ "."%char :: pad6 (micro x mod 10 ^ 6)) ++ NL :: r)
    = (round_double s (micro x) (10 ^ 6),
       length (sign_text s ++ decimal (micro x / 10 ^ 6)
               ++ "."%char :: pad6 (micro x mod 10 ^ 6)))).
  { intro s. pose proof (strtod_body s (micro x) r Hk) as B.
    assert (Ha : 0 <= micro x / 10 ^ 6) by (apply Z.div_pos; lia).
    destruct (decimal_nonempty _ Ha) as (c0 & tl & E & Hc0).
    rewrite <- !app_assoc. cbn [app].
    rewrite !length_app. cbn [length].
    unfold strtod. destruct s; cbn [sign_text app].
    - cbn [skip_space]. change (isspace "-") with false. cbv iota.
      change (scan_sign ("-"%char :: ?x)) with (true, 1%nat, x).
      cbv beta iota zeta. rewrite B. f_equal; cbn [length]; lia.
    - rewrite E in *. cbn [app skip_space].
      rewrite (dec_digit_not_space _ Hc0), (dec_digit_sign _ _ Hc0).
      cbn [app] in B. rewrite B. f_equal; cbn [length]; lia. }
  destruct x as [s | s | s | s m e].
  - apply (Finite s).
  - destruct s; reflexivity.
  - destruct s; reflexivity.
  - apply (Finite s).
Qed.

Lemma fmt_f_no_nul x : valid_double x ->
  forallb (fun c => negb (Ascii.eqb c NUL)) (fmt_f x) = true.
Proof.
  intro V. pose proof (micro_nonneg x V) as Hk.
  assert (Finite : forall s,
    forallb (fun c => negb (Ascii.eqb c NUL))
      (sign_text s ++ decimal (micro x / 10 ^ 6)
       ++ "."%char :: pad6 (micro x mod 10 ^ 6)) = true).
  { intro s. rewrite !forallb_app. cbn [forallb].
    assert (D : forall ds, Forall dec_digit ds ->
              forallb (fun c => negb (Ascii.eqb c NUL)) ds = true).
    { induction 1 as [ | c ds Hc _ IH]; cbn [forallb]; [reflexivity | ].
      now rewrite (dec_digit_not_nul c Hc), IH. }
    rewrite (D _ (decimal_digits _ (Z.div_pos _ (10 ^ 6) Hk eq_refl))).
    rewrite (D _ (pad6_digits _)). now destruct s. }
  destruct x as [s | s | s | s m e]; try apply Finite; now destruct s.
Qed.

Lemma fmt_f_nonempty x : fmt_f x <> [].
Proof.
  destruct x as [s | s | s | s m e]; cbn [fmt_f]; try (now destruct s);
    destruct (sign_text s); try discriminate;
    destruct (decimal _); discriminate.
Qed.

End CFacts.

(* ===================================================================== *)
(** ** Facts about [pickle] *)
(* ===================================================================== *)

Import CFacts.

Lemma with_stack_id l : with_stack l (stack l) = l.
Proof. now destruct l. Qed.

Lemma lua_pop_push v l : lua_pop (lua_push v l) 1 = l.
Proof. now destruct l. Qed.

Section PickleFacts.

Variable lua_number2str : double -> bytes.
Variable LookupBody_index : Body -> Z.

Local Abbreviation pickle := (pickle lua_number2str LookupBody_index).
Local Abbreviation pickle_while := (pickle_while lua_number2str).
Local Abbreviation encode := (encode LookupBody_index).
Local Abbreviation pickle_spec := (pickle_spec LookupBody_index).

(** [lua_tostring] on the top of the stack touches nothing but that top. *)
Lemma lua_tostring_top l top T : stack l = top :: T ->
  exists top', stack (fst (lua_tostring lua_number2str l (-1))) = top' :: T
            /\ objects (fst (lua_tostring lua_number2str l (-1))) = objects l
            /\ callbacks (fst (lua_tostring lua_number2str l (-1))) = callbacks l
            /\ next_lid (fst (lua_tostring lua_number2str l (-1))) = next_lid l.
Proof.
  intro E. unfold lua_tostring, index2adr. cbn. rewrite E. cbn.
  destruct top; cbn; try (unfold set_index; cbn; rewrite E; cbn); eauto 6.
Qed.


Lemma with_stack_ext a b s :
  callbacks a = callbacks b -> objects a = objects b -> next_lid a = next_lid b ->
  with_stack a s = with_stack b s.
Proof. unfold with_stack. now intros -> -> ->. Qed.

Lemma lua_type_string l idx : lua_type l idx = LUA_TSTRING ->
  exists s, index2adr l idx = Some (LString s).
Proof.
  unfold lua_type. destruct (index2adr l idx) as [[] | ]; try discriminate. eauto.
Qed.

Lemma lua_type_table l idx : lua_type l idx = LUA_TTABLE ->
  exists es, index2adr l idx = Some (LTable es).
Proof.
  unfold lua_type. destruct (index2adr l idx) as [[] | ]; try discriminate. eauto.
Qed.

Lemma while_post_ext a b T key r :
  with_stack a T = with_stack b T -> while_post a T key r -> while_post b T key r.
Proof.
  unfold while_post. intros E. destruct r as [[l' out'] | | | | | ]; auto.
  now rewrite E.
Qed.

Lemma pickle_while_post rec key :
  (forall l idx out key, pickle_post l key (rec l idx out key)) ->
  forall es l out top T, stack l = top :: T ->
  while_post l T key (pickle_while rec key es l out).
Proof.
  intros Hrec es. induction es as [ | [k v] es IH]; intros l out top T E.
  - cbn. unfold lua_next_done, lua_pop. now rewrite E.
  - cbn [pickle_while].
    assert (E1 : stack (lua_next_entry l k v) = v :: k :: T)
      by (unfold lua_next_entry, lua_pop; cbn; now rewrite E).
    set (l1 := lua_next_entry l k v) in *.
    assert (X1 : callbacks l1 = callbacks l /\ objects l1 = objects l
                 /\ next_lid l1 = next_lid l) by (now subst l1).
    clearbody l1. destruct key as [kk | ].
    + pose proof (Hrec l1 (-2) out (Some kk)) as H1.
      destruct (rec l1 (-2) out (Some kk)) as [[l2 out2] | | | | | ];
        cbn in H1 |- *; try assumption. subst l2.
      pose proof (Hrec l1 (-1) out2 (Some kk)) as H2.
      destruct (rec l1 (-1) out2 (Some kk)) as [[l3 out3] | | | | | ];
        cbn in H2 |- *; try assumption. subst l3.
      specialize (IH (lua_pop l1 1) out3 k T).
      assert (E2 : stack (lua_pop l1 1) = k :: T) by (cbn; now rewrite E1).
      specialize (IH E2). revert IH. apply while_post_ext.
      apply with_stack_ext; cbn; apply X1.
    + assert (E2 : stack (lua_pushvalue l1 (-2)) = k :: v :: k :: T).
      { unfold lua_pushvalue, index2adr. cbn. now rewrite E1. }
      destruct (lua_tostring_top (lua_pushvalue l1 (-2)) _ _ E2)
        as (top' & E3 & X3a & X3b & X3c).
      destruct (lua_tostring lua_number2str (lua_pushvalue l1 (-2)) (-1))
        as [l3 k'] eqn:Et. cbn [fst] in *.
      pose proof (Hrec l3 (-3) out k') as H1.
      destruct (rec l3 (-3) out k') as [[l4 out4] | | | | | ];
        cbn in H1 |- *; try easy. subst l4.
      pose proof (Hrec l3 (-2) out4 k') as H2.
      destruct (rec l3 (-2) out4 k') as [[l5 out5] | | | | | ];
        cbn in H2 |- *; try easy. subst l5.
      specialize (IH (lua_pop (lua_pop l3 1) 1) out5 k T).
      assert (E4 : stack (lua_pop (lua_pop l3 1) 1) = k :: T)
        by (cbn; now rewrite E3).
      specialize (IH E4). revert IH. apply while_post_ext.
      apply with_stack_ext; cbn; rewrite ?X3a, ?X3b, ?X3c; cbn; apply X1.
Qed.

Lemma pickle_inv fuel : forall l idx out key, pickle_post l key (pickle fuel l idx out key).
Proof.
  induction fuel as [ | fuel IH]; intros l idx out key; [exact I | ].
  cbn [pickle]. destruct (lua_type l idx) eqn:Et; cbn; try reflexivity; try tauto.
  - apply lua_type_string in Et. destruct Et as (s & Ei).
    unfold lua_pushvalue. rewrite Ei. cbn. apply lua_pop_push.
  - apply lua_type_table in Et. destruct Et as (es & Ei).
    unfold lua_pushvalue. rewrite Ei.
    change (table_entries (lua_pushnil (lua_push (LTable es) l)) (-2)) with (Some es).
    cbv iota.
    match goal with
    | |- pickle_post _ _ (bind ?m _) =>
        assert (H : while_post (lua_pushnil (lua_push (LTable es) l))
                      (LTable es :: stack l) key m)
          by (apply (pickle_while_post _ key IH es _ _ LNil); reflexivity);
        destruct m as [[l2 out2] | | | | | ]; cbn in H |- *; try assumption
    end.
    subst l2. now destruct l.
  - destruct (Lookup l (lua_touserdata l idx)) as [[] | ]; cbn; tauto.
Qed.


Lemma depth_in e es : In e es ->
  (depth (fst e) < depth (LTable es))%nat /\ (depth (snd e) < depth (LTable es))%nat.
Proof.
  cbn [depth]. induction es as [ | e' es IH]; [intros [] | ].
  intros [-> | Hin]; cbn [fold_right].
  - lia.
  - specialize (IH Hin). lia.
Qed.

Lemma pickle_while_total objs rec key es :
  Forall (fun e => pickle_spec objs rec (fst e) /\ pickle_spec objs rec (snd e)) es ->
  forall l out top T, objects l = objs -> stack l = top :: T ->
  if forallb (fun e => supported objs (fst e) && supported objs (snd e)) es
  then pickle_while rec key es l out
       = Ok (with_stack l T,
             out ++ flat_map (fun e => encode objs (fst e) ++ encode objs (snd e)) es)
  else exists d l', pickle_while rec key es l out = Fatal d l'.
Proof.
  induction 1 as [ | [k v] es [Hk Hv] _ IH]; intros l out top T Eo E.
  - cbn. unfold lua_next_done, lua_pop. now rewrite E, app_nil_r.
  - cbn [forallb flat_map fst snd] in Hk, Hv |- *.
    assert (key_step :
      exists l3, callbacks l3 = callbacks l /\ objects l3 = objs
                 /\ next_lid l3 = next_lid l /\ stack l3 = k :: T /\
      forall K : Outcome (lua_State * bytes),
        (if supported objs k && supported objs v
         then forall out', out' = (out ++ encode objs k) ++ encode objs v ->
              K = pickle_while rec key es l3 out'
         else True) ->
        if supported objs k && supported objs v
        then pickle_while rec key ((k, v) :: es) l out = K
        else exists d l', pickle_while rec key ((k, v) :: es) l out = Fatal d l').
    { cbn [pickle_while].
      assert (E1 : stack (lua_next_entry l k v) = v :: k :: T)
        by (unfold lua_next_entry, lua_pop; cbn; now rewrite E).
      assert (X1 : callbacks (lua_next_entry l k v) = callbacks l
                   /\ objects (lua_next_entry l k v) = objects l
                   /\ next_lid (lua_next_entry l k v) = next_lid l) by easy.
      generalize dependent (lua_next_entry l k v).
      intros l1 E1 (X1a & X1b & X1c). destruct key as [kk | ].
      - exists (lua_pop l1 1). repeat split; cbn; try congruence.
        + now rewrite E1.
        + intros K HK.
          assert (I2 : index2adr l1 (-2) = Some k)
            by (unfold index2adr; cbn; now rewrite E1).
          assert (I1 : index2adr l1 (-1) = Some v)
            by (unfold index2adr; cbn; now rewrite E1).
          pose proof (Hk l1 (-2) out (Some kk) ltac:(congruence) I2) as H2.
          destruct (supported objs k); cbn [andb].
          * rewrite H2. cbn [bind].
            pose proof (Hv l1 (-1) (out ++ encode objs k) (Some kk)
                          ltac:(congruence) I1) as H1.
            destruct (supported objs v).
            -- rewrite H1. cbn [bind]. symmetry. now apply HK.
            -- destruct H1 as (d & l' & ->). cbn. eauto.
          * destruct H2 as (d & l' & ->). cbn. eauto.
      - assert (E2 : stack (lua_pushvalue l1 (-2)) = k :: v :: k :: T).
        { unfold lua_pushvalue, index2adr. cbn. now rewrite E1. }
        destruct (lua_tostring_top (lua_pushvalue l1 (-2)) _ _ E2)
          as (top' & E3 & X3a & X3b & X3c).
        destruct (lua_tostring lua_number2str (lua_pushvalue l1 (-2)) (-1))
          as [l3 k'] eqn:Et. cbn [fst] in *. cbn in X3a, X3b, X3c.
        exists (lua_pop (lua_pop l3 1) 1). repeat split; cbn; try congruence.
        + now rewrite E3.
        + intros K HK.
          assert (I3 : index2adr l3 (-3) = Some k)
            by (unfold index2adr; cbn; now rewrite E3).
          assert (I2 : index2adr l3 (-2) = Some v)
            by (unfold index2adr; cbn; now rewrite E3).
          pose proof (Hk l3 (-3) out k' ltac:(congruence) I3) as H3.
          destruct (supported objs k); cbn [andb].
          * rewrite H3. cbn [bind].
            pose proof (Hv l3 (-2) (out ++ encode objs k) k'
                          ltac:(congruence) I2) as H2.
            destruct (supported objs v).
            -- rewrite H2. cbn [bind]. symmetry. now apply HK.
            -- destruct H2 as (d & l' & ->). cbn. eauto.
          * destruct H3 as (d & l' & ->). cbn. eauto. }
    destruct key_step as (l3 & Y1 & Y2 & Y3 & Y4 & Hstep).
    specialize (IH l3 ((out ++ encode objs k) ++ encode objs v) k T Y2 Y4).
    destruct (supported objs k && supported objs v) eqn:Ekv; cbn [andb].
    + destruct (forallb _ es).
      * rewrite (Hstep _ (fun out' Eout => eq_trans (eq_sym IH)
                            (f_equal _ (eq_sym Eout)))).
        f_equal. f_equal.
        -- apply with_stack_ext; assumption || congruence.
        -- now rewrite <- !app_assoc.
      * destruct IH as (d & l' & IH).
        rewrite (Hstep (Fatal d l') (fun out' Eout => eq_trans (eq_sym IH)
                   (f_equal _ (eq_sym Eout)))). eauto.
    + apply (Hstep OutOfFuel I).
Qed.

(** With fuel beyond the depth of the value, [pickle] appends the bytes of
    a supported value and leaves the state alone, and ends in a fatal
    error on every other value. *)
Lemma pickle_total v : forall fuel, (depth v < fuel)%nat ->
  forall objs, pickle_spec objs (pickle fuel) v.
Proof.
  induction v as [ | b | p | x | s | es IH | f | id | t ] using LuaValue_nested_ind;
    intros fuel Hd objs l idx out key Eo Ei;
    (destruct fuel as [ | fuel]; [lia | ]);
    cbn [pickle supported encode]; unfold lua_type; rewrite Ei; cbn [type_of].
  - now rewrite app_nil_r.
  - unfold lua_toboolean. now rewrite Ei.
  - eauto.
  - unfold lua_tonumber. now rewrite Ei.
  - unfold lua_pushvalue. rewrite Ei. cbn. rewrite lua_pop_push.
    now rewrite <- app_assoc.
  - unfold lua_pushvalue. rewrite Ei.
    change (table_entries (lua_pushnil (lua_push (LTable es) l)) (-2)) with (Some es).
    cbv iota.
    assert (F : Forall (fun e => pickle_spec objs (pickle fuel) (fst e)
                                 /\ pickle_spec objs (pickle fuel) (snd e)) es).
    { rewrite Forall_forall in IH |- *. intros e He.
      destruct (depth_in e es He) as [D1 D2]. destruct (IH e He) as [I1 I2].
      split; [apply I1 | apply I2]; lia. }
    pose proof (pickle_while_total objs (pickle fuel) key es F
                  (lua_pushnil (lua_push (LTable es) l)) (append out "t")
                  LNil (LTable es :: stack l) Eo eq_refl) as H.
    destruct (forallb _ es).
    + rewrite H. cbn [bind]. unfold append. f_equal. f_equal.
      * now destruct l.
      * now rewrite <- !app_assoc.
    + destruct H as (d & l' & ->). cbn. eauto.
  - eauto.
  - unfold Lookup, lua_touserdata. rewrite Ei, Eo.
    destruct (Lookup_in objs id) as [[] | ]; cbn; unfold append;
      rewrite <- ?app_assoc; eauto.
  - eauto.
Qed.


Lemma lua_tostring_string l s T : stack l = LString s :: T ->
  lua_tostring lua_number2str l (-1) = (l, Some s).
Proof. intro E. unfold lua_tostring, index2adr. cbn. now rewrite E. Qed.

(** From [Serialize], [pickle] gets the table of all modules and no key:
    a fatal error then carries the name of a module whose value is not
    supported. *)
Lemma pickle_while_names fuel objs es :
  (forall e, In e es -> exists s, fst e = LString s) ->
  (forall e, In e es -> (depth (snd e) < fuel)%nat) ->
  forall l out top T d l', objects l = objs -> stack l = top :: T ->
  pickle_while (pickle fuel) None es l out = Fatal d l' ->
  exists name v, In (LString name, v) es /\ supported objs v = false
                 /\ diagnostic_key d = Some name.
Proof.
  induction es as [ | [k v] es IH]; intros Hkeys Hdepth l out top T d l' Eo E;
    [discriminate | ].
  destruct (Hkeys (k, v) (or_introl eq_refl)) as (name & Ek). cbn [fst] in Ek. subst k.
  cbn [pickle_while].
  assert (E1 : stack (lua_next_entry l (LString name) v) = v :: LString name :: T)
    by (unfold lua_next_entry, lua_pop; cbn; now rewrite E).
  assert (O1 : objects (lua_next_entry l (LString name) v) = objs) by exact Eo.
  generalize dependent (lua_next_entry l (LString name) v). intros l1 E1 O1.
  assert (E2 : stack (lua_pushvalue l1 (-2))
               = LString name :: v :: LString name :: T).
  { unfold lua_pushvalue, index2adr. cbn. now rewrite E1. }
  assert (O2 : objects (lua_pushvalue l1 (-2)) = objs) by exact O1.
  rewrite (lua_tostring_string _ _ _ E2).
  generalize dependent (lua_pushvalue l1 (-2)). intros l2 E2 O2.
  assert (I3 : index2adr l2 (-3) = Some (LString name))
    by (unfold index2adr; rewrite E2; reflexivity).
  assert (I2 : index2adr l2 (-2) = Some v)
    by (unfold index2adr; rewrite E2; reflexivity).
  pose proof (pickle_total (LString name) (S fuel) ltac:(cbn; lia) objs
                l2 (-3) out (Some name) O2 I3) as H3.
  cbn [supported] in H3.
  assert (H3' : pickle fuel l2 (-3) out (Some name)
                = Ok (l2, out ++ encode objs (LString name))).
  { destruct fuel as [ | fuel'].
    - specialize (Hdepth (LString name, v) (or_introl eq_refl)). cbn in Hdepth. lia.
    - pose proof (pickle_total (LString name) (S fuel') ltac:(cbn; lia) objs
                    l2 (-3) out (Some name) O2 I3) as H. exact H. }
  rewrite H3'. cbn [bind].
  pose proof (pickle_total v fuel
                (Hdepth (LString name, v) (or_introl eq_refl)) objs
                l2 (-2) (out ++ encode objs (LString name)) (Some name) O2 I2) as H2.
  pose proof (pickle_inv fuel l2 (-2) (out ++ encode objs (LString name))
                (Some name)) as P2.
  destruct (supported objs v) eqn:Sv.
  - rewrite H2. cbn [bind]. intro Hf.
    destruct (IH (fun e He => Hkeys e (or_intror He))
                 (fun e He => Hdepth e (or_intror He))
                 (lua_pop (lua_pop l2 1) 1) _ (LString name) T d l' O2
                 ltac:(cbn; now rewrite E2) Hf)
      as (name' & v' & Hin & Hs & Hd).
    exists name', v'. split; [now right | auto].
  - destruct H2 as (d0 & l0 & H2). rewrite H2 in P2 |- *. cbn [bind].
    intro Hf. injection Hf as <- <-.
    exists name, v. split; [now left | ]. split; [exact Sv | ].
    apply (P2 name eq_refl).
Qed.

Lemma pickle_names_module fuel l idx out es d l' :
  index2adr l idx = Some (LTable es) ->
  (forall e, In e es -> exists s, fst e = LString s) ->
  (depth (LTable es) < fuel)%nat ->
  pickle fuel l idx out None = Fatal d l' ->
  exists name v, In (LString name, v) es /\ supported (objects l) v = false
                 /\ diagnostic_key d = Some name.
Proof.
  intros Ei Hkeys Hd. destruct fuel as [ | fuel]; [lia | ].
  cbn [pickle]. unfold lua_type. rewrite Ei. cbn [type_of].
  unfold lua_pushvalue. rewrite Ei.
  change (table_entries (lua_pushnil (lua_push (LTable es) l)) (-2)) with (Some es).
  cbv iota.
  destruct (pickle_while (pickle fuel) None es
              (lua_pushnil (lua_push (LTable es) l)) (append out "t"))
    as [[l2 out2] | l2 | d2 l2 | l2 | | ] eqn:Ew; cbn [bind]; try discriminate.
  intro H. injection H as <- <-.
  apply (pickle_while_names fuel (objects l) es Hkeys
           (fun e He => ltac:(destruct (depth_in e es He); lia))
           (lua_pushnil (lua_push (LTable es) l)) _ LNil (LTable es :: stack l)
           _ _ eq_refl eq_refl Ew).
Qed.

End PickleFacts.

(* ===================================================================== *)
(** ** Facts about [unpickle] *)
(* ===================================================================== *)

Lemma at_pos_start buf : at_pos buf 0 buf.
Proof. split; [lia | reflexivity]. Qed.

Lemma at_pos_app buf pos a s :
  at_pos buf pos (a ++ s) -> at_pos buf (pos + length a) s.
Proof.
  intros [Hle E]. pose proof (f_equal (@length _) E) as L.
  rewrite length_skipn, length_app in L. split; [lia | ].
  rewrite Nat.add_comm, <- skipn_skipn, E.
  now rewrite skipn_app, skipn_all, Nat.sub_diag.
Qed.

Lemma at_pos_cons buf pos c s : at_pos buf pos (c :: s) -> at_pos buf (S pos) s.
Proof.
  intro H. replace (S pos) with (pos + length [c])%nat by (cbn; lia).
  now apply at_pos_app.
Qed.

Lemma peek_at buf pos c s : at_pos buf pos (c :: s) -> peek buf pos = Some c.
Proof.
  intros [Hle E]. unfold peek.
  rewrite <- (firstn_skipn pos buf) at 1. rewrite E, <- app_assoc.
  rewrite nth_error_app2; rewrite length_firstn, Nat.min_l by lia; [ | lia].
  now rewrite Nat.sub_diag.
Qed.

Lemma cstring_at_at buf pos s : at_pos buf pos s -> cstring_at buf pos = Some (cstr s).
Proof.
  intros [Hle E]. unfold cstring_at.
  destruct (Nat.leb_spec pos (length buf)); [now rewrite E | lia].
Qed.

Lemma read_bytes_at buf pos data s :
  at_pos buf pos (data ++ s) ->
  read_bytes buf pos (Z.of_nat (length data)) = Some data.
Proof.
  intros [Hle E]. pose proof (f_equal (@length _) E) as L.
  rewrite length_skipn, length_app in L. unfold read_bytes.
  destruct (Z.leb_spec 0 (Z.of_nat (length data))); [ | lia].
  destruct (Z.leb_spec (Z.of_nat pos + Z.of_nat (length data))
              (Z.of_nat (length buf) + 1)); [ | lia].
  cbn [andb]. rewrite Nat2Z.id, skipn_app, E.
  rewrite <- app_assoc, firstn_app, Nat.sub_diag, firstn_all. cbn [firstn].
  now rewrite app_nil_r.
Qed.

Lemma cstr_app a b : forallb (fun c => negb (Ascii.eqb c NUL)) a = true ->
  cstr (a ++ b) = a ++ cstr b.
Proof.
  induction a as [ | c a IH]; cbn [forallb app cstr]; [reflexivity | ].
  intro H. apply andb_prop in H. destruct H as [Hc Ha].
  apply negb_true_iff in Hc. rewrite Hc. now rewrite IH.
Qed.

Lemma cstr_no_nul a : forallb (fun c => negb (Ascii.eqb c NUL)) a = true -> cstr a = a.
Proof. intro H. rewrite <- (app_nil_r a) at 1. rewrite cstr_app by exact H. apply app_nil_r. Qed.

Lemma digits_no_nul ds : Forall dec_digit ds ->
  forallb (fun c => negb (Ascii.eqb c NUL)) ds = true.
Proof.
  induction 1 as [ | c ds Hc _ IH]; cbn [forallb]; [reflexivity | ].
  now rewrite (dec_digit_not_nul c Hc), IH.
Qed.

Lemma dec_aux_length f : forall n acc,
  (length (dec_aux f n acc) <= S f + length acc)%nat.
Proof.
  induction f as [ | f IH]; intros n acc; cbn [dec_aux length]; [lia | ].
  destruct (n <? 10); cbn [length]; [lia | ].
  specialize (IH (n / 10) (digit_char (n mod 10) :: acc)). cbn [length] in IH. lia.
Qed.

Lemma decimal_length n : 0 <= n <= INT_MAX -> (length (decimal n) <= 31)%nat.
Proof.
  unfold INT_MAX. intro H. unfold decimal.
  pose proof (dec_aux_length (Z.to_nat (Z.log2 n)) n []) as L. cbn [length] in L.
  destruct (Z.eq_dec n 0) as [-> | Hz]; [cbn; lia | ].
  assert (Z.log2 n < 31) by (apply Z.log2_lt_pow2; lia).
  pose proof (Z.log2_nonneg n). lia.
Qed.

Lemma snprintf256_short s : (length s <= 255)%nat -> snprintf256 s = s.
Proof. intro H. unfold snprintf256. now apply firstn_all2. Qed.

Lemma double_ok_valid x : double_ok x = true ->
  valid_double x /\ (length (fmt_f x) <= 253)%nat.
Proof.
  unfold double_ok. intro H. apply andb_prop in H. destruct H as [H1 H2].
  split; [ | now apply Nat.leb_le].
  destruct x; cbn; trivial. now apply Z.ltb_lt.
Qed.

Lemma string_ok_facts s : string_ok s = true ->
  cstr s = s /\ to_int (strlen s) = Z.of_nat (length s)
  /\ 0 <= Z.of_nat (length s) <= INT_MAX.
Proof.
  unfold string_ok. intro H. apply andb_prop in H. destruct H as [H1 H2].
  apply Z.leb_le in H2. pose proof (cstr_no_nul s H1) as E.
  unfold strlen. rewrite E. repeat split; try lia.
  apply CFacts.to_int_int. unfold INT_MIN. lia.
Qed.

Lemma round_double_not_nan s a b : is_nan_key (LNumber (round_double s a b)) = false.
Proof.
  unfold round_double. destruct (a =? 0); [reflexivity | ].
  match goal with |- context [if ?c then (2 ^ 52, _) else _] => destruct c end;
    cbv beta iota zeta;
    repeat match goal with |- context [if ?c then _ else _] => destruct c end;
    reflexivity.
Qed.

Section UnpickleFacts.

Variable place : placement.
Variable LookupBody : Z -> option Body.
Variable LookupBody_index : Body -> Z.
Variable objs : list (lid * LuaObject).

Local Abbreviation unpickle := (unpickle place LookupBody).
Local Abbreviation unpickle_while := (unpickle_while place).
Local Abbreviation enc := (encode LookupBody_index objs).
Local Abbreviation decoded := (decoded place).
Local Abbreviation unpickle_spec := (unpickle_spec place LookupBody_index objs).
Local Abbreviation enc_entry := (enc_entry LookupBody_index objs).
Local Abbreviation assign := (assign place).

Lemma enc_number x : double_ok x = true ->
  enc (LNumber x) = "f"%char :: fmt_f x ++ [NL].
Proof.
  intro H. apply double_ok_valid in H. destruct H as [_ L]. cbn [encode].
  apply snprintf256_short. cbn [length]. rewrite length_app. cbn [length]. lia.
Qed.

Lemma enc_string s : string_ok s = true ->
  enc (LString s) = "s"%char :: decimal (Z.of_nat (length s)) ++ NL :: s.
Proof.
  intro H. destruct (string_ok_facts s H) as (E1 & E2 & E3). cbn [encode].
  rewrite E1, E2. unfold snprintf_d.
  destruct (Z.ltb_spec (Z.of_nat (length s)) 0); [lia | ].
  rewrite snprintf256_short.
  - cbn [app]. now rewrite <- app_assoc.
  - pose proof (decimal_length _ E3). cbn [length]. rewrite length_app. cbn [length]. lia.
Qed.

Lemma enc_head v : storable v = true ->
  exists c tl, enc v = c :: tl /\ Ascii.eqb c "n" = false.
Proof.
  destruct v; cbn [storable]; try discriminate; intro H.
  - destruct b; cbn; eauto.
  - rewrite (enc_number _ H). eauto.
  - rewrite (enc_string _ H). eauto.
  - cbn. eauto.
Qed.

Lemma unpickle_number x fuel l buf pos rest : double_ok x = true ->
  at_pos buf pos (enc (LNumber x) ++ rest) ->
  unpickle (S fuel) l buf pos
  = Ok (lua_push (LNumber (reread x)) l, (pos + length (enc (LNumber x)))%nat).
Proof.
  intros Hx H. rewrite (enc_number _ Hx) in *.
  destruct (double_ok_valid _ Hx) as [V L].
  cbn [app] in H. rewrite <- app_assoc in H. cbn [app] in H.
  cbn [unpickle]. rewrite (peek_at _ _ _ _ H). cbv beta iota zeta.
  change (Ascii.eqb "f" "f") with true. cbv iota.
  rewrite (cstring_at_at _ _ _ (at_pos_cons _ _ _ _ H)).
  rewrite (cstr_app _ _ (CFacts.fmt_f_no_nul x V)).
  change (cstr (NL :: rest)) with (NL :: cstr rest).
  rewrite CFacts.strtod_fmt_f by exact V. cbv beta iota zeta.
  pose proof (CFacts.fmt_f_nonempty x) as Hne.
  destruct (Nat.eqb_spec (S pos) (S pos + length (fmt_f x))) as [E | _].
  - destruct (fmt_f x); [congruence | cbn [length] in E; lia].
  - unfold lua_pushnumber. f_equal. f_equal. cbn [length]. rewrite length_app.
    cbn [length]. lia.
Qed.


Lemma unpickle_boolean b fuel l buf pos rest :
  at_pos buf pos (enc (LBoolean b) ++ rest) ->
  unpickle (S fuel) l buf pos
  = Ok (lua_push (LBoolean b) l, (pos + length (enc (LBoolean b)))%nat).
Proof.
  intro H. cbn [unpickle].
  destruct b; cbn in H; rewrite (peek_at _ _ _ _ H); cbv beta iota zeta;
    change (Ascii.eqb "b" "f") with false; change (Ascii.eqb "b" "b") with true;
    cbv iota; rewrite (peek_at _ _ _ _ (at_pos_cons _ _ _ _ H)); cbn;
    do 2 f_equal; lia.
Qed.

Lemma unpickle_string s fuel l buf pos rest : string_ok s = true ->
  at_pos buf pos (enc (LString s) ++ rest) ->
  unpickle (S fuel) l buf pos
  = Ok (lua_push (LString s) l, (pos + length (enc (LString s)))%nat).
Proof.
  intros Hs H. rewrite (enc_string _ Hs) in *.
  destruct (string_ok_facts s Hs) as (_ & _ & Hn).
  set (n := Z.of_nat (length s)) in *.
  cbn [app] in H. rewrite <- app_assoc in H. cbn [app] in H.
  pose proof (at_pos_cons _ _ _ _ H) as H1.
  pose proof (at_pos_app _ _ _ _ H1) as H2.
  pose proof (at_pos_cons _ _ _ _ H2) as H3.
  cbn [unpickle]. rewrite (peek_at _ _ _ _ H). cbv beta iota zeta.
  change (Ascii.eqb "s" "f") with false. change (Ascii.eqb "s" "b") with false.
  change (Ascii.eqb "s" "s") with true. cbv iota.
  rewrite (cstring_at_at _ _ _ H1).
  rewrite (cstr_app _ _ (digits_no_nul _ (CFacts.decimal_digits n ltac:(lia)))).
  change (cstr (NL :: ?r)) with (NL :: cstr r).
  rewrite CFacts.strtod_decimal by exact Hn. cbv beta iota zeta.
  rewrite CFacts.double_to_int_round by exact Hn.
  destruct (CFacts.decimal_nonempty n ltac:(lia)) as (c0 & tl & E & _).
  destruct (Nat.eqb_spec (S pos) (S pos + length (decimal n))) as [E' | _].
  - rewrite E in E'. cbn [length] in E'. lia.
  - unfold n at 2. rewrite (read_bytes_at _ _ _ _ H3).
    unfold lua_pushlstring. do 2 f_equal. unfold n at 2. rewrite Nat2Z.id.
    cbn [length]. rewrite length_app. cbn [length]. lia.
Qed.

Lemma lua_rawset_ok l v k es T :
  stack l = v :: k :: LTable es :: T ->
  match k with LNil => False | _ => True end -> is_nan_key k = false ->
  lua_rawset place l (-3) = Ok (with_stack l (LTable (tbl_set place es k v) :: T)).
Proof.
  intros E Hk Hn.
  assert (I3 : index2adr l (-3) = Some (LTable es))
    by (unfold index2adr; rewrite E; reflexivity).
  assert (S3 : forall x, set_index l (-3) x = with_stack l (v :: k :: x :: T))
    by (intro x; unfold set_index; rewrite E; reflexivity).
  unfold lua_rawset. rewrite I3, E, S3.
  destruct k; try contradiction; rewrite ?Hn; reflexivity.
Qed.

Lemma decoded_key_ok k : storable k = true -> is_nan_key k = false ->
  match decoded k with LNil => False | _ => True end /\ is_nan_key (decoded k) = false.
Proof.
  destruct k; cbn [storable]; try discriminate; intros _ Hn;
    cbn [decoded is_nan_key]; auto.
  destruct x; cbn [reread] in Hn |- *; try discriminate; split; trivial;
    apply round_double_not_nan.
Qed.

Lemma decoded_not_nil v : storable v = true ->
  match decoded v with LNil => False | _ => True end.
Proof. destruct v; cbn [storable]; try discriminate; intros _; exact I. Qed.

Lemma unpickle_while_encode rec buf es :
  Forall (fun e => unpickle_spec rec buf (fst e) /\ unpickle_spec rec buf (snd e)) es ->
  forallb entry_ok es = true ->
  forall n acc l pos rest T,
  (length (flat_map enc_entry es) < n)%nat ->
  at_pos buf pos (flat_map enc_entry es ++ "n"%char :: rest) ->
  stack l = LTable acc :: T ->
  unpickle_while rec buf n l pos
  = Ok (with_stack l (LTable (fold_left assign es acc) :: T),
        (pos + length (flat_map enc_entry es))%nat).
Proof.
  induction 1 as [ | [k v] es [Hk Hv] _ IH]; intros Hok n acc l pos rest T Hn H E;
    (destruct n as [ | n]; [lia | ]); cbn [unpickle_while].
  - cbn in H. rewrite (peek_at _ _ _ _ H). change (Ascii.eqb "n" "n") with true.
    cbn. rewrite <- E, with_stack_id. do 2 f_equal. lia.
  - cbn [forallb] in Hok. apply andb_prop in Hok. destruct Hok as [Hkv Hok].
    unfold entry_ok in Hkv. cbn [fst snd] in *.
    apply andb_prop in Hkv. destruct Hkv as [Hkv Sv].
    apply andb_prop in Hkv. destruct Hkv as [Sk Nk]. apply negb_true_iff in Nk.
    cbn [flat_map fold_left] in *. unfold enc_entry at 1 in H. cbn [fst snd] in H.
    unfold enc_entry at 1 in Hn. unfold enc_entry at 1. cbn [fst snd] in Hn |- *.
    rewrite <- !app_assoc in H.
    destruct (enc_head k Sk) as (c & tl & Ec & Hc).
    destruct (enc_head v Sv) as (c' & tl' & Ec' & _).
    assert (Hp : peek buf pos = Some c)
      by (rewrite Ec in H; exact (peek_at _ _ _ _ H)).
    rewrite Hp, Hc. rewrite (Hk l pos _ H). cbn [bind].
    pose proof (at_pos_app _ _ _ _ H) as H1.
    rewrite (Hv _ _ _ H1). cbn [bind].
    destruct (decoded_key_ok k Sk Nk) as [D1 D2].
    assert (E2 : stack (lua_push (decoded v) (lua_push (decoded k) l))
                 = decoded v :: decoded k :: LTable acc :: T)
      by (cbn [stack lua_push with_stack]; now rewrite E).
    rewrite (lua_rawset_ok _ _ _ _ _ E2 D1 D2). cbn [bind].
    pose proof (at_pos_app _ _ _ _ H1) as H2.
    rewrite !length_app in Hn.
    assert (L1 : (0 < length (enc k))%nat) by (rewrite Ec; cbn; lia).
    rewrite (IH Hok n (assign acc (k, v))
               (with_stack (lua_push (decoded v) (lua_push (decoded k) l))
                  (LTable (tbl_set place acc (decoded k) (decoded v)) :: T))
               _ rest T ltac:(lia) H2 eq_refl).
    do 2 f_equal.
    rewrite !length_app. lia.
Qed.

Lemma enc_entry_in e es : In e es ->
  (length (enc (fst e)) <= length (flat_map enc_entry es))%nat
  /\ (length (enc (snd e)) <= length (flat_map enc_entry es))%nat.
Proof.
  induction es as [ | e' es IH]; [intros [] | ].
  cbn [flat_map]. rewrite length_app. intros [-> | Hin].
  - unfold enc_entry at 1 3. rewrite length_app. lia.
  - specialize (IH Hin). lia.
Qed.

(** [unpickle] reads back the bytes of every storable value: with fuel
    beyond their number it returns one more stack slot, holding the value
    decoded, and the position after the bytes. *)
Lemma unpickle_encode v : storable v = true ->
  forall fuel buf, (length (enc v) < fuel)%nat ->
  unpickle_spec (fun l pos => unpickle fuel l buf pos) buf v.
Proof.
  induction v as [ | b | p | x | s | es IH | f | id | t ] using LuaValue_nested_ind;
    cbn [storable]; try discriminate; intros Hs fuel buf Hf l pos rest H;
    (destruct fuel as [ | fuel]; [lia | ]).
  - exact (unpickle_boolean b fuel l buf pos rest H).
  - exact (unpickle_number x fuel l buf pos rest Hs H).
  - exact (unpickle_string s fuel l buf pos rest Hs H).
  - cbn [encode] in H, Hf |- *. change (str "t") with ["t"%char] in *.
    change (str "n") with ["n"%char] in *.
    cbn [app] in H. rewrite <- app_assoc in H. cbn [app] in H.
    change (flat_map (fun e => enc (fst e) ++ enc (snd e)) es)
      with (flat_map enc_entry es) in *.
    assert (Hf' : (length (flat_map enc_entry es) + 2 <= fuel)%nat).
    { cbn [app length] in Hf. rewrite length_app in Hf. cbn [length] in Hf. lia. }
    cbn [unpickle]. rewrite (peek_at _ _ _ _ H). cbv beta iota zeta.
    change (Ascii.eqb "t" "f") with false. change (Ascii.eqb "t" "b") with false.
    change (Ascii.eqb "t" "s") with false. change (Ascii.eqb "t" "t") with true.
    cbv iota.
    assert (F : Forall (fun e =>
                  unpickle_spec (fun l pos => unpickle fuel l buf pos) buf (fst e)
                  /\ unpickle_spec (fun l pos => unpickle fuel l buf pos) buf (snd e)) es).
    { rewrite Forall_forall in IH |- *. intros e He.
      destruct (IH e He) as [I1 I2]. destruct (enc_entry_in e es He) as [L1 L2].
      rewrite forallb_forall in Hs. specialize (Hs e He).
      apply andb_prop in Hs. destruct Hs as [Hs Sv].
      apply andb_prop in Hs. destruct Hs as [Sk _].
      split; [apply (I1 Sk) | apply (I2 Sv)]; lia. }
    rewrite (unpickle_while_encode _ buf es F Hs fuel [] (lua_newtable l) (S pos)
               rest (stack l) ltac:(lia) (at_pos_cons _ _ _ _ H) eq_refl).
    cbn [bind]. do 2 f_equal. rewrite !length_app. cbn [length]. lia.
Qed.


(** *** What every call of [unpickle] guarantees *)

Lemma strtol_field_ok l buf pos v e :
  strtol_field l buf pos = Ok (v, e) -> (pos < e)%nat.
Proof.
  unfold strtol_field. destruct (cstring_at buf pos); [ | discriminate].
  destruct (strtol0 b) as [x n].
  destruct (Nat.eqb_spec pos (pos + n)); [discriminate | ].
  intro H. injection H as _ <-. lia.
Qed.

Lemma lua_rawset_shape l :
  forall v k t T l', stack l = v :: k :: t :: T ->
  lua_rawset place l (-3) = Ok l' ->
  (exists t', stack l' = t' :: T) /\ callbacks l' = callbacks l.
Proof.
  intros v k t T l' E. unfold lua_rawset.
  assert (I3 : index2adr l (-3) = Some t)
    by (unfold index2adr; rewrite E; reflexivity).
  assert (S3 : forall x, set_index l (-3) x = with_stack l (v :: k :: x :: T))
    by (intro x; unfold set_index; rewrite E; reflexivity).
  rewrite I3, E. destruct t; try discriminate.
  destruct k; try discriminate; destruct (is_nan_key _); try discriminate;
    rewrite S3; intro H; injection H as <-; cbn; eauto.
Qed.

Lemma unpickle_while_inv rec buf :
  (forall l pos, unpickle_post l pos (rec l pos)) ->
  forall n l pos t T, stack l = t :: T ->
  unpickle_while_post l T pos (unpickle_while rec buf n l pos).
Proof.
  intros Hrec n. induction n as [ | n IH]; intros l pos t T E; [exact I | ].
  cbn [unpickle_while]. destruct (peek buf pos) as [c | ]; [ | exact I].
  destruct (Ascii.eqb c "n").
  - cbn. rewrite E. split; [eauto | split; [reflexivity | lia]].
  - pose proof (Hrec l pos) as H1.
    destruct (rec l pos) as [[l1 p1] | | | | | ]; try exact I.
    cbn [bind]. destruct H1 as ((k & E1) & C1 & P1).
    pose proof (Hrec l1 p1) as H2.
    destruct (rec l1 p1) as [[l2 p2] | | | | | ]; try exact I.
    cbn [bind]. destruct H2 as ((v & E2) & C2 & P2).
    rewrite E1, E in E2.
    destruct (lua_rawset place l2 (-3)) as [l3 | | | | | ] eqn:Er; try exact I.
    cbn [bind]. destruct (lua_rawset_shape _ _ _ _ _ _ E2 Er) as ((t' & E3) & C3).
    specialize (IH l3 p2 t' T E3).
    destruct (unpickle_while rec buf n l3 p2) as [[l4 p4] | | | | | ]; try exact I.
    cbn in IH |- *. destruct IH as (I1 & I2 & I3).
    split; [exact I1 | split; [congruence | lia]].
Qed.

Lemma unpickle_inv fuel : forall l buf pos,
  unpickle_post l pos (unpickle fuel l buf pos).
Proof.
  induction fuel as [ | fuel IH]; intros l buf pos; [exact I | ].
  cbn [unpickle]. destruct (peek buf pos) as [type | ]; [ | exact I].
  cbv beta iota zeta.
  destruct (Ascii.eqb type "f").
  { destruct (cstring_at buf (S pos)) as [s | ]; [ | exact I].
    destruct (strtod s) as [f n].
    destruct (Nat.eqb_spec (S pos) (S pos + n)); [exact I | ].
    cbn; split; [eauto | split; [reflexivity | lia]]. }
  destruct (Ascii.eqb type "b").
  { destruct (peek buf (S pos)) as [c | ]; [ | exact I].
    destruct (negb (Ascii.eqb c "0") && negb (Ascii.eqb c "1")); [exact I | ].
    cbn; split; [eauto | split; [reflexivity | lia]]. }
  destruct (Ascii.eqb type "s").
  { destruct (cstring_at buf (S pos)) as [s | ]; [ | exact I].
    destruct (strtod s) as [x n].
    destruct (Nat.eqb_spec (S pos) (S pos + n)); [exact I | ].
    destruct (double_to_int x) as [len | ]; [ | exact I].
    destruct (read_bytes buf (S (S pos + n)) len); [ | exact I].
    cbn; split; [eauto | split; [reflexivity | lia]]. }
  destruct (Ascii.eqb type "t").
  { pose proof (unpickle_while_inv (fun l pos => unpickle fuel l buf pos) buf
                  (fun l pos => IH l buf pos) fuel (lua_newtable l) (S pos)
                  (LTable []) (stack l) eq_refl) as H.
    destruct (unpickle_while _ buf fuel (lua_newtable l) (S pos))
      as [[l1 p1] | | | | | ]; try exact I.
    cbn in H |- *. destruct H as (H1 & H2 & H3). split; [exact H1 | split; [exact H2 | lia]]. }
  destruct (Ascii.eqb type "u"); [ | exact I].
  destruct (cstring_at buf (S pos)) as [s | ]; [ | exact I].
  destruct (strchr s NL) as [len | ]; [ | exact I].
  destruct ((len =? 9)%nat && strncmp_eq s (str "SBodyPath")).
  { destruct (strtol_field l buf (S (S pos + len))) as [[x1 e1] | | | | | ] eqn:F1;
      try exact I. cbn [bind]. apply strtol_field_ok in F1.
    destruct (strtol_field l buf (S e1)) as [[x2 e2] | | | | | ] eqn:F2;
      try exact I. cbn [bind]. apply strtol_field_ok in F2.
    destruct (strtol_field l buf (S e2)) as [[x3 e3] | | | | | ] eqn:F3;
      try exact I. cbn [bind]. apply strtol_field_ok in F3.
    destruct (strtol_field l buf (S e3)) as [[x4 e4] | | | | | ] eqn:F4;
      try exact I. cbn [bind]. apply strtol_field_ok in F4.
    cbn; split; [eauto | split; [reflexivity | lia]]. }
  destruct ((len =? 4)%nat && strncmp_eq s (str "Body")); [ | exact I].
  destruct (strtol_field l buf (S (S pos + len))) as [[x1 e1] | | | | | ] eqn:F1;
    try exact I. cbn [bind]. apply strtol_field_ok in F1.
  destruct (Nat.eqb_spec (S e1) e1); [exact I | ].
  destruct (LookupBody x1) as [body | ]; [ | exact I].
  destruct (GetType body); try exact I; cbn; (split; [eauto | split; [reflexivity | lia]]).
Qed.

(** *** Termination: fuel beyond the length of the buffer is enough *)

Lemma peek_some buf pos c : peek buf pos = Some c -> (pos <= length buf)%nat.
Proof.
  unfold peek. intro H.
  assert (L : (pos < length (buf ++ [NUL]))%nat)
    by (apply nth_error_Some; congruence).
  rewrite length_app in L. cbn [length] in L. lia.
Qed.

Lemma strtol_field_fuel l buf pos : strtol_field l buf pos <> OutOfFuel.
Proof.
  unfold strtol_field. destruct (cstring_at buf pos); [ | discriminate].
  destruct (strtol0 b). destruct (Nat.eqb _ _); discriminate.
Qed.

Lemma lua_rawset_fuel l : lua_rawset place l (-3) <> OutOfFuel.
Proof.
  unfold lua_rawset. destruct (stack l) as [ | v [ | k T]]; try discriminate.
  destruct (index2adr l (-3)) as [[] | ]; try discriminate.
  destruct k; try discriminate; destruct (is_nan_key _); discriminate.
Qed.

Lemma unpickle_while_fuel rec buf pos0 :
  (forall l pos, unpickle_post l pos (rec l pos)) ->
  (forall l pos, (pos0 <= pos)%nat -> rec l pos <> OutOfFuel) ->
  forall n l pos, (pos0 <= pos)%nat -> (1 <= n)%nat ->
  (length buf + 1 < n + pos)%nat ->
  unpickle_while rec buf n l pos <> OutOfFuel.
Proof.
  intros Hpost Hrec n. induction n as [ | n IH]; intros l pos H0 H1 Hn; [lia | ].
  cbn [unpickle_while]. destruct (peek buf pos) as [c | ] eqn:Ep; [ | discriminate].
  apply peek_some in Ep.
  destruct (Ascii.eqb c "n"); [discriminate | ].
  pose proof (Hpost l pos) as P1. pose proof (Hrec l pos H0) as R1.
  destruct (rec l pos) as [[l1 p1] | | | | | ]; try discriminate; [ | congruence].
  cbn [bind]. destruct P1 as (_ & _ & P1).
  pose proof (Hpost l1 p1) as P2. pose proof (Hrec l1 p1 ltac:(lia)) as R2.
  destruct (rec l1 p1) as [[l2 p2] | | | | | ]; try discriminate; [ | congruence].
  cbn [bind]. destruct P2 as (_ & _ & P2).
  pose proof (lua_rawset_fuel l2) as R3.
  destruct (lua_rawset place l2 (-3)) as [l3 | | | | | ]; try discriminate;
    [ | congruence].
  cbn [bind]. apply IH; lia.
Qed.

Lemma unpickle_fuel fuel : forall l buf pos, (1 <= fuel)%nat ->
  (length buf + 1 < fuel + pos)%nat ->
  unpickle fuel l buf pos <> OutOfFuel.
Proof.
  induction fuel as [ | fuel IH]; intros l buf pos H1 Hn; [lia | ].
  cbn [unpickle]. destruct (peek buf pos) as [type | ] eqn:Ep; [ | discriminate].
  apply peek_some in Ep. cbv beta iota zeta.
  destruct (Ascii.eqb type "f").
  { destruct (cstring_at buf (S pos)) as [s | ]; [ | discriminate].
    destruct (strtod s) as [f n]. destruct (Nat.eqb _ _); discriminate. }
  destruct (Ascii.eqb type "b").
  { destruct (peek buf (S pos)) as [c | ]; [ | discriminate].
    destruct (negb _ && negb _); discriminate. }
  destruct (Ascii.eqb type "s").
  { destruct (cstring_at buf (S pos)) as [s | ]; [ | discriminate].
    destruct (strtod s) as [x n]. destruct (Nat.eqb _ _); [discriminate | ].
    destruct (double_to_int x) as [len | ]; [ | discriminate].
    destruct (read_bytes _ _ len); discriminate. }
  destruct (Ascii.eqb type "t").
  { pose proof (unpickle_while_fuel (fun l pos => unpickle fuel l buf pos) buf (S pos)
                  (fun l pos => unpickle_inv fuel l buf pos)
                  (fun l p Hp => IH l buf p ltac:(lia) ltac:(lia))
                  fuel (lua_newtable l) (S pos) ltac:(lia) ltac:(lia) ltac:(lia)) as H.
    destruct (unpickle_while _ buf fuel (lua_newtable l) (S pos))
      as [[l1 p1] | | | | | ]; try discriminate. congruence. }
  destruct (Ascii.eqb type "u"); [ | discriminate].
  destruct (cstring_at buf (S pos)) as [s | ]; [ | discriminate].
  destruct (strchr s NL) as [len | ]; [ | discriminate].
  destruct ((len =? 9)%nat && strncmp_eq s (str "SBodyPath")).
  { pose proof (strtol_field_fuel l buf (S (S pos + len))) as F1.
    destruct (strtol_field l buf (S (S pos + len))) as [[x1 e1] | | | | | ];
      try discriminate; [ | congruence]. cbn [bind].
    pose proof (strtol_field_fuel l buf (S e1)) as F2.
    destruct (strtol_field l buf (S e1)) as [[x2 e2] | | | | | ];
      try discriminate; [ | congruence]. cbn [bind].
    pose proof (strtol_field_fuel l buf (S e2)) as F3.
    destruct (strtol_field l buf (S e2)) as [[x3 e3] | | | | | ];
      try discriminate; [ | congruence]. cbn [bind].
    pose proof (strtol_field_fuel l buf (S e3)) as F4.
    destruct (strtol_field l buf (S e3)) as [[x4 e4] | | | | | ];
      try discriminate; congruence. }
  destruct ((len =? 4)%nat && strncmp_eq s (str "Body")); [ | discriminate].
  pose proof (strtol_field_fuel l buf (S (S pos + len))) as F1.
  destruct (strtol_field l buf (S (S pos + len))) as [[x1 e1] | | | | | ];
    try discriminate; [ | congruence]. cbn [bind].
  destruct (Nat.eqb _ _); [discriminate | ].
  destruct (LookupBody x1) as [body | ]; [ | discriminate].
  destruct (GetType body); discriminate.
Qed.

End UnpickleFacts.

(* ===================================================================== *)
(** ** The stack at an error exit *)
(* ===================================================================== *)




Section PickleErrors.

Variable lua_number2str : double -> bytes.
Variable LookupBody_index : Body -> Z.

Local Abbreviation pickle := (pickle lua_number2str LookupBody_index).
Local Abbreviation pickle_while := (pickle_while lua_number2str).




End PickleErrors.

Section UnpickleErrors.

Variable place : placement.
Variable LookupBody : Z -> option Body.

Local Abbreviation unpickle := (unpickle place LookupBody).
Local Abbreviation unpickle_while := (unpickle_while place).





End UnpickleErrors.


(* ===================================================================== *)
(** ** The claims *)
(* ===================================================================== *)

(** C1 (the code departs from the claim): a string with an embedded NUL
    byte does not survive: [pickle] measures and copies it with [strlen]
    semantics, so ["a\0b"] is written as [s1\na] and read back as ["a"]. *)
Theorem C1_string_with_NUL_is_cut :
  forall lua_number2str LookupBody_index place LookupBody (l : lua_State),
  pickle lua_number2str LookupBody_index 1 (lua_push (LString a_NUL_b) l) (-1) [] None
  = Ok (lua_push (LString a_NUL_b) l, str "s1" ++ NL :: str "a")
  /\ unpickle place LookupBody 1 l (str "s1" ++ NL :: str "a") 0
     = Ok (lua_push (LString (str "a")) l, 4%nat)
  /\ LString (str "a") <> LString a_NUL_b.
Proof.
  intros. split; [ | split].
  - destruct l. reflexivity.
  - reflexivity.
  - discriminate.
Qed.

(** The registry of the example is the one [l_register] builds. *)
Lemma l_register_ModuleA :
  l_register place_last no_number2str register_A_call
  = Ok {| stack := stack register_A_call;
          callbacks := callbacks state_A;
          objects := [];
          next_lid := 1 |}.
Proof. reflexivity. Qed.

(** C2 (the code departs from the claim): a saved game holds data of
    ModuleA and ModuleB, only ModuleA is registered.  [Unserialize] hands
    ModuleA its data and pops the decoded table; the [Serialize] that
    follows starts from an empty table, and its stream has no entry for
    ModuleB. *)
Theorem C2_orphan_is_dropped :
  Unserialize place_last no_number2str ship_table call_log scripts 100 [] state_A saved_AB
  = Ok ([(1%nat, [data_A])], state_A)
  /\ Serialize place_last no_number2str ship_index call_log scripts 100
       [(1%nat, [data_A])] state_A
     = Ok ([(1%nat, [data_A]); (O, [])], state_A,
           str "ts7" ++ NL :: str "ModuleAts1" ++ NL :: str "xb1nn").
Proof. split; vm_compute; reflexivity. Qed.

(** C4 (the code departs from the claim): a Body reference whose id
    resolves to no object.  The test after [LookupBody] compares [pos]
    with [end] again, not the object with null, so the null pointer is
    dereferenced: undefined behaviour, not the corruption exception. *)
Theorem C4_unresolved_body_is_dereferenced :
  forall place (LookupBody : Z -> option Body) fuel (l : lua_State),
  unpickle place (fun n => if n =? 8 then None else LookupBody n) (S fuel) l
    (str "uBody" ++ NL :: str "8" ++ [NL]) 0
  = Undefined.
Proof. intros. reflexivity. Qed.

(** C5 (the code departs from the claim): an unknown tag and an unknown
    userdata kind raise the corruption exception, but a string whose
    declared length exceeds the buffer is read past the end of the buffer
    without any check. *)
Theorem C5_short_string_is_read_past_the_end :
  forall place LookupBody fuel (l : lua_State),
  unpickle place LookupBody (S fuel) l (str "s5" ++ NL :: str "ab") 0 = Undefined
  /\ unpickle place LookupBody (S fuel) l (str "x") 0 = Corrupt l
  /\ unpickle place LookupBody (S fuel) l (str "u9" ++ NL :: str "NotAKind" ++ [NL]) 0
     = Corrupt l
  /\ unpickle place LookupBody (S fuel) l (str "uNotAKind" ++ [NL]) 0 = Corrupt l.
Proof. intros. repeat split; reflexivity. Qed.

Lemma bytes_eqb_eq a : forall b, bytes_eqb a b = true -> a = b.
Proof.
  induction a as [ | x a IH]; intros [ | y b]; cbn; try discriminate; [reflexivity | ].
  intro H. apply andb_prop in H. destruct H as [H1 H2].
  apply Ascii.eqb_eq in H1. subst y. f_equal. now apply IH.
Qed.

Lemma number_text_ends_with_newline x :
  bytes_eqb (snprintf256 ("f"%char :: fmt_f x ++ [NL])) (str "f1.5x") = false.
Proof.
  destruct (bytes_eqb _ _) eqn:E; [exfalso | reflexivity].
  apply bytes_eqb_eq in E. unfold snprintf256 in E.
  change 255%nat with (S 254) in E. rewrite firstn_cons in E.
  assert (E' : firstn 254 (fmt_f x ++ [NL]) = str "1.5" ++ ["x"%char])
    by (unfold str in E |- *; cbn [list_ascii_of_string app] in E |- *; congruence).
  clear E.
  assert (L : length (firstn 254 (fmt_f x ++ [NL])) = 4%nat)
    by (rewrite E'; reflexivity).
  rewrite length_firstn in L.
  rewrite firstn_all2 in E' by lia.
  apply app_inj_tail in E'. destruct E' as [_ E']. discriminate.
Qed.

(** C10: after a decimal field [unpickle] steps over one byte, whatever
    it is.  Streams with [x] where the encoder writes a newline decode
    without error, for each kind of field, and no value is encoded as the
    first of them. *)
Theorem C10_separator_is_not_checked :
  forall place fuel (l : lua_State),
  unpickle place ship_table (S fuel) l (str "f1.5x") 0
  = Ok (lua_push (LNumber one_and_a_half) l, 5%nat)
  /\ unpickle place ship_table (S fuel) l (str "s2xab") 0
     = Ok (lua_push (LString (str "ab")) l, 5%nat)
  /\ unpickle place ship_table (S fuel) l (str "uBody" ++ NL :: str "7x") 0
     = Ok (PushToLua (OBody SHIP the_ship) l, 8%nat)
  /\ unpickle place ship_table (S fuel) l
       (str "uSBodyPath" ++ NL :: str "3x-7x12x5x") 0
     = Ok (PushToLua (OSBodyPath 3 (-7) 12 5) l, 21%nat)
  /\ forall LookupBody_index objs v,
       bytes_eqb (encode LookupBody_index objs v) (str "f1.5x") = false.
Proof.
  intros. repeat split; try reflexivity.
  intros LookupBody_index objs v.
  destruct v as [ | b | p | x | s | es | f | id | t ]; cbn [encode]; try reflexivity.
  - apply number_text_ends_with_newline.
  - now destruct (Lookup_in objs id) as [[] | ].
Qed.

(** C7: [Unserialize] accepts a blob only when [unpickle] stops exactly at
    its end and has left a table on the stack; leftover bytes, or a
    top-level value that is no table, raise the corruption exception. *)
Theorem C7_top_level_contract :
  forall place lua_number2str LookupBody (World : Type) call_function
         fuel (w : World) l pickled l' e,
  unpickle place LookupBody fuel l pickled 0 = Ok (l', e) ->
  e <> length pickled \/ lua_istable l' (-1) = false ->
  Unserialize place lua_number2str LookupBody World call_function fuel w l pickled
  = Corrupt l'.
Proof.
  intros place n2s LB World call fuel w l pickled l' e Hu Hbad.
  unfold Unserialize. rewrite Hu. cbn [bind]. rewrite Nat.sub_0_r.
  destruct (Nat.eqb_spec e (length pickled)) as [He | He]; cbn [negb].
  - destruct Hbad as [Hbad | Hbad]; [contradiction | ]. now rewrite Hbad.
  - reflexivity.
Qed.

Lemma C7_top_level_contract_witness :
  (unpickle place_last ship_table 5 empty_state (str "tnx") 0
   = Ok (lua_push (LTable []) empty_state, 2%nat)
   /\ Unserialize place_last no_number2str ship_table call_log scripts 5 []
        empty_state (str "tnx")
      = Corrupt (lua_push (LTable []) empty_state))
  /\ (unpickle place_last ship_table 5 empty_state (str "b1") 0
      = Ok (lua_push (LBoolean true) empty_state, 2%nat)
      /\ Unserialize place_last no_number2str ship_table call_log scripts 5 []
           empty_state (str "b1")
         = Corrupt (lua_push (LBoolean true) empty_state)).
Proof.
  split; (split; [reflexivity | ]).
  - apply (C7_top_level_contract place_last no_number2str ship_table call_log scripts
             5 [] empty_state (str "tnx") _ 2%nat eq_refl).
    left. discriminate.
  - apply (C7_top_level_contract place_last no_number2str ship_table call_log scripts
             5 [] empty_state (str "b1") _ 2%nat eq_refl).
    right. reflexivity.
Defined.




(** C9: [pickle] throws nothing.  With fuel beyond the depth of the
    value it returns normally on every supported value and ends in the
    fatal [Error] on every other one: with the type name for a value of
    another type, with the id for a userdata whose object no longer
    exists, and for a userdata that is neither an SBodyPath nor a Body.
    The diagnostic carries the [key] of the call; called without a key on
    the table of all modules, as [Serialize] calls it, it carries the
    name of a module whose value is not supported. *)
Theorem C9_pickle_failures :
  forall lua_number2str LookupBody_index fuel l idx out key v,
  index2adr l idx = Some v -> (depth v < fuel)%nat ->
  let r := pickle lua_number2str LookupBody_index fuel l idx out key in
  (forall l', r <> Corrupt l' /\ r <> LuaError l' /\ r <> Undefined /\ r <> OutOfFuel)
  /\ (supported (objects l) v = true ->
      r = Ok (l, out ++ encode LookupBody_index (objects l) v))
  /\ (supported (objects l) v = false ->
      exists d l', r = Fatal d l'
                   /\ forall k, key = Some k -> diagnostic_key d = Some k)
  /\ match v with
     | LLightUserdata _ | LFunction _ | LThread _ =>
         r = Fatal (UnsupportedType key (lua_typename (type_of v))) l
     | LUserdata id =>
         match Lookup l id with
         | None => r = Fatal (NoLongerExists key id) l
         | Some (OOther _) => r = Fatal (UnsupportedUserdata key) l
         | Some _ => True
         end
     | _ => True
     end
  /\ (forall es d l',
        v = LTable es -> key = None ->
        (forall e, In e es -> exists s, fst e = LString s) ->
        r = Fatal d l' ->
        exists name v', In (LString name, v') es
                        /\ supported (objects l) v' = false
                        /\ diagnostic_key d = Some name).
Proof.
  intros n2s LBI fuel l idx out key v Hi Hd r.
  pose proof (pickle_inv n2s LBI fuel l idx out key) as P. fold r in P.
  pose proof (pickle_total n2s LBI v fuel Hd (objects l) l idx out key eq_refl Hi) as T.
  fold r in T.
  split; [ | split; [ | split; [ | split]]].
  - intro l'. destruct r as [[l2 out2] | | | | | ] eqn:Er; cbn in P; try contradiction;
      try (repeat split; discriminate).
    destruct (supported (objects l) v); [discriminate | ].
    destruct T as (d & l2 & T). discriminate.
  - intro S. now rewrite S in T.
  - intro S. rewrite S in T. destruct T as (d & l2 & T). exists d, l2.
    split; [exact T | ]. rewrite T in P. exact P.
  - subst r. destruct fuel as [ | fuel]; [lia | ].
    destruct v; try exact I; cbn [pickle]; unfold lua_type; rewrite Hi;
      cbn [type_of]; try reflexivity.
    unfold lua_touserdata. rewrite Hi.
    destruct (Lookup l id) as [[] | ]; cbn; trivial.
  - intros es d l' -> -> Hkeys Hf. subst r.
    exact (pickle_names_module n2s LBI fuel l idx out es d l' Hi Hkeys Hd Hf).
Qed.

Lemma C9_pickle_failures_witness :
  index2adr (lua_push bad_module empty_state) (-1) = Some bad_module
  /\ (depth bad_module < 5)%nat
  /\ exists d l',
       pickle no_number2str ship_index 5 (lua_push bad_module empty_state) (-1) [] None
       = Fatal d l'
       /\ diagnostic_key d = Some (str "ModuleA").
Proof.
  split; [reflexivity | ]. split; [cbn; lia | ].
  destruct (C9_pickle_failures no_number2str ship_index 5
              (lua_push bad_module empty_state) (-1) [] None bad_module
              eq_refl ltac:(cbn; lia))
    as (_ & _ & Hbad & _ & Hname).
  destruct (Hbad eq_refl) as (d & l' & E & _).
  exists d, l'. split; [exact E | ].
  destruct (Hname _ d l' eq_refl eq_refl) as (name & v' & Hin & _ & Hk).
  - intros e [<- | []]. now exists (str "ModuleA").
  - exact E.
  - destruct Hin as [Hin | []]. injection Hin as <- _. exact Hk.
Defined.

(** *** References *)

Lemma snprintf_d_no_nul n : forallb (fun c => negb (Ascii.eqb c NUL)) (snprintf_d n) = true.
Proof.
  unfold snprintf_d. destruct (Z.ltb_spec n 0); cbn [forallb].
  - now rewrite (digits_no_nul _ (CFacts.decimal_digits (- n) ltac:(lia))).
  - apply digits_no_nul, CFacts.decimal_digits. lia.
Qed.

Lemma snprintf_d_length n : INT_MIN <= n <= INT_MAX ->
  (0 < length (snprintf_d n) <= 33)%nat.
Proof.
  unfold INT_MIN, INT_MAX, snprintf_d. intro H.
  destruct (Z.ltb_spec n 0); cbn [length].
  - pose proof (dec_aux_length (Z.to_nat (Z.log2 (- n))) (- n) []) as L.
    cbn [length] in L. fold (decimal (- n)) in L.
    assert (Z.log2 (- n) < 32) by (apply Z.log2_lt_pow2; lia).
    pose proof (Z.log2_nonneg (- n)). lia.
  - pose proof (decimal_length n ltac:(unfold INT_MAX; lia)).
    destruct (CFacts.decimal_nonempty n ltac:(lia)) as (c & tl & E & _).
    rewrite E in *. cbn [length] in *. lia.
Qed.

Lemma strtol_field_at l buf pos n rest : INT_MIN <= n <= INT_MAX ->
  at_pos buf pos (snprintf_d n ++ NL :: rest) ->
  strtol_field l buf pos = Ok (n, (pos + length (snprintf_d n))%nat).
Proof.
  intros Hn H. unfold strtol_field. rewrite (cstring_at_at _ _ _ H).
  rewrite (cstr_app _ _ (snprintf_d_no_nul n)).
  change (cstr (NL :: rest)) with (NL :: cstr rest).
  rewrite CFacts.strtol0_snprintf_d by exact Hn.
  pose proof (snprintf_d_length n Hn).
  destruct (Nat.eqb_spec pos (pos + length (snprintf_d n))); [lia | ].
  now rewrite CFacts.to_int_int.
Qed.

Lemma Lookup_PushToLua o l : Lookup (PushToLua o l) (next_lid l) = Some o.
Proof. unfold Lookup, Lookup_in, PushToLua. cbn. now rewrite Z.eqb_refl. Qed.

Lemma pickle_body n2s LBI fuel l idx out key id wrapper b :
  index2adr l idx = Some (LUserdata id) -> Lookup l id = Some (OBody wrapper b) ->
  INT_MIN <= LBI b <= INT_MAX ->
  pickle n2s LBI (S fuel) l idx out key = Ok (l, out ++ body_bytes (LBI b)).
Proof.
  intros Hi Hl Hn. cbn [pickle]. unfold lua_type, lua_touserdata. rewrite Hi.
  cbn [type_of]. rewrite Hl. cbn [Isa_SBodyPath Isa_Body].
  pose proof (snprintf_d_length _ Hn).
  rewrite snprintf256_short
    by (cbn [str list_ascii_of_string app length]; rewrite length_app; cbn [length]; lia).
  unfold append, body_bytes. now rewrite <- app_assoc.
Qed.

Lemma pickle_location n2s LBI fuel l idx out key id x y s t :
  index2adr l idx = Some (LUserdata id) -> Lookup l id = Some (OSBodyPath x y s t) ->
  INT_MIN <= x <= INT_MAX -> INT_MIN <= y <= INT_MAX ->
  INT_MIN <= s <= INT_MAX -> INT_MIN <= t <= INT_MAX ->
  pickle n2s LBI (S fuel) l idx out key = Ok (l, out ++ location_bytes x y s t).
Proof.
  intros Hi Hl Hx Hy Hs Ht. cbn [pickle]. unfold lua_type, lua_touserdata. rewrite Hi.
  cbn [type_of]. rewrite Hl. cbn [Isa_SBodyPath Isa_Body].
  pose proof (snprintf_d_length _ Hx). pose proof (snprintf_d_length _ Hy).
  pose proof (snprintf_d_length _ Hs). pose proof (snprintf_d_length _ Ht).
  rewrite snprintf256_short
    by (cbn [str list_ascii_of_string app length];
        repeat (rewrite length_app; cbn [length]); lia).
  unfold append, location_bytes. now rewrite <- app_assoc.
Qed.

Lemma body_bytes_cstr n r :
  cstr (str "Body" ++ NL :: snprintf_d n ++ NL :: r)
  = str "Body" ++ NL :: snprintf_d n ++ NL :: cstr r.
Proof.
  cbn [str list_ascii_of_string app].
  change (cstr ("B"%char :: "o"%char :: "d"%char :: "y"%char :: NL :: ?x))
    with ("B"%char :: "o"%char :: "d"%char :: "y"%char :: NL :: cstr x).
  now rewrite (cstr_app _ _ (snprintf_d_no_nul n)).
Qed.

Lemma unpickle_body place LB fuel l n b :
  INT_MIN <= n <= INT_MAX -> LB n = Some b ->
  (forall tag, GetType b <> OTHER_OBJECT tag) ->
  unpickle place LB (S fuel) l (body_bytes n) 0
  = Ok (PushToLua (OBody (GetType b) b) l, length (body_bytes n)).
Proof.
  intros Hn Hb Ht.
  assert (H6 : at_pos (body_bytes n) 6 (snprintf_d n ++ [NL])).
  { split; [ | reflexivity]. unfold body_bytes.
    cbn [str list_ascii_of_string app length]. lia. }
  assert (H0 : at_pos (body_bytes n) 0
                 ("u"%char :: str "Body" ++ NL :: snprintf_d n ++ [NL]))
    by (split; [lia | reflexivity]).
  cbn [unpickle]. rewrite (peek_at _ _ _ _ H0).
  cbv beta iota zeta.
  change (Ascii.eqb "u" "f") with false. change (Ascii.eqb "u" "b") with false.
  change (Ascii.eqb "u" "s") with false. change (Ascii.eqb "u" "t") with false.
  change (Ascii.eqb "u" "u") with true. cbv iota.
  rewrite (cstring_at_at _ 1 _ (at_pos_cons _ _ _ _ H0)).
  change (cstr (str "Body" ++ NL :: snprintf_d n ++ [NL]))
    with (cstr (str "Body" ++ NL :: snprintf_d n ++ NL :: [])).
  rewrite body_bytes_cstr.
  change (strchr (str "Body" ++ NL :: ?x) NL) with (Some 4%nat).
  cbv beta iota zeta.
  change ((4 =? 9)%nat && strncmp_eq (str "Body" ++ NL :: ?x) (str "SBodyPath"))
    with false.
  change ((4 =? 4)%nat && strncmp_eq (str "Body" ++ NL :: ?x) (str "Body")) with true.
  cbv iota. change (S (1 + 4)) with 6%nat.
  rewrite (strtol_field_at l _ 6 n [] Hn H6). cbn [bind].
  rewrite Hb.
  destruct (Nat.eqb_spec (S (6 + length (snprintf_d n))) (6 + length (snprintf_d n)));
    [lia | ].
  assert (L : S (6 + length (snprintf_d n)) = length (body_bytes n)).
  { unfold body_bytes. cbn [str list_ascii_of_string app length].
    rewrite length_app. cbn [length]. lia. }
  rewrite L.
  destruct (GetType b) eqn:Eb; try reflexivity. now destruct (Ht tag).
Qed.

Lemma unpickle_location place LB fuel l x y s t :
  INT_MIN <= x <= INT_MAX -> INT_MIN <= y <= INT_MAX ->
  INT_MIN <= s <= INT_MAX -> INT_MIN <= t <= INT_MAX ->
  unpickle place LB (S fuel) l (location_bytes x y s t) 0
  = Ok (PushToLua (OSBodyPath x y s t) l, length (location_bytes x y s t)).
Proof.
  intros Hx Hy Hs Ht.
  set (rest := snprintf_d x ++ NL :: snprintf_d y ++ NL :: snprintf_d s ++ NL ::
               snprintf_d t ++ [NL]).
  assert (H0 : at_pos (location_bytes x y s t) 0
                 ("u"%char :: str "SBodyPath" ++ NL :: rest))
    by (split; [lia | reflexivity]).
  assert (H1 : at_pos (location_bytes x y s t) 11 rest).
  { split; [ | reflexivity]. unfold location_bytes.
    cbn [str list_ascii_of_string app length]. lia. }
  pose proof (at_pos_cons _ _ _ _ (at_pos_app _ _ _ _ H1)) as H2.
  pose proof (at_pos_cons _ _ _ _ (at_pos_app _ _ _ _ H2)) as H3.
  pose proof (at_pos_cons _ _ _ _ (at_pos_app _ _ _ _ H3)) as H4.
  cbn [unpickle]. rewrite (peek_at _ _ _ _ H0).
  cbv beta iota zeta.
  change (Ascii.eqb "u" "f") with false. change (Ascii.eqb "u" "b") with false.
  change (Ascii.eqb "u" "s") with false. change (Ascii.eqb "u" "t") with false.
  change (Ascii.eqb "u" "u") with true. cbv iota.
  rewrite (cstring_at_at _ 1 _ (at_pos_cons _ _ _ _ H0)).
  change (cstr (str "SBodyPath" ++ NL :: rest))
    with (str "SBodyPath" ++ NL :: cstr rest).
  change (strchr (str "SBodyPath" ++ NL :: ?r) NL) with (Some 9%nat).
  cbv beta iota zeta.
  change ((9 =? 9)%nat && strncmp_eq (str "SBodyPath" ++ NL :: ?r) (str "SBodyPath"))
    with true.
  cbv iota. change (S (1 + 9)) with 11%nat.
  rewrite (strtol_field_at l _ _ x _ Hx H1). cbn [bind].
  rewrite (strtol_field_at l _ _ y _ Hy H2). cbn [bind].
  rewrite (strtol_field_at l _ _ s _ Hs H3). cbn [bind].
  rewrite (strtol_field_at l _ _ t _ Ht H4). cbn [bind].
  do 2 f_equal. unfold location_bytes.
  cbn [str list_ascii_of_string app length].
  repeat (rewrite length_app; cbn [length]). lia.
Qed.

(** C3 (as the code has it): a Body reference to the object with stable
    id [n] is written as [uBody\nN\n], with no length before the kind,
    and these bytes decode to a new reference to the object that
    [LookupBody n] finds; a Location reference is written as
    [uSBodyPath\n] and its four integers, each followed by a newline, and
    decodes to a new location with the same four components. *)
Theorem C3_reference_round_trip :
  forall lua_number2str LookupBody_index place LookupBody fuel l idx out key id,
  index2adr l idx = Some (LUserdata id) ->
  match Lookup l id with
  | Some (OBody _ b) =>
      let n := LookupBody_index b in
      INT_MIN <= n <= INT_MAX ->
      pickle lua_number2str LookupBody_index (S fuel) l idx out key
      = Ok (l, out ++ str "uBody" ++ NL :: snprintf_d n ++ [NL])
      /\ forall l' b',
           LookupBody n = Some b' -> (forall tag, GetType b' <> OTHER_OBJECT tag) ->
           unpickle place LookupBody (S fuel) l'
             (str "uBody" ++ NL :: snprintf_d n ++ [NL]) 0
           = Ok (PushToLua (OBody (GetType b') b') l',
                 length (str "uBody" ++ NL :: snprintf_d n ++ [NL]))
           /\ Lookup (PushToLua (OBody (GetType b') b') l') (next_lid l')
              = Some (OBody (GetType b') b')
  | Some (OSBodyPath x y s t) =>
      INT_MIN <= x <= INT_MAX -> INT_MIN <= y <= INT_MAX ->
      INT_MIN <= s <= INT_MAX -> INT_MIN <= t <= INT_MAX ->
      pickle lua_number2str LookupBody_index (S fuel) l idx out key
      = Ok (l, out ++ location_bytes x y s t)
      /\ forall l',
           unpickle place LookupBody (S fuel) l' (location_bytes x y s t) 0
           = Ok (PushToLua (OSBodyPath x y s t) l', length (location_bytes x y s t))
           /\ Lookup (PushToLua (OSBodyPath x y s t) l') (next_lid l')
              = Some (OSBodyPath x y s t)
  | _ => True
  end.
Proof.
  intros n2s LBI place LB fuel l idx out key id Hi.
  destruct (Lookup l id) as [[x y s t | wrapper b | name] | ] eqn:El; try exact I.
  - intros Hx Hy Hs Ht. split.
    + exact (pickle_location n2s LBI fuel l idx out key id x y s t Hi El Hx Hy Hs Ht).
    + intro l'. split; [ | apply Lookup_PushToLua].
      exact (unpickle_location place LB fuel l' x y s t Hx Hy Hs Ht).
  - intros n Hn. split.
    + exact (pickle_body n2s LBI fuel l idx out key id wrapper b Hi El Hn).
    + intros l' b' Hb Ht. split; [ | apply Lookup_PushToLua].
      exact (unpickle_body place LB fuel l' n b' Hn Hb Ht).
Qed.

Lemma C3_reference_round_trip_witness :
  (pickle no_number2str ship_index 1 state_refs (-2) [] None
   = Ok (state_refs, str "uBody" ++ NL :: str "7" ++ [NL])
   /\ unpickle place_last ship_table 1 empty_state (str "uBody" ++ NL :: str "7" ++ [NL]) 0
      = Ok (PushToLua (OBody SHIP the_ship) empty_state, 8%nat))
  /\ (pickle no_number2str ship_index 1 state_refs (-1) [] None
      = Ok (state_refs, str "uSBodyPath" ++ NL :: str "3" ++ NL :: str "-7" ++ NL ::
                        str "12" ++ NL :: str "5" ++ [NL])
      /\ unpickle place_last ship_table 1 empty_state
           (str "uSBodyPath" ++ NL :: str "3" ++ NL :: str "-7" ++ NL ::
            str "12" ++ NL :: str "5" ++ [NL]) 0
         = Ok (PushToLua (OSBodyPath 3 (-7) 12 5) empty_state, 21%nat)).
Proof.
  split.
  - destruct (C3_reference_round_trip no_number2str ship_index place_last ship_table
                O state_refs (-2) [] None 1 eq_refl ltac:(vm_compute; split; discriminate))
      as [Hp Hu].
    split; [exact Hp | ].
    exact (proj1 (Hu empty_state the_ship eq_refl ltac:(discriminate))).
  - destruct (C3_reference_round_trip no_number2str ship_index place_last ship_table
                O state_refs (-1) [] None 2 eq_refl
                ltac:(vm_compute; split; discriminate)
                ltac:(vm_compute; split; discriminate)
                ltac:(vm_compute; split; discriminate)
                ltac:(vm_compute; split; discriminate))
      as [Hp Hu].
    split; [exact Hp | ].
    exact (proj1 (Hu empty_state)).
Defined.

(** C3, where the claim fails: the encoder writes no length between [u]
    and the kind.  The bytes the claim gives are not those written, and
    the decoder rejects them: it takes [4], respectively [9], for the
    kind. *)
Lemma C3_no_length_before_the_kind :
  pickle no_number2str ship_index 1 state_refs (-2) [] None
  = Ok (state_refs, str "uBody" ++ NL :: str "7" ++ [NL])
  /\ str "uBody" ++ NL :: str "7" ++ [NL] <> str "u4" ++ NL :: str "Body" ++ NL :: str "7" ++ [NL]
  /\ unpickle place_last ship_table 5 empty_state
       (str "u4" ++ NL :: str "Body" ++ NL :: str "7" ++ [NL]) 0
     = Corrupt empty_state
  /\ pickle no_number2str ship_index 1 state_refs (-1) [] None
     = Ok (state_refs, str "uSBodyPath" ++ NL :: str "3" ++ NL :: str "-7" ++ NL ::
                       str "12" ++ NL :: str "5" ++ [NL])
  /\ unpickle place_last ship_table 5 empty_state
       (str "u9" ++ NL :: str "SBodyPath" ++ NL :: str "3" ++ NL :: str "-7" ++ NL ::
        str "12" ++ NL :: str "5" ++ [NL]) 0
     = Corrupt empty_state.
Proof. repeat split; try reflexivity. discriminate. Qed.

(** *** Tables *)

Lemma storable_supported objs v : storable v = true -> supported objs v = true.
Proof.
  induction v as [ | b | p | x | s | es IH | f | id | t ] using LuaValue_nested_ind;
    cbn [storable supported]; try discriminate; try reflexivity.
  intro H. rewrite forallb_forall in H |- *. intros e He.
  rewrite Forall_forall in IH. destruct (IH e He) as [I1 I2].
  specialize (H e He). apply andb_prop in H. destruct H as [H Sv].
  apply andb_prop in H. destruct H as [Sk _].
  now rewrite (I1 Sk), (I2 Sv).
Qed.

Lemma depth_below_length LBI objs v : storable v = true ->
  (depth v < length (encode LBI objs v))%nat.
Proof.
  induction v as [ | b | p | x | s | es IH | f | id | t ] using LuaValue_nested_ind;
    cbn [storable]; try discriminate; intro H.
  - destruct b; cbn; lia.
  - rewrite (enc_number LBI objs x H). cbn. lia.
  - rewrite (enc_string LBI objs s H). cbn. lia.
  - cbn [depth encode]. change (str "t") with ["t"%char]. change (str "n") with ["n"%char].
    cbn [app length]. rewrite length_app. cbn [length].
    enough ((fold_right (fun e d => Nat.max (Nat.max (depth (fst e)) (depth (snd e))) d) 0 es
             <= length (flat_map (fun e => encode LBI objs (fst e) ++ encode LBI objs (snd e)) es))%nat)
      by lia.
    induction es as [ | e es IHes]; cbn [fold_right flat_map length]; [lia | ].
    inversion IH as [ | ? ? [I1 I2] IH']; subst. cbn [forallb] in H.
    apply andb_prop in H. destruct H as [He H].
    apply andb_prop in He. destruct He as [He Sv].
    apply andb_prop in He. destruct He as [Sk _].
    specialize (IHes IH' H). specialize (I1 Sk). specialize (I2 Sv).
    rewrite !length_app. lia.
Qed.

Lemma tbl_mem_existsb es k :
  tbl_mem es k = existsb (fun k' => rawequal k' k) (map fst es).
Proof.
  induction es as [ | [k' v'] es IH]; cbn [tbl_mem map existsb fst]; [reflexivity | ].
  now rewrite IH.
Qed.

Lemma assign_in_order es : forall acc,
  forallb entry_ok es = true ->
  keys_distinct (map fst acc) (map (fun e => decoded place_last (fst e)) es) = true ->
  fold_left (assign place_last) es acc
  = acc ++ map (fun e => (decoded place_last (fst e), decoded place_last (snd e))) es.
Proof.
  induction es as [ | [k v] es IH]; intros acc Hok Hd; cbn [fold_left map].
  - now rewrite app_nil_r.
  - cbn [forallb] in Hok. apply andb_prop in Hok. destruct Hok as [Hkv Hok].
    unfold entry_ok in Hkv. cbn [fst snd] in *.
    apply andb_prop in Hkv. destruct Hkv as [_ Sv].
    cbn [keys_distinct map fst] in Hd. apply andb_prop in Hd. destruct Hd as [Hnew Hd].
    apply negb_true_iff in Hnew.
    assert (E : assign place_last acc (k, v)
                = acc ++ [(decoded place_last k, decoded place_last v)]).
    { unfold assign, tbl_set. cbn [fst snd]. rewrite tbl_mem_existsb, Hnew.
      pose proof (decoded_not_nil place_last v Sv) as Hv.
      now destruct (decoded place_last v). }
    rewrite E, IH.
    + now rewrite <- app_assoc.
    + exact Hok.
    + now rewrite map_app.
Qed.

Lemma place_last_ok : placement_ok place_last.
Proof.
  intros es e. unfold place_last. symmetry. apply Permutation_cons_append.
Qed.

Lemma place_false_first_ok : placement_ok place_false_first.
Proof.
  intros es e. unfold place_false_first.
  destruct (fst e) as [ | [ | ] | | | | | | | ];
    try (symmetry; apply Permutation_cons_append); reflexivity.
Qed.

(** C6 (as the code has it): the stream lists the entries of a table in
    the order [lua_next] yields them, and [unpickle] assigns them in that
    order to a table just created: decoding the encoding of a table gives
    the table these assignments build.  Where [lua_next] lists the keys is
    the runtime's choice; in a runtime that lists a new key last, and for
    keys that stay distinct when read back, the decoded table lists the
    entries in the order of the original. *)
Theorem C6_entries_assigned_in_stream_order :
  forall place lua_number2str LookupBody_index LookupBody fuel l es,
  storable (LTable es) = true ->
  (length (encode LookupBody_index (objects l) (LTable es)) < fuel)%nat ->
  pickle lua_number2str LookupBody_index fuel (lua_push (LTable es) l) (-1) [] None
  = Ok (lua_push (LTable es) l, encode LookupBody_index (objects l) (LTable es))
  /\ unpickle place LookupBody fuel l
       (encode LookupBody_index (objects l) (LTable es)) 0
     = Ok (lua_push (LTable (fold_left (assign place) es [])) l,
           length (encode LookupBody_index (objects l) (LTable es)))
  /\ (keys_distinct [] (map (fun e => decoded place_last (fst e)) es) = true ->
      fold_left (assign place_last) es []
      = map (fun e => (decoded place_last (fst e), decoded place_last (snd e))) es).
Proof.
  intros place n2s LBI LB fuel l es Hs Hf. split; [ | split].
  - pose proof (depth_below_length LBI (objects l) _ Hs) as Hd.
    pose proof (pickle_total n2s LBI (LTable es) fuel ltac:(lia) (objects l)
                  (lua_push (LTable es) l) (-1) [] None eq_refl eq_refl) as T.
    now rewrite (storable_supported (objects l) _ Hs) in T.
  - apply (unpickle_encode place LB LBI (objects l) (LTable es) Hs fuel _ Hf l O []).
    rewrite app_nil_r. apply at_pos_start.
  - intro Hd. apply (assign_in_order es [] Hs Hd).
Qed.

Lemma C6_entries_assigned_in_stream_order_witness :
  storable (LTable table_abc) = true
  /\ (length (encode ship_index [] (LTable table_abc)) < 100)%nat
  /\ keys_distinct [] (map (fun e => decoded place_last (fst e)) table_abc) = true
  /\ unpickle place_last ship_table 100 empty_state
       (encode ship_index [] (LTable table_abc)) 0
     = Ok (lua_push (LTable (fold_left (assign place_last) table_abc [])) empty_state,
           length (encode ship_index [] (LTable table_abc)))
  /\ fold_left (assign place_last) table_abc []
     = map (fun e => (decoded place_last (fst e), decoded place_last (snd e))) table_abc.
Proof.
  assert (H1 : storable (LTable table_abc) = true) by reflexivity.
  assert (H2 : (length (encode ship_index (objects empty_state) (LTable table_abc)) < 100)%nat)
    by (apply Nat.ltb_lt; reflexivity).
  assert (H3 : keys_distinct [] (map (fun e => decoded place_last (fst e)) table_abc) = true)
    by reflexivity.
  destruct (C6_entries_assigned_in_stream_order place_last no_number2str ship_index
              ship_table 100 empty_state table_abc H1 H2) as (_ & Hu & Ho).
  split; [exact H1 | ]. split; [exact H2 | ]. split; [exact H3 | ].
  split; [exact Hu | exact (Ho H3)].
Defined.

(** C6, where the claim fails: the iteration order of a table is the
    runtime's, not the order of assignment.  In a runtime that lists the
    key [false] first (as Lua 5.1 does for a table with the keys [true]
    and [false]), a table to which [true] and then [false] was assigned
    is enumerated [false], [true], before and after a round trip; and a
    stream that lists [true] before [false] decodes to a table enumerated
    [false], [true]. *)
Lemma C6_iteration_order_is_the_runtime_s :
  placement_ok place_false_first
  /\ pickle no_number2str ship_index 5
       (lua_push (LTable (built place_false_first assigned_true_false)) empty_state)
       (-1) [] None
     = Ok (lua_push (LTable (built place_false_first assigned_true_false)) empty_state,
           str "tb0s6" ++ NL :: str "secondb1s5" ++ NL :: str "firstn")
  /\ unpickle place_false_first ship_table 50 empty_state
       (str "tb0s6" ++ NL :: str "secondb1s5" ++ NL :: str "firstn") 0
     = Ok (lua_push (LTable [(LBoolean false, LString (str "second"));
                             (LBoolean true, LString (str "first"))]) empty_state,
           23%nat)
  /\ map fst [(LBoolean false, LString (str "second"));
              (LBoolean true, LString (str "first"))]
     <> map fst assigned_true_false
  /\ unpickle place_false_first ship_table 50 empty_state
       (str "tb1s5" ++ NL :: str "firstb0s6" ++ NL :: str "secondn") 0
     = Ok (lua_push (LTable [(LBoolean false, LString (str "second"));
                             (LBoolean true, LString (str "first"))]) empty_state,
           23%nat).
Proof.
  split; [exact place_false_first_ok | ].
  split; [reflexivity | ]. split; [reflexivity | ].
  split; [discriminate | reflexivity].
Qed.

(* ===================================================================== *)
(** ** Further properties of the serializer *)
(* ===================================================================== *)

Lemma at_pos_middle before s : at_pos (before ++ s) (length before) s.
Proof.
  split; [rewrite length_app; lia | ].
  now rewrite skipn_app, skipn_all, Nat.sub_diag.
Qed.

(** X1: [unpickle] reads exactly one value.  Wherever the bytes of a
    storable value lie in the buffer and whatever follows them, it pushes
    the value decoded and returns the position just after those bytes. *)
Theorem X1_unpickle_reads_exactly_one_value :
  forall place LookupBody LookupBody_index objs fuel l before v after,
  storable v = true ->
  (length (encode LookupBody_index objs v) < fuel)%nat ->
  unpickle place LookupBody fuel l
    (before ++ encode LookupBody_index objs v ++ after) (length before)
  = Ok (lua_push (decoded place v) l,
        (length before + length (encode LookupBody_index objs v))%nat).
Proof.
  intros place LB LBI objs fuel l before v after Hs Hf.
  apply (unpickle_encode place LB LBI objs v Hs fuel _ Hf l (length before) after).
  apply at_pos_middle.
Qed.

Lemma X1_unpickle_reads_exactly_one_value_witness :
  storable (LString a_NL_b) = true
  /\ (length (encode ship_index [] (LString a_NL_b)) < 10)%nat
  /\ unpickle place_last ship_table 10 empty_state
       (str "b1" ++ encode ship_index [] (LString a_NL_b) ++ str "tn") 2
     = Ok (lua_push (LString a_NL_b) empty_state, 8%nat).
Proof.
  assert (H1 : storable (LString a_NL_b) = true) by reflexivity.
  assert (H2 : (length (encode ship_index [] (LString a_NL_b)) < 10)%nat)
    by (apply Nat.ltb_lt; reflexivity).
  split; [exact H1 | ]. split; [exact H2 | ].
  exact (X1_unpickle_reads_exactly_one_value place_last ship_table ship_index []
           10 empty_state (str "b1") (LString a_NL_b) (str "tn") H1 H2).
Defined.

(** X2: [unpickle] always moves forward and its recursion is bounded by
    the buffer: with a depth bound beyond the bytes left it never runs
    out of depth, and a normal return gives a position after the one it
    was called with and leaves the registry field alone. *)
Theorem X2_unpickle_advances_and_terminates :
  forall place LookupBody fuel l buf pos,
  (1 <= fuel)%nat -> (length buf + 1 < fuel + pos)%nat ->
  unpickle place LookupBody fuel l buf pos <> OutOfFuel
  /\ forall l' pos', unpickle place LookupBody fuel l buf pos = Ok (l', pos') ->
       (pos < pos')%nat /\ callbacks l' = callbacks l.
Proof.
  intros place LB fuel l buf pos H1 H2. split.
  - now apply unpickle_fuel.
  - intros l' pos' H. pose proof (unpickle_inv place LB fuel l buf pos) as P.
    rewrite H in P. destruct P as (_ & P2 & P3). now split.
Qed.

Lemma X2_unpickle_advances_and_terminates_witness :
  unpickle place_last ship_table 9 empty_state (str "tb1b0n") 0 <> OutOfFuel
  /\ (0 < 6)%nat.
Proof.
  destruct (X2_unpickle_advances_and_terminates place_last ship_table 9 empty_state
              (str "tb1b0n") 0 ltac:(lia) ltac:(cbn; lia)) as [H1 H2].
  split; [exact H1 | ].
  exact (proj1 (H2 (lua_push (LTable [(LBoolean true, LBoolean false)]) empty_state)
                   6%nat eq_refl)).
Defined.

(** *** Whole numbers *)

Lemma round_half_even_scale n d c : 0 < d -> 0 < c ->
  round_half_even (n * c) (d * c) = round_half_even n d.
Proof.
  intros Hd Hc. unfold round_half_even.
  rewrite Z.div_mul_cancel_r by lia.
  rewrite Z.mul_mod_distr_r by lia.
  replace (2 * (n mod d * c) <? d * c) with (2 * (n mod d) <? d)
    by (destruct (Z.ltb_spec (2 * (n mod d)) d), (Z.ltb_spec (2 * (n mod d * c)) (d * c));
        trivial; nia).
  replace (d * c <? 2 * (n mod d * c)) with (d <? 2 * (n mod d))
    by (destruct (Z.ltb_spec d (2 * (n mod d))), (Z.ltb_spec (d * c) (2 * (n mod d * c)));
        trivial; nia).
  reflexivity.
Qed.

Lemma round_half_even_exact q d : 0 < d -> round_half_even (q * d) d = q.
Proof.
  intro Hd. unfold round_half_even.
  rewrite Z.div_mul, Z.mod_mul by lia.
  replace (2 * 0 <? d) with true by (symmetry; apply Z.ltb_lt; lia).
  reflexivity.
Qed.

(** The quotient [a * c / c] is rounded as [a / 1] is. *)
Lemma round_double_scale s a c : 0 < a -> 0 < c ->
  round_double s (a * c) c = round_double s a 1.
Proof.
  intros Ha Hc. unfold round_double. cbv zeta.
  replace (a * c =? 0) with false by (symmetry; apply Z.eqb_neq; nia).
  replace (a =? 0) with false by (symmetry; apply Z.eqb_neq; lia).
  change (Z.log2 1) with 0. rewrite Z.sub_0_r, !Z.mul_1_l.
  pose proof (Z.log2_spec a Ha) as [Hlo Hhi].
  pose proof (Z.log2_nonneg a) as Hl0.
  pose proof (Z.log2_mul_below a c Ha Hc) as Hb.
  pose proof (Z.log2_mul_above a c ltac:(lia) ltac:(lia)) as Hab.
  set (la := Z.log2 a) in *.
  replace (0 <=? la) with true by (symmetry; apply Z.leb_le; lia).
  replace (2 ^ la <=? a) with true by (symmetry; apply Z.leb_le; lia).
  set (l := Z.log2 (a * c) - Z.log2 c).
  assert (Hl : l = la \/ l = la + 1) by (unfold l; lia).
  replace (0 <=? l) with true by (symmetry; apply Z.leb_le; lia).
  assert (Hfl : (if c * 2 ^ l <=? a * c then l else l - 1) = la).
  { destruct Hl as [-> | ->].
    - replace (c * 2 ^ la <=? a * c) with true by (symmetry; apply Z.leb_le; nia).
      reflexivity.
    - rewrite Z.pow_succ_r in Hhi by lia.
      replace (c * 2 ^ (la + 1) <=? a * c) with false
        by (symmetry; apply Z.leb_gt; rewrite Z.pow_add_r by lia; nia).
      lia. }
  rewrite Hfl.
  set (e := Z.max (la - 52) (-1074)).
  assert (Hm : (if 0 <=? e then round_half_even (a * c) (c * 2 ^ e)
                else round_half_even (a * c * 2 ^ (- e)) c)
             = (if 0 <=? e then round_half_even a (2 ^ e)
                else round_half_even (a * 2 ^ (- e)) 1)).
  { destruct (Z.leb_spec 0 e) as [He | He].
    - rewrite (Z.mul_comm c (2 ^ e)). apply round_half_even_scale; [ | lia].
      apply Z.pow_pos_nonneg; lia.
    - generalize (2 ^ (- e)). intro p.
      replace (a * c * p) with (a * p * c) by ring.
      rewrite round_half_even_exact by lia.
      rewrite <- (Z.mul_1_r (a * p)) at 2.
      now rewrite round_half_even_exact by lia. }
  rewrite Hm. reflexivity.
Qed.

(** A whole number below [2^53] is a double. *)
Lemma round_double_whole s a : 0 < a < 2 ^ 53 ->
  round_double s a 1
  = DFinite s (a * 2 ^ (52 - Z.log2 a)) (Z.log2 a - 52).
Proof.
  intros [Ha Hlt]. unfold round_double. cbv zeta.
  replace (a =? 0) with false by (symmetry; apply Z.eqb_neq; lia).
  change (Z.log2 1) with 0. rewrite Z.sub_0_r, !Z.mul_1_l.
  pose proof (Z.log2_spec a Ha) as [Hlo Hhi].
  pose proof (Z.log2_nonneg a) as Hl0.
  assert (Hl : Z.log2 a < 53) by (apply Z.log2_lt_pow2; lia).
  set (l := Z.log2 a) in *.
  replace (0 <=? l) with true by (symmetry; apply Z.leb_le; lia).
  replace (2 ^ l <=? a) with true by (symmetry; apply Z.leb_le; lia).
  replace (Z.max (l - 52) (-1074)) with (l - 52) by lia.
  assert (Hp : 0 < 2 ^ (52 - l)) by (apply Z.pow_pos_nonneg; lia).
  assert (Hm : (if 0 <=? l - 52 then round_half_even a (2 ^ (l - 52))
                else round_half_even (a * 2 ^ (- (l - 52))) 1) = a * 2 ^ (52 - l)).
  { replace (- (l - 52)) with (52 - l) by lia.
    destruct (Z.leb_spec 0 (l - 52)) as [He | He].
    - replace (l - 52) with 0 by lia. replace (52 - l) with 0 by lia.
      change (2 ^ 0) with 1. rewrite <- (Z.mul_1_r a) at 1.
      rewrite round_half_even_exact; lia.
    - rewrite <- (Z.mul_1_r (a * 2 ^ (52 - l))) at 1.
      now rewrite round_half_even_exact by lia. }
  rewrite Hm.
  assert (Hb : a * 2 ^ (52 - l) < 2 ^ 53).
  { replace 53 with (Z.succ l + (52 - l)) by lia.
    rewrite Z.pow_add_r by lia. apply Z.mul_lt_mono_pos_r; assumption. }
  set (m := a * 2 ^ (52 - l)) in *.
  assert (Hm0 : 0 < m) by (unfold m; apply Z.mul_pos_pos; lia).
  replace (m =? 2 ^ 53) with false by (symmetry; apply Z.eqb_neq; lia).
  cbv beta iota.
  replace (m =? 0) with false by (symmetry; apply Z.eqb_neq; lia).
  replace (971 <? l - 52) with false by (symmetry; apply Z.ltb_ge; lia).
  reflexivity.
Qed.

Lemma micro_whole s a : 0 <= a < 2 ^ 53 -> micro (round_double s a 1) = a * 10 ^ 6.
Proof.
  intros [Ha Hlt]. destruct (Z.eq_dec a 0) as [-> | Hz]; [reflexivity | ].
  rewrite round_double_whole by lia. cbn [micro].
  assert (Hl : Z.log2 a < 53) by (apply Z.log2_lt_pow2; lia).
  pose proof (Z.log2_nonneg a) as Hl0.
  destruct (Z.leb_spec 0 (Z.log2 a - 52)) as [He | He].
  - replace (Z.log2 a - 52) with 0 by lia. replace (52 - Z.log2 a) with 0 by lia.
    change (2 ^ 0) with 1. lia.
  - replace (- (Z.log2 a - 52)) with (52 - Z.log2 a) by lia.
    assert (Hp : 0 < 2 ^ (52 - Z.log2 a)) by (apply Z.pow_pos_nonneg; lia).
    revert Hp. generalize (2 ^ (52 - Z.log2 a)). intros p Hp.
    replace (a * p * 10 ^ 6) with (a * 10 ^ 6 * p) by ring.
    now apply round_half_even_exact.
Qed.

Lemma round_double_sign s a : 0 <= a < 2 ^ 53 ->
  match round_double s a 1 with
  | DZero s' | DFinite s' _ _ => s' = s
  | _ => False
  end.
Proof.
  intros [Ha Hlt]. destruct (Z.eq_dec a 0) as [-> | Hz]; [reflexivity | ].
  now rewrite round_double_whole by lia.
Qed.

Lemma fmt_f_whole s a : 0 <= a < 2 ^ 53 ->
  fmt_f (round_double s a 1) = sign_text s ++ decimal a ++ str ".000000".
Proof.
  intro H. pose proof (micro_whole s a H) as M. pose proof (round_double_sign s a H) as S.
  destruct (round_double s a 1) as [s' | s' | s' | s' m e]; try contradiction; subst s';
    unfold fmt_f; rewrite M, Z.div_mul, Z.mod_mul by lia; reflexivity.
Qed.

Lemma reread_whole s a : 0 <= a < 2 ^ 53 ->
  reread (round_double s a 1) = round_double s a 1.
Proof.
  intro H. pose proof (micro_whole s a H) as M. pose proof (round_double_sign s a H) as S.
  destruct (Z.eq_dec a 0) as [-> | Hz]; [reflexivity | ].
  destruct (round_double s a 1) as [s' | s' | s' | s' m e] eqn:E; try contradiction; subst s';
    unfold reread; rewrite M, <- E; apply round_double_scale; lia.
Qed.

Lemma double_ok_whole s a : 0 <= a < 2 ^ 53 -> double_ok (round_double s a 1) = true.
Proof.
  intro H. unfold double_ok. apply andb_true_intro. split.
  - destruct (Z.eq_dec a 0) as [-> | Hz]; [reflexivity | ].
    rewrite round_double_whole by lia. apply Z.ltb_lt.
    apply Z.mul_pos_pos; [lia | ]. apply Z.pow_pos_nonneg; [lia | ].
    assert (Z.log2 a < 53) by (apply Z.log2_lt_pow2; lia). lia.
  - apply Nat.leb_le. rewrite fmt_f_whole by exact H.
    rewrite !length_app. unfold decimal.
    pose proof (dec_aux_length (Z.to_nat (Z.log2 a)) a []) as L. cbn [length] in L.
    assert (Z.log2 a < 53).
    { destruct (Z.eq_dec a 0) as [-> | Hz]; [cbn; lia | ]. apply Z.log2_lt_pow2; lia. }
    pose proof (Z.log2_nonneg a).
    assert (length (sign_text s) <= 1)%nat by (destruct s; cbn; lia).
    change (length (str ".000000")) with 7%nat. lia.
Qed.

(** X3: whole numbers survive a save exactly.  A number that is a whole
    number of magnitude below [2^53] is written as its decimal digits
    followed by [.000000], and [unpickle] reads the same double back. *)
Theorem X3_whole_numbers_are_exact :
  forall place LookupBody LookupBody_index objs fuel l before after s a,
  0 <= a < 2 ^ 53 ->
  let x := round_double s a 1 in
  encode LookupBody_index objs (LNumber x)
  = str "f" ++ sign_text s ++ decimal a ++ str ".000000" ++ [NL]
  /\ unpickle place LookupBody (S fuel) l
       (before ++ encode LookupBody_index objs (LNumber x) ++ after) (length before)
     = Ok (lua_push (LNumber x) l,
           (length before + length (encode LookupBody_index objs (LNumber x)))%nat).
Proof.
  intros place LB LBI objs fuel l before after s a H x.
  pose proof (double_ok_whole s a H) as Hok. fold x in Hok. split.
  - rewrite (enc_number LBI objs x Hok). unfold x. rewrite fmt_f_whole by exact H.
    cbn [str list_ascii_of_string app]. f_equal. now rewrite <- !app_assoc.
  - rewrite (unpickle_number place LB LBI objs x fuel l _ (length before) after Hok
               (at_pos_middle _ _)).
    unfold x at 1. now rewrite reread_whole by exact H.
Qed.

Lemma X3_whole_numbers_are_exact_witness :
  encode ship_index [] (LNumber (double_of_int (-42))) = str "f-42.000000" ++ [NL]
  /\ unpickle place_last ship_table 1 empty_state
       (encode ship_index [] (LNumber (double_of_int (-42)))) 0
     = Ok (lua_push (LNumber (double_of_int (-42))) empty_state, 12%nat).
Proof.
  destruct (X3_whole_numbers_are_exact place_last ship_table ship_index [] 0
              empty_state [] [] true 42 ltac:(lia)) as [H1 H2].
  split; [exact H1 | ].
  cbn [app length Nat.add] in H2. rewrite app_nil_r in H2. exact H2.
Defined.

(** *** Numbers whose text does not fit the buffer *)

Lemma dec_digit_not_nl c : dec_digit c -> Ascii.eqb c NL = false.
Proof. intros (d & H & ->). CFacts.digit_cases d H; reflexivity. Qed.

Lemma fmt_f_no_nl x : valid_double x ->
  forallb (fun c => negb (Ascii.eqb c NL)) (fmt_f x) = true.
Proof.
  intro V. pose proof (CFacts.micro_nonneg x V) as Hk.
  assert (D : forall ds, Forall dec_digit ds ->
            forallb (fun c => negb (Ascii.eqb c NL)) ds = true).
  { induction 1 as [ | c ds Hc _ IH]; cbn [forallb]; [reflexivity | ].
    now rewrite (dec_digit_not_nl c Hc), IH. }
  assert (Finite : forall s,
    forallb (fun c => negb (Ascii.eqb c NL))
      (sign_text s ++ decimal (micro x / 10 ^ 6)
       ++ "."%char :: pad6 (micro x mod 10 ^ 6)) = true).
  { intro s. rewrite !forallb_app. cbn [forallb].
    rewrite (D _ (CFacts.decimal_digits _ (Z.div_pos _ (10 ^ 6) Hk eq_refl))).
    rewrite (D _ (CFacts.pad6_digits _)). now destruct s. }
  destruct x as [s | s | s | s m e]; try apply Finite; now destruct s.
Qed.

Lemma forallb_firstn {A : Type} (p : A -> bool) (n : nat) (xs : list A) :
  forallb p xs = true -> forallb p (firstn n xs) = true.
Proof.
  revert xs. induction n as [ | n IH]; intros [ | x xs]; cbn [firstn forallb]; trivial.
  intro H. apply andb_prop in H. destruct H as [H1 H2]. now rewrite H1, IH.
Qed.

(** X4: a number whose [%f] text has 254 bytes or more does not fit
    [buf]: [pickle] returns normally and appends [f] and the first 254
    bytes of the text, 255 bytes without the newline that ends a number. *)
Theorem X4_long_number_text_is_cut :
  forall lua_number2str LookupBody_index fuel l idx out key x,
  index2adr l idx = Some (LNumber x) ->
  valid_double x -> (254 <= length (fmt_f x))%nat ->
  let written := "f"%char :: firstn 254 (fmt_f x) in
  pickle lua_number2str LookupBody_index (S fuel) l idx out key = Ok (l, out ++ written)
  /\ length written = 255%nat
  /\ forallb (fun c => negb (Ascii.eqb c NL)) written = true.
Proof.
  intros n2s LBI fuel l idx out key x Ei V L written.
  split; [ | split].
  - pose proof (pickle_total n2s LBI (LNumber x) (S fuel) ltac:(cbn; lia)
                  (objects l) l idx out key eq_refl Ei) as H.
    cbn [supported encode] in H. rewrite H. unfold snprintf256.
    change 255%nat with (S 254). rewrite firstn_cons.
    rewrite firstn_app.
    replace (254 - length (fmt_f x))%nat with O by lia.
    cbn [firstn]. now rewrite app_nil_r.
  - unfold written. cbn [length]. rewrite length_firstn. lia.
  - unfold written. cbn [forallb]. apply forallb_firstn. now apply fmt_f_no_nl.
Qed.

Lemma X4_long_number_text_is_cut_witness :
  pickle no_number2str ship_index 1
    (lua_push (LNumber ten_to_300) empty_state) (-1) [] None
  = Ok (lua_push (LNumber ten_to_300) empty_state,
        "f"%char :: firstn 254 (fmt_f ten_to_300)).
Proof.
  assert (V : valid_double ten_to_300) by (vm_compute; reflexivity).
  assert (L : (254 <= length (fmt_f ten_to_300))%nat)
    by (apply Nat.leb_le; vm_compute; reflexivity).
  exact (proj1 (X4_long_number_text_is_cut no_number2str ship_index 0
                  (lua_push (LNumber ten_to_300) empty_state) (-1) [] None
                  ten_to_300 eq_refl V L)).
Defined.

(** *** A table cut before its end *)

Lemma peek_end buf : peek buf (length buf) = Some NUL.
Proof. unfold peek. now rewrite nth_error_app2, Nat.sub_diag by lia. Qed.

Lemma unpickle_at_end place LookupBody fuel l buf :
  unpickle place LookupBody (S fuel) l buf (length buf) = Corrupt l.
Proof. cbn [unpickle]. rewrite peek_end. reflexivity. Qed.

Lemma at_pos_nil buf pos : at_pos buf pos [] -> pos = length buf.
Proof.
  intros [H1 H2]. apply (f_equal (@length ascii)) in H2.
  rewrite length_skipn in H2. cbn [length] in H2. lia.
Qed.

Section OpenTable.

Variable place : placement.
Variable LookupBody_index : Body -> Z.
Variable objs : list (lid * LuaObject).

Local Abbreviation enc := (encode LookupBody_index objs).
Local Abbreviation unpickle_spec := (unpickle_spec place LookupBody_index objs).
Local Abbreviation enc_entry := (enc_entry LookupBody_index objs).
Local Abbreviation assign := (assign place).

Lemma unpickle_while_open rec buf es :
  Forall (fun e => unpickle_spec rec buf (fst e) /\ unpickle_spec rec buf (snd e)) es ->
  forallb entry_ok es = true ->
  (forall l, rec l (length buf) = Corrupt l) ->
  forall n acc l pos T,
  (length (flat_map enc_entry es) < n)%nat ->
  at_pos buf pos (flat_map enc_entry es) ->
  stack l = LTable acc :: T ->
  unpickle_while place rec buf n l pos
  = Corrupt (with_stack l (LTable (fold_left assign es acc) :: T)).
Proof.
  intros F Hok Hend. revert Hok.
  induction F as [ | [k v] es [Hk Hv] _ IH]; intros Hok n acc l pos T Hn H E;
    (destruct n as [ | n]; [lia | ]); cbn [unpickle_while].
  - cbn [flat_map] in H. apply at_pos_nil in H. subst pos.
    rewrite peek_end. change (Ascii.eqb NUL "n") with false. cbv iota.
    rewrite Hend. cbn [bind fold_left]. now rewrite <- E, with_stack_id.
  - cbn [forallb] in Hok. apply andb_prop in Hok. destruct Hok as [Hkv Hok].
    unfold entry_ok in Hkv. cbn [fst snd] in *.
    apply andb_prop in Hkv. destruct Hkv as [Hkv Sv].
    apply andb_prop in Hkv. destruct Hkv as [Sk Nk]. apply negb_true_iff in Nk.
    cbn [flat_map fold_left] in *. unfold enc_entry at 1 in H. cbn [fst snd] in H.
    unfold enc_entry at 1 in Hn. cbn [fst snd] in Hn.
    rewrite <- !app_assoc in H.
    destruct (enc_head LookupBody_index objs k Sk) as (c & tl & Ec & Hc).
    assert (Hp : peek buf pos = Some c)
      by (rewrite Ec in H; exact (peek_at _ _ _ _ H)).
    rewrite Hp, Hc. rewrite (Hk l pos _ H). cbn [bind].
    pose proof (at_pos_app _ _ _ _ H) as H1.
    rewrite (Hv _ _ _ H1). cbn [bind].
    destruct (decoded_key_ok place k Sk Nk) as [D1 D2].
    assert (E2 : stack (lua_push (decoded place v) (lua_push (decoded place k) l))
                 = decoded place v :: decoded place k :: LTable acc :: T)
      by (cbn [stack lua_push with_stack]; now rewrite E).
    rewrite (lua_rawset_ok place _ _ _ _ _ E2 D1 D2). cbn [bind].
    pose proof (at_pos_app _ _ _ _ H1) as H2.
    rewrite !length_app in Hn.
    assert (L1 : (0 < length (enc k))%nat) by (rewrite Ec; cbn; lia).
    exact (IH Hok n (assign acc (k, v))
             (with_stack (lua_push (decoded place v) (lua_push (decoded place k) l))
                (LTable (tbl_set place acc (decoded place k) (decoded place v)) :: T))
             _ T ltac:(lia) H2 eq_refl).
Qed.

End OpenTable.

(** X5: a table whose bytes stop after a whole entry, the closing [n]
    missing, is rejected: [unpickle] ends in the corruption exception when
    it meets the end of the buffer, and with it [Unserialize]; the table
    filled so far is left on the stack. *)
Theorem X5_table_without_end_is_corrupt :
  forall place lua_number2str LookupBody LookupBody_index
         (World : Type) (call_function : nat -> list LuaValue -> World -> World * list LuaValue)
         objs fuel w l es,
  storable (LTable es) = true ->
  (length (encode_open LookupBody_index objs es) < fuel)%nat ->
  let cut := encode_open LookupBody_index objs es in
  unpickle place LookupBody (S fuel) l cut 0
  = Corrupt (lua_push (decoded place (LTable es)) l)
  /\ Unserialize place lua_number2str LookupBody World call_function (S fuel) w l cut
     = Corrupt (lua_push (decoded place (LTable es)) l).
Proof.
  intros place n2s LB LBI World call objs fuel w l es Hs Hf cut.
  assert (U : unpickle place LB (S fuel) l cut 0
              = Corrupt (lua_push (decoded place (LTable es)) l)).
  { unfold cut, encode_open in *. change (str "t") with ["t"%char] in *.
    cbn [app length] in Hf.
    cbn [unpickle]. cbn [app]. change (peek ("t"%char :: ?x) 0) with (Some "t"%char).
    cbv beta iota zeta.
    change (Ascii.eqb "t" "f") with false. change (Ascii.eqb "t" "b") with false.
    change (Ascii.eqb "t" "s") with false. change (Ascii.eqb "t" "t") with true.
    cbv iota. cbn [storable] in Hs.
    set (buf := "t"%char :: flat_map (enc_entry LBI objs) es) in *.
    assert (F : Forall (fun e =>
                  unpickle_spec place LBI objs
                    (fun l pos => unpickle place LB fuel l buf pos) buf (fst e)
                  /\ unpickle_spec place LBI objs
                    (fun l pos => unpickle place LB fuel l buf pos) buf (snd e)) es).
    { rewrite Forall_forall. intros e He.
      destruct (enc_entry_in LBI objs e es He) as [L1 L2].
      rewrite forallb_forall in Hs. specialize (Hs e He).
      apply andb_prop in Hs. destruct Hs as [Hs Sv].
      apply andb_prop in Hs. destruct Hs as [Sk _].
      split; apply unpickle_encode; trivial; lia. }
    destruct fuel as [ | fuel']; [lia | ].
    rewrite (unpickle_while_open place LBI objs _ buf es F Hs
               (fun l0 => unpickle_at_end place LB fuel' l0 buf)
               (S fuel') [] (lua_newtable l) 1 (stack l) ltac:(lia)
               ltac:(split; [cbn; lia | reflexivity]) eq_refl).
    reflexivity. }
  split; [exact U | ].
  unfold Unserialize. rewrite U. reflexivity.
Qed.

Lemma X5_table_without_end_is_corrupt_witness :
  unpickle place_last ship_table 9 empty_state (str "tb1b0") 0
  = Corrupt (lua_push (LTable [(LBoolean true, LBoolean false)]) empty_state).
Proof.
  exact (proj1 (X5_table_without_end_is_corrupt place_last no_number2str ship_table
                  ship_index unit (fun _ _ w => (w, [])) [] 8 tt empty_state
                  [(LBoolean true, LBoolean false)] eq_refl ltac:(cbn; lia))).
Defined.

(** *** The loops over the registered modules *)

Lemma index2adr_bottom l pre x rest : stack l = pre ++ x :: rest ->
  index2adr l (Z.of_nat (S (length rest))) = Some x.
Proof.
  intro E. unfold index2adr.
  replace (0 <? Z.of_nat (S (length rest))) with true by (symmetry; apply Z.ltb_lt; lia).
  replace (Z.to_nat (Z.of_nat (S (length rest)) - 1)) with (length rest) by lia.
  rewrite E, rev_app_distr. cbn [rev].
  rewrite nth_error_app1 by (rewrite length_app, length_rev; cbn; lia).
  rewrite nth_error_app2 by (rewrite length_rev; lia).
  now rewrite length_rev, Nat.sub_diag.
Qed.

Lemma list_set_app {A : Type} (xs ys : list A) (x y : A) :
  list_set (xs ++ x :: ys) (length xs) y = xs ++ y :: ys.
Proof. induction xs as [ | a xs IH]; cbn [app length list_set]; [ | rewrite IH]; reflexivity. Qed.

Lemma set_index_bottom l pre x rest v : stack l = pre ++ x :: rest ->
  set_index l (Z.of_nat (S (length rest))) v = with_stack l (pre ++ v :: rest).
Proof.
  intro E. unfold set_index.
  replace (0 <? Z.of_nat (S (length rest))) with true by (symmetry; apply Z.ltb_lt; lia).
  replace (Z.to_nat (Z.of_nat (S (length rest)) - 1)) with (length rest) by lia.
  rewrite E, rev_app_distr. cbn [rev]. rewrite <- app_assoc. cbn [app].
  rewrite <- (length_rev rest), list_set_app.
  rewrite rev_app_distr. cbn [rev]. rewrite !rev_involutive, <- app_assoc.
  reflexivity.
Qed.

Section Dispatch.

Variable place : placement.
Variable lua_number2str : double -> bytes.
Variable World : Type.
Variable call_function : nat -> list LuaValue -> World -> World * list LuaValue.

Lemma Unserialize_while_dispatch data : forall reg ms,
  registry_modules reg = Some ms ->
  forall w top cb rest cbs objs nl,
  Unserialize_while lua_number2str World call_function (Z.of_nat (S (length rest))) reg w
    {| stack := top :: cb :: LTable data :: rest; callbacks := cbs;
       objects := objs; next_lid := nl |}
  = Ok (run_unserializers World call_function data ms w,
        {| stack := cb :: LTable data :: rest; callbacks := cbs;
           objects := objs; next_lid := nl |}).
Proof.
  induction reg as [ | [k v] reg IH]; intros ms Hm w top cb rest cbs objs nl.
  - injection Hm as <-. reflexivity.
  - cbn [registry_modules] in Hm.
    destruct k as [ | | | | key | | | | ]; try discriminate.
    destruct v as [ | | | | | fs | | | ]; try discriminate.
    destruct (tbl_get fs (LNumber (double_of_int 1))) as [ | | | | | | s | | ] eqn:E1;
      try discriminate.
    destruct (tbl_get fs (LNumber (double_of_int 2))) as [ | | | | | | u | | ] eqn:E2;
      try discriminate.
    destruct (registry_modules reg) as [ms' | ] eqn:Er; try discriminate.
    injection Hm as <-.
    cbn [Unserialize_while].
    match goal with |- bind ?m _ = _ =>
      replace m with
        (Ok {| stack := LFunction u :: LString key :: LTable fs :: LString key :: cb
                          :: LTable data :: rest;
               callbacks := cbs; objects := objs; next_lid := nl |})
        by (rewrite <- E2; reflexivity)
    end.
    cbn [bind].
    match goal with |- context [lua_tostring ?n ?l (-2)] =>
      change (lua_tostring n l (-2)) with (l, Some key)
    end.
    cbv iota beta.
    unfold lua_getfield.
    rewrite (index2adr_bottom _ [LFunction u; LString key; LTable fs; LString key; cb]
               (LTable data) rest) by reflexivity.
    cbn [bind].
    match goal with |- bind (lua_call _ _ _ ?l 1 0) _ = _ =>
      replace l with
        {| stack := load_argument data key :: LFunction u :: LString key :: LTable fs
                      :: LString key :: cb :: LTable data :: rest;
           callbacks := cbs; objects := objs; next_lid := nl |}
        by (unfold load_argument; now destruct (tbl_get data (LString (cstr key))))
    end.
    unfold lua_call. cbn [stack firstn skipn rev app].
    cbn [run_unserializers reg_unserialize reg_key].
    destruct (call_function u [load_argument data key] w) as [w' res].
    cbn [bind fst repeat app firstn rev with_stack lua_pop skipn stack callbacks
         objects next_lid].
    apply (IH ms' eq_refl).
Qed.


Lemma Serialize_while_collect : forall reg ms,
  registry_modules reg = Some ms ->
  forall w top cb acc rest cbs objs nl w' vs,
  run_serializers World call_function ms w = (w', vs) ->
  Serialize_while place World call_function (Z.of_nat (S (length rest))) reg w
    {| stack := top :: cb :: LTable acc :: rest; callbacks := cbs;
       objects := objs; next_lid := nl |}
  = Ok (w', {| stack := cb :: LTable (collect place acc ms vs) :: rest;
               callbacks := cbs; objects := objs; next_lid := nl |}).
Proof.
  induction reg as [ | [k v] reg IH]; intros ms Hm w top cb acc rest cbs objs nl w' vs Hr.
  - injection Hm as <-. injection Hr as <- <-. reflexivity.
  - cbn [registry_modules] in Hm.
    destruct k as [ | | | | key | | | | ]; try discriminate.
    destruct v as [ | | | | | fs | | | ]; try discriminate.
    destruct (tbl_get fs (LNumber (double_of_int 1))) as [ | | | | | | s | | ] eqn:E1;
      try discriminate.
    destruct (tbl_get fs (LNumber (double_of_int 2))) as [ | | | | | | u | | ] eqn:E2;
      try discriminate.
    destruct (registry_modules reg) as [ms' | ] eqn:Er; try discriminate.
    injection Hm as <-.
    cbn [run_serializers reg_serialize] in Hr.
    destruct (call_function s [] w) as [w1 res] eqn:Ec.
    destruct (run_serializers World call_function ms' w1) as [w2 vs'] eqn:Er'.
    injection Hr as <- <-.
    cbn [Serialize_while].
    match goal with |- bind ?m _ = _ =>
      replace m with
        (Ok {| stack := LFunction s :: LTable fs :: LString key :: cb
                          :: LTable acc :: rest;
               callbacks := cbs; objects := objs; next_lid := nl |})
        by (rewrite <- E1; reflexivity)
    end.
    cbn [bind]. unfold lua_call. cbn [stack firstn skipn rev app]. rewrite Ec.
    assert (Hres : rev (match res ++ repeat LNil 1 with [] => [] | a :: _ => [a] end)
                   = [hd LNil res]) by now destruct res.
    rewrite Hres. clear Hres.
    cbn [bind app with_stack callbacks objects next_lid].
    set (r := hd LNil res).
    match goal with |- bind (lua_settable _ ?l _) _ = _ =>
      change l with
        {| stack := r :: LString key :: LTable fs :: LString key :: cb
                      :: LTable acc :: rest;
           callbacks := cbs; objects := objs; next_lid := nl |}
    end.
    unfold lua_settable.
    rewrite (index2adr_bottom _ [r; LString key; LTable fs; LString key; cb]
               (LTable acc) rest) by reflexivity.
    unfold lua_rawset. cbn [stack].
    rewrite (index2adr_bottom _ [r; LString key; LTable fs; LString key; cb]
               (LTable acc) rest) by reflexivity.
    cbn [is_nan_key].
    rewrite (set_index_bottom _ [r; LString key; LTable fs; LString key; cb]
               (LTable acc) rest) by reflexivity.
    cbn [with_stack stack callbacks objects next_lid bind lua_pop skipn app].
    exact (IH ms' eq_refl w1 _ _ _ _ _ _ _ _ _ Er').
Qed.

End Dispatch.

Lemma push_callbacks_registry reg st cbs objs nl :
  cbs = LTable reg \/ (cbs = LNil /\ reg = []) ->
  push_callbacks {| stack := st; callbacks := cbs; objects := objs; next_lid := nl |}
  = {| stack := LTable reg :: st; callbacks := LTable reg; objects := objs;
       next_lid := nl |}.
Proof. intros [-> | [-> ->]]; reflexivity. Qed.

Lemma Unserialize_dispatches :
  forall place lua_number2str LookupBody
         (World : Type) (call_function : nat -> list LuaValue -> World -> World * list LuaValue)
         fuel w l pickled l1 data reg ms,
  unpickle place LookupBody fuel l pickled 0 = Ok (l1, length pickled) ->
  index2adr l1 (-1) = Some (LTable data) ->
  callbacks l = LTable reg \/ (callbacks l = LNil /\ reg = []) ->
  registry_modules reg = Some ms ->
  Unserialize place lua_number2str LookupBody World call_function fuel w l pickled
  = Ok (run_unserializers World call_function data ms w,
        with_callbacks (with_stack l1 (stack l)) (LTable reg)).
Proof.
  intros place n2s LB World call fuel w l pickled l1 data reg ms Hu Ht Hc Hm.
  pose proof (unpickle_inv place LB fuel l pickled 0) as P. rewrite Hu in P.
  destruct P as ((v & Es) & Ec & _).
  unfold Unserialize. rewrite Hu. cbn [bind].
  rewrite Nat.sub_0_r, Nat.eqb_refl. cbn [negb].
  unfold lua_istable, lua_type. rewrite Ht. cbn [type_of negb].
  assert (v = LTable data) as ->
    by (unfold index2adr in Ht; rewrite Es in Ht; cbn in Ht; congruence).
  rewrite <- Ec in Hc.
  destruct l1 as [st1 cbs1 objs1 nl1]. cbn [stack callbacks] in Es, Hc. subst st1.
  rewrite (push_callbacks_registry reg _ _ _ _ Hc).
  change (table_entries _ (-2)) with (Some reg). cbv iota.
  change (lua_gettop _) with (Z.of_nat (S (length (stack l)))).
  unfold lua_pushnil, lua_push, with_stack. cbn [stack callbacks objects next_lid].
  rewrite (Unserialize_while_dispatch n2s World call data reg ms Hm).
  reflexivity.
Qed.

Lemma Serialize_collects :
  forall place lua_number2str LookupBody_index
         (World : Type) (call_function : nat -> list LuaValue -> World -> World * list LuaValue)
         fuel w l reg ms w' vs,
  callbacks l = LTable reg \/ (callbacks l = LNil /\ reg = []) ->
  registry_modules reg = Some ms ->
  run_serializers World call_function ms w = (w', vs) ->
  supported (objects l) (LTable (collect place [] ms vs)) = true ->
  (depth (LTable (collect place [] ms vs)) < fuel)%nat ->
  Serialize place lua_number2str LookupBody_index World call_function fuel w l
  = Ok (w', with_callbacks l (LTable reg),
        encode LookupBody_index (objects l) (LTable (collect place [] ms vs))).
Proof.
  intros place n2s LBI World call fuel w l reg ms w' vs Hc Hm Hr Hs Hd.
  destruct l as [st cbs objs nl]. cbn [callbacks objects] in Hc, Hs.
  unfold Serialize, lua_newtable, lua_push, with_stack.
  cbn [stack callbacks objects next_lid].
  rewrite (push_callbacks_registry reg _ _ _ _ Hc).
  change (table_entries _ (-2)) with (Some reg). cbv iota.
  change (lua_gettop _) with (Z.of_nat (S (length st))).
  unfold lua_pushnil, lua_push, with_stack. cbn [stack callbacks objects next_lid].
  rewrite (Serialize_while_collect place World call reg ms Hm _ _ _ _ _ _ _ _ _ _ Hr).
  cbn [bind]. unfold lua_pop, with_stack. cbn [stack skipn callbacks objects next_lid].
  set (saved := collect place [] ms vs) in *.
  set (l1 := {| stack := LTable saved :: st; callbacks := LTable reg;
                objects := objs; next_lid := nl |}).
  pose proof (pickle_total n2s LBI (LTable saved) fuel Hd objs l1
                (Z.of_nat (S (length st))) [] None eq_refl
                (index2adr_bottom l1 [] (LTable saved) st eq_refl)) as H.
  rewrite Hs in H.
  match goal with |- bind ?m _ = _ =>
    replace m with (Ok (l1, [] ++ encode LBI objs (LTable saved)))
      by (symmetry; exact H)
  end.
  reflexivity.
Qed.

(** *** Registration *)

Lemma index2adr_at l pre x rest idx :
  stack l = pre ++ x :: rest -> idx = Z.of_nat (S (length rest)) ->
  index2adr l idx = Some x.
Proof. intros E ->. now apply (index2adr_bottom _ pre x rest). Qed.

Section Register.

Variable place : placement.
Variable lua_number2str : double -> bytes.

Lemma l_register_checks l extra a4 a3 key self :
  stack l = extra ++ [a4; a3; LString key; self] ->
  (match a3, a4 with LFunction _, LFunction _ => False | _, _ => True end) ->
  l_register place lua_number2str l = LuaError l.
Proof.
  intros E H. unfold l_register, luaL_checkstring, lua_tostring.
  rewrite (index2adr_at l (extra ++ [a4; a3]) (LString key) [self] 2)
    by (rewrite ?E, <- ?app_assoc; reflexivity).
  cbn [bind]. unfold lua_isfunction, lua_type.
  rewrite (index2adr_at l (extra ++ [a4]) a3 [LString key; self] 3)
    by (rewrite ?E, <- ?app_assoc; reflexivity).
  rewrite (index2adr_at l extra a4 [a3; LString key; self] 4 E eq_refl).
  destruct a3; cbn [type_of negb]; try reflexivity;
    destruct a4; cbn [type_of negb]; try reflexivity; contradiction.
Qed.

Lemma l_register_run extra u s key self cbs objs nl reg :
  cbs = LTable reg \/ (cbs = LNil /\ reg = []) ->
  let l := {| stack := extra ++ [LFunction u; LFunction s; LString key; self];
              callbacks := cbs; objects := objs; next_lid := nl |} in
  l_register place lua_number2str l
  = match tbl_get reg (LString (cstr key)) with
    | LNil =>
        Ok {| stack := stack l;
              callbacks :=
                LTable (tbl_set place reg (LString (cstr key))
                          (LTable (tbl_set place
                                     (tbl_set place [] (LNumber (double_of_int 1)) (LFunction s))
                                     (LNumber (double_of_int 2)) (LFunction u))));
              objects := objs; next_lid := nl |}
    | v => LuaError {| stack := v :: LTable reg :: stack l; callbacks := LTable reg;
                       objects := objs; next_lid := nl |}
    end.
Proof.
  intros Hc l. unfold l_register, luaL_checkstring, lua_tostring.
  assert (E : stack l = extra ++ [LFunction u; LFunction s; LString key; self])
    by reflexivity.
  rewrite (index2adr_at l (extra ++ [LFunction u; LFunction s]) (LString key) [self] 2)
    by (rewrite ?E, <- ?app_assoc; reflexivity).
  cbn [bind]. unfold lua_isfunction, lua_type.
  rewrite (index2adr_at l (extra ++ [LFunction u]) (LFunction s) [LString key; self] 3)
    by (rewrite ?E, <- ?app_assoc; reflexivity).
  rewrite (index2adr_at l extra (LFunction u) [LFunction s; LString key; self] 4 E eq_refl).
  cbn [type_of negb]. unfold l.
  rewrite (push_callbacks_registry reg _ _ _ _ Hc).
  unfold lua_getfield at 1.
  change (index2adr _ (-1)) with (Some (LTable reg)). cbn [bind].
  set (k := LString (cstr key)).
  unfold lua_isnil, lua_type.
  change (index2adr _ (-1)) with (Some (tbl_get reg k)).
  destruct (tbl_get reg k) eqn:Eg; cbn [type_of negb]; try reflexivity.
  set (st0 := extra ++ [LFunction u; LFunction s; LString key; self]).
  set (one := LNumber (double_of_int 1)). set (two := LNumber (double_of_int 2)).
  match goal with |- bind (lua_rawset _ ?l1 _) _ = _ =>
    replace l1 with
      {| stack := LFunction s :: one :: LTable [] :: LTable reg :: st0;
         callbacks := LTable reg; objects := objs; next_lid := nl |}
  end.
  2:{ unfold lua_pushvalue.
      rewrite (index2adr_at _ ([one; LTable []; LTable reg] ++ extra ++ [LFunction u])
                 (LFunction s) [LString key; self] 3);
        [reflexivity | | reflexivity].
      unfold st0. cbn [app]. rewrite <- ?app_assoc. reflexivity. }
  rewrite (lua_rawset_ok place _ (LFunction s) one [] (LTable reg :: st0));
    [ | reflexivity | exact I | reflexivity].
  cbn [bind].
  match goal with |- bind (lua_rawset _ ?l1 _) _ = _ =>
    replace l1 with
      {| stack := LFunction u :: two :: LTable (tbl_set place [] one (LFunction s))
                    :: LTable reg :: st0;
         callbacks := LTable reg; objects := objs; next_lid := nl |}
  end.
  2:{ unfold lua_pushvalue.
      rewrite (index2adr_at _
                 ([two; LTable (tbl_set place [] one (LFunction s)); LTable reg] ++ extra)
                 (LFunction u) [LFunction s; LString key; self] 4);
        [reflexivity | | reflexivity].
      unfold st0. cbn [app]. rewrite <- ?app_assoc. reflexivity. }
  rewrite (lua_rawset_ok place _ (LFunction u) two (tbl_set place [] one (LFunction s))
             (LTable reg :: st0));
    [ | reflexivity | exact I | reflexivity].
  cbn [bind].
  set (fs := tbl_set place (tbl_set place [] one (LFunction s)) two (LFunction u)).
  match goal with |- bind (lua_rawset _ ?l1 _) _ = _ =>
    change l1 with
      {| stack := LTable fs :: k :: LTable fs :: LTable reg :: st0;
         callbacks := LTable reg; objects := objs; next_lid := nl |}
  end.
  reflexivity.
Qed.

End Register.

(** *** Tables whose keys are distinct strings *)

Lemma bytes_eqb_refl a : bytes_eqb a a = true.
Proof. induction a as [ | x a IH]; cbn; [reflexivity | ]. now rewrite Ascii.eqb_refl, IH. Qed.

Lemma rawequal_strings a b : rawequal (LString a) (LString b) = true <-> a = b.
Proof.
  cbn [rawequal]. split; [apply bytes_eqb_eq | intros ->; apply bytes_eqb_refl].
Qed.

Lemma tbl_mem_absent es k :
  (forall e, In e es -> rawequal (fst e) k = false) -> tbl_mem es k = false.
Proof.
  induction es as [ | [k' v'] es IH]; intro H; cbn [tbl_mem]; [reflexivity | ].
  pose proof (H (k', v') (or_introl eq_refl)) as H1. cbn [fst] in H1.
  rewrite H1, IH; [reflexivity | ].
  intros e He. apply H. now right.
Qed.

Lemma tbl_remove_absent es k : tbl_mem es k = false -> tbl_remove es k = es.
Proof.
  induction es as [ | [k' v'] es IH]; cbn [tbl_mem tbl_remove]; [reflexivity | ].
  intro H. apply orb_false_elim in H. destruct H as [H1 H2].
  now rewrite H1, IH.
Qed.

Lemma tbl_get_absent es k :
  (forall e, In e es -> rawequal (fst e) k = false) -> tbl_get es k = LNil.
Proof.
  induction es as [ | [k' v'] es IH]; intro H; cbn [tbl_get]; [reflexivity | ].
  pose proof (H (k', v') (or_introl eq_refl)) as H1. cbn [fst] in H1.
  rewrite H1. apply IH.
  intros e He. apply H. now right.
Qed.

Lemma tbl_get_present es k k' v :
  In (k', v) es -> rawequal k' k = true ->
  (forall e, In e es -> rawequal (fst e) k = true -> snd e = v) ->
  tbl_get es k = v.
Proof.
  induction es as [ | [k1 v1] es IH]; intros Hin Hk Hu; [destruct Hin | ].
  cbn [tbl_get]. destruct (rawequal k1 k) eqn:E1.
  - exact (Hu (k1, v1) (or_introl eq_refl) E1).
  - destruct Hin as [Heq | Hin]; [congruence | ].
    apply IH; trivial. intros e He. apply Hu. now right.
Qed.

Section StringTables.

Variable place : placement.
Hypothesis place_ok : placement_ok place.

Local Abbreviation set_entry :=
  (fun acc (e : entry) => tbl_set place acc (fst e) (snd e)).

(** Assignments under string keys that are all different build, up to
    the order of enumeration, the list of the entries with a value. *)
Lemma fold_tbl_set_strings es : forall acc,
  Forall string_key (acc ++ es) -> NoDup (map fst (acc ++ es)) ->
  Permutation (fold_left set_entry es acc) (acc ++ filter has_value es).
Proof.
  induction es as [ | [k v] es IH]; intros acc Hs Hd; cbn [fold_left filter].
  - now rewrite app_nil_r.
  - assert (Hm : tbl_mem acc k = false).
    { apply tbl_mem_absent. intros [k' v'] He. cbn [fst].
      destruct (rawequal k' k) eqn:E; [exfalso | reflexivity].
      rewrite Forall_forall in Hs.
      destruct (Hs (k', v') ltac:(apply in_or_app; now left)) as [s' Es'].
      destruct (Hs (k, v) ltac:(apply in_or_app; right; now left)) as [s Es].
      cbn [fst] in Es', Es. subst k' k. apply rawequal_strings in E. subst s'.
      rewrite map_app in Hd. cbn [map fst] in Hd.
      apply NoDup_remove_2 in Hd. apply Hd. apply in_or_app. left.
      now apply (in_map fst _ _ He). }
    assert (Hs' : Forall string_key ((acc ++ [(k, v)]) ++ es))
      by now rewrite <- app_assoc.
    assert (Hd' : NoDup (map fst ((acc ++ [(k, v)]) ++ es)))
      by now rewrite <- app_assoc.
    assert (Step : forall e, e = (k, v) ->
              Permutation (fold_left set_entry es (place acc e))
                          (acc ++ e :: filter has_value es)).
    { intros e ->. pose proof (place_ok acc (k, v)) as P.
      assert (Q : Permutation ((acc ++ [(k, v)]) ++ es) (place acc (k, v) ++ es))
        by (apply Permutation_app_tail; rewrite P; symmetry;
            apply Permutation_cons_append).
      rewrite (IH (place acc (k, v))).
      - rewrite P. cbn [app]. now rewrite Permutation_middle.
      - now rewrite <- Q.
      - now rewrite <- Q. }
    cbn [fst snd]. unfold tbl_set. unfold has_value at 1. cbn [snd].
    destruct v; try (rewrite Hm; now apply Step).
    rewrite (tbl_remove_absent _ _ Hm). apply IH.
    + apply Forall_app in Hs. destruct Hs as [H1 H2]. apply Forall_app. split; trivial.
      now inversion H2.
    + rewrite map_app in Hd |- *.
      cbn [map] in Hd. now apply NoDup_remove_1 in Hd.
Qed.

End StringTables.

(** *** Saving, then loading *)

Lemma run_serializers_length (World : Type)
    (call_function : nat -> list LuaValue -> World -> World * list LuaValue) ms :
  forall w w' vs, run_serializers World call_function ms w = (w', vs) ->
  length vs = length ms.
Proof.
  induction ms as [ | m ms IH]; intros w w' vs H; cbn [run_serializers] in H.
  - now injection H as <- <-.
  - destruct (call_function (reg_serialize m) [] w) as [w1 res].
    destruct (run_serializers World call_function ms w1) as [w2 vs'] eqn:E.
    injection H as <- <-. cbn [length]. f_equal. exact (IH _ _ _ E).
Qed.

Lemma collect_saved_entries place ms : forall vs acc,
  collect place acc ms vs
  = fold_left (fun acc (e : entry) => tbl_set place acc (fst e) (snd e))
      (saved_entries ms vs) acc.
Proof.
  unfold collect, saved_entries.
  induction ms as [ | m ms IH]; intros [ | v vs] acc; cbn [combine map fold_left];
    try reflexivity.
  apply IH.
Qed.

Lemma saved_entries_keys ms : forall vs, length vs = length ms ->
  map fst (saved_entries ms vs) = map (fun m => LString (reg_key m)) ms.
Proof.
  unfold saved_entries.
  induction ms as [ | m ms IH]; intros [ | v vs] H; cbn [length] in H; try discriminate;
    cbn [combine map fst]; [reflexivity | ].
  f_equal. apply IH. lia.
Qed.

Lemma saved_entries_in ms vs e : In e (saved_entries ms vs) ->
  exists m v, In (m, v) (combine ms vs) /\ e = (LString (reg_key m), v).
Proof.
  unfold saved_entries. intro H. apply in_map_iff in H.
  destruct H as ([m v] & <- & Hin). now exists m, v.
Qed.

Lemma combine_functional {A B C : Type} (f : A -> C) (xs : list A) :
  forall (ys : list B) x y x' y',
  NoDup (map f xs) -> In (x, y) (combine xs ys) -> In (x', y') (combine xs ys) ->
  f x = f x' -> y = y'.
Proof.
  induction xs as [ | a xs IH]; intros [ | b ys] x y x' y' Hd H1 H2 E;
    cbn [combine] in H1, H2; try contradiction.
  cbn [map] in Hd. inversion Hd as [ | ? ? Hn Hd']. subst.
  destruct H1 as [H1 | H1], H2 as [H2 | H2].
  - congruence.
  - exfalso. injection H1 as <- <-. apply Hn. rewrite E.
    apply in_map. exact (in_combine_l _ _ _ _ H2).
  - exfalso. injection H2 as <- <-. apply Hn. rewrite <- E.
    apply in_map. exact (in_combine_l _ _ _ _ H1).
  - exact (IH ys x y x' y' Hd' H1 H2 E).
Qed.

Lemma NoDup_map_filter {A B : Type} (f : A -> B) (p : A -> bool) (xs : list A) :
  NoDup (map f xs) -> NoDup (map f (filter p xs)).
Proof.
  induction xs as [ | x xs IH]; cbn [map filter]; [trivial | ].
  intro H. inversion H as [ | ? ? Hn Hd]. subst.
  destruct (p x); cbn [map]; [ | now apply IH].
  constructor; [ | now apply IH].
  intro Hin. apply Hn. apply in_map_iff in Hin. destruct Hin as (y & Ey & Hy).
  apply filter_In in Hy. rewrite <- Ey. apply in_map. tauto.
Qed.

Section SaveLoad.

Variable place : placement.
Hypothesis place_ok : placement_ok place.

Variable ms : list Registered.
Variable vs : list LuaValue.
Hypothesis Hlen : length vs = length ms.
Hypothesis Hkeys : Forall (fun m => string_ok (reg_key m) = true) ms.
Hypothesis Hdistinct : NoDup (map reg_key ms).
Hypothesis Hvalues : forallb returnable vs = true.

Local Abbreviation saved := (collect place [] ms vs).
Local Abbreviation present := (filter has_value (saved_entries ms vs)).
Local Abbreviation dec :=
  (fun e : entry => (decoded place (fst e), decoded place (snd e))).

Lemma saved_entries_strings : Forall string_key (saved_entries ms vs).
Proof.
  rewrite Forall_forall. intros e He.
  destruct (saved_entries_in _ _ _ He) as (m & v & _ & ->). now exists (reg_key m).
Qed.

Lemma saved_entries_distinct : NoDup (map fst (saved_entries ms vs)).
Proof.
  rewrite saved_entries_keys by exact Hlen.
  rewrite <- (map_map reg_key LString).
  apply Finite.Injective_map_NoDup; [ | exact Hdistinct].
  intros a b E. now injection E.
Qed.

Lemma saved_present : Permutation saved present.
Proof.
  rewrite collect_saved_entries.
  apply (fold_tbl_set_strings place place_ok (saved_entries ms vs) []).
  - exact saved_entries_strings.
  - exact saved_entries_distinct.
Qed.

Lemma present_in e : In e present ->
  exists m v, In (m, v) (combine ms vs) /\ e = (LString (reg_key m), v)
    /\ string_ok (reg_key m) = true /\ storable v = true.
Proof.
  intro H. apply filter_In in H. destruct H as [H Hv].
  destruct (saved_entries_in _ _ _ H) as (m & v & Hin & ->).
  exists m, v. repeat split; trivial.
  - rewrite Forall_forall in Hkeys. apply Hkeys. exact (in_combine_l _ _ _ _ Hin).
  - rewrite forallb_forall in Hvalues.
    pose proof (Hvalues v (in_combine_r _ _ _ _ Hin)) as R.
    unfold has_value in Hv. cbn [snd] in Hv. now destruct v.
Qed.

Lemma saved_storable : storable (LTable saved) = true.
Proof.
  cbn [storable]. apply forallb_forall. intros e He.
  apply (Permutation_in _ saved_present) in He.
  destruct (present_in e He) as (m & v & _ & -> & Hk & Hv).
  cbn [fst snd storable is_nan_key negb]. now rewrite Hk, Hv.
Qed.

Local Abbreviation data := (fold_left (assign place) saved []).

Lemma present_key e : In e saved -> decoded place (fst e) = fst e.
Proof.
  intro He. apply (Permutation_in _ saved_present) in He.
  now destruct (present_in e He) as (m & v & _ & -> & _).
Qed.

Lemma data_entries : Permutation data (filter has_value (map dec saved)).
Proof.
  assert (E : forall es acc,
            fold_left (assign place) es acc
            = fold_left (fun acc (e : entry) => tbl_set place acc (fst e) (snd e))
                (map dec es) acc).
  { induction es as [ | e es IH]; intro acc; cbn [map fold_left]; [reflexivity | ].
    apply IH. }
  rewrite E. apply (fold_tbl_set_strings place place_ok (map dec saved) []); cbn [app].
  - rewrite Forall_forall. intros e He. apply in_map_iff in He.
    destruct He as (e0 & <- & He0). apply (Permutation_in _ saved_present) in He0.
    destruct (present_in e0 He0) as (m & v & _ & -> & _). now exists (reg_key m).
  - rewrite map_map. cbn [fst].
    rewrite (map_ext_in (fun e : entry => decoded place (fst e)) fst saved)
      by (intros e He; now apply present_key).
    rewrite saved_present. apply NoDup_map_filter. exact saved_entries_distinct.
Qed.

Lemma data_in e : In e data ->
  exists m v, In (m, v) (combine ms vs) /\ e = (LString (reg_key m), decoded place v)
    /\ has_value (LString (reg_key m), v) = true.
Proof.
  intro He. apply (Permutation_in _ data_entries) in He.
  apply filter_In in He. destruct He as [He _]. apply in_map_iff in He.
  destruct He as (e0 & <- & He0). apply (Permutation_in _ saved_present) in He0.
  pose proof He0 as Hf. apply filter_In in Hf. destruct Hf as [_ Hf].
  destruct (present_in e0 He0) as (m & v & Hin & -> & _).
  exists m, v. repeat split; trivial.
Qed.

Lemma data_has m v : In (m, v) (combine ms vs) ->
  has_value (LString (reg_key m), v) = true ->
  In (LString (reg_key m), decoded place v) data.
Proof.
  intros Hin Hv.
  assert (Hp : In (LString (reg_key m), v) present).
  { apply filter_In. split; [ | exact Hv]. unfold saved_entries.
    apply in_map_iff. now exists (m, v). }
  destruct (present_in _ Hp) as (m' & v' & _ & E & _ & Sv). injection E as _ <-.
  apply (Permutation_in _ (Permutation_sym data_entries)).
  apply filter_In. split.
  - apply in_map_iff. exists (LString (reg_key m), v). split; [reflexivity | ].
    exact (Permutation_in _ (Permutation_sym saved_present) Hp).
  - unfold has_value. cbn [snd]. pose proof (decoded_not_nil place v Sv) as N.
    now destruct (decoded place v).
Qed.

Lemma load_argument_data m v : In (m, v) (combine ms vs) ->
  load_argument data (reg_key m)
  = match v with LNil => LTable [] | _ => decoded place v end.
Proof.
  intro Hin. unfold load_argument.
  assert (Hk : cstr (reg_key m) = reg_key m).
  { rewrite Forall_forall in Hkeys.
    exact (proj1 (string_ok_facts _ (Hkeys m (in_combine_l _ _ _ _ Hin)))). }
  rewrite Hk.
  assert (Same : forall e, In e data -> rawequal (fst e) (LString (reg_key m)) = true ->
            snd e = decoded place v /\ has_value (LString (reg_key m), v) = true).
  { intros e He Hr. destruct (data_in e He) as (m' & v' & Hin' & -> & Hv').
    cbn [fst snd] in *. apply rawequal_strings in Hr.
    pose proof (combine_functional reg_key ms vs m' v' m v Hdistinct Hin' Hin Hr) as <-.
    now split. }
  destruct (has_value (LString (reg_key m), v)) eqn:Hv.
  - rewrite (tbl_get_present data (LString (reg_key m)) (LString (reg_key m))
               (decoded place v) (data_has m v Hin Hv) (bytes_eqb_refl _)).
    + rewrite forallb_forall in Hvalues.
      pose proof (Hvalues v (in_combine_r _ _ _ _ Hin)) as R.
      unfold has_value in Hv. cbn [snd] in Hv.
      destruct v; try discriminate; cbn [returnable] in R;
        pose proof (decoded_not_nil place _ R) as N;
        match goal with |- match ?d with _ => _ end = _ =>
          destruct d; try contradiction; reflexivity
        end.
    + intros e He Hr. exact (proj1 (Same e He Hr)).
  - rewrite tbl_get_absent.
    + unfold has_value in Hv. cbn [snd] in Hv. now destruct v.
    + intros e He. destruct (rawequal (fst e) (LString (reg_key m))) eqn:Hr; trivial.
      destruct (Same e He Hr) as [_ C]. congruence.
Qed.

End SaveLoad.

Lemma run_unserializers_hand_back place (World : Type)
    (call_function : nat -> list LuaValue -> World -> World * list LuaValue) data ms :
  forall vs w, length vs = length ms ->
  (forall m v, In (m, v) (combine ms vs) ->
     load_argument data (reg_key m)
     = match v with LNil => LTable [] | _ => decoded place v end) ->
  run_unserializers World call_function data ms w
  = hand_back place World call_function ms vs w.
Proof.
  induction ms as [ | m ms IH]; intros [ | v vs] w Hl H; cbn [length] in Hl;
    try discriminate; cbn [run_unserializers hand_back]; [reflexivity | ].
  rewrite (H m v (or_introl eq_refl)). apply IH; [lia | ].
  intros m' v' Hin. apply H. now right.
Qed.

(** *** The registry after a registration *)

Lemma registry_modules_values reg : forall ms k,
  registry_modules reg = Some ms -> tbl_get reg k = LNil -> tbl_mem reg k = false.
Proof.
  induction reg as [ | [k' v] reg IH]; intros ms k Hm Hg; [reflexivity | ].
  cbn [registry_modules] in Hm.
  destruct k' as [ | | | | key | | | | ]; try discriminate.
  destruct v as [ | | | | | fs | | | ]; try discriminate.
  destruct (tbl_get fs (LNumber (double_of_int 1))) as [ | | | | | | s | | ];
    try discriminate.
  destruct (tbl_get fs (LNumber (double_of_int 2))) as [ | | | | | | u | | ];
    try discriminate.
  destruct (registry_modules reg) as [ms' | ] eqn:Er; try discriminate.
  cbn [tbl_get tbl_mem] in Hg |- *.
  destruct (rawequal (LString key) k); [discriminate | ].
  exact (IH ms' k eq_refl Hg).
Qed.

Lemma registry_modules_cons e reg :
  registry_modules (e :: reg)
  = match registry_modules [e], registry_modules reg with
    | Some [m], Some ms => Some (m :: ms)
    | _, _ => None
    end.
Proof.
  destruct e as [k v]. cbn [registry_modules].
  destruct k as [ | | | | key | | | | ]; try reflexivity.
  destruct v as [ | | | | | fs | | | ]; try reflexivity.
  destruct (tbl_get fs (LNumber (double_of_int 1))) as [ | | | | | | s | | ];
    try reflexivity.
  destruct (tbl_get fs (LNumber (double_of_int 2))) as [ | | | | | | u | | ];
    reflexivity.
Qed.

Lemma registry_modules_one e :
  match registry_modules [e] with
  | Some [_] | None => True
  | _ => False
  end.
Proof.
  destruct e as [k v]. cbn [registry_modules].
  destruct k as [ | | | | key | | | | ]; trivial.
  destruct v as [ | | | | | fs | | | ]; trivial.
  destruct (tbl_get fs (LNumber (double_of_int 1))) as [ | | | | | | s | | ]; trivial.
  destruct (tbl_get fs (LNumber (double_of_int 2))) as [ | | | | | | u | | ]; trivial.
Qed.

(** The modules of a registry do not depend on the order in which
    [lua_next] lists it, up to that order. *)
Lemma registry_modules_perm reg reg' : Permutation reg reg' ->
  forall ms, registry_modules reg = Some ms ->
  exists ms', registry_modules reg' = Some ms' /\ Permutation ms ms'.
Proof.
  induction 1 as [ | e reg reg' _ IH | e1 e2 reg | reg reg' reg'' _ IH1 _ IH2];
    intros ms Hm.
  - exists ms. now split.
  - rewrite registry_modules_cons in Hm |- *.
    pose proof (registry_modules_one e) as O.
    destruct (registry_modules [e]) as [[ | m [ | ]] | ]; try discriminate; try contradiction.
    destruct (registry_modules reg) as [ms0 | ]; try discriminate.
    injection Hm as <-. destruct (IH ms0 eq_refl) as (ms' & -> & P).
    exists (m :: ms'). split; [reflexivity | now constructor].
  - rewrite registry_modules_cons in Hm |- *.
    rewrite (registry_modules_cons e2 reg).
    rewrite (registry_modules_cons e1 reg) in Hm.
    pose proof (registry_modules_one e1) as O1.
    pose proof (registry_modules_one e2) as O2.
    destruct (registry_modules [e1]) as [[ | m1 [ | ]] | ];
      destruct (registry_modules [e2]) as [[ | m2 [ | ]] | ];
      try discriminate; try contradiction.
    destruct (registry_modules reg) as [ms0 | ]; try discriminate.
    injection Hm as <-. exists (m1 :: m2 :: ms0). split; [reflexivity | constructor].
  - destruct (IH1 ms Hm) as (ms1 & H1 & P1).
    destruct (IH2 ms1 H1) as (ms2 & H2 & P2).
    exists ms2. split; [exact H2 | now transitivity ms1].
Qed.

Lemma callback_table place s u : placement_ok place ->
  let fs := tbl_set place (tbl_set place [] (LNumber (double_of_int 1)) (LFunction s))
              (LNumber (double_of_int 2)) (LFunction u) in
  tbl_get fs (LNumber (double_of_int 1)) = LFunction s
  /\ tbl_get fs (LNumber (double_of_int 2)) = LFunction u.
Proof.
  intros Hp fs. unfold fs, tbl_set. cbn [tbl_mem].
  pose proof (Hp [] (LNumber (double_of_int 1), LFunction s)) as P1.
  apply Permutation_sym, Permutation_length_1_inv in P1. rewrite P1. cbn [tbl_mem].
  change (rawequal (LNumber (double_of_int 1)) (LNumber (double_of_int 2))) with false.
  cbn [orb].
  match goal with |- context [place ?a ?b] => pose proof (Hp a b) as P2 end.
  apply Permutation_sym, Permutation_length_2_inv in P2. destruct P2 as [-> | ->]; split; reflexivity.
Qed.

Lemma registry_modules_keys reg : forall ms k,
  registry_modules reg = Some ms -> tbl_get reg (LString k) = LNil ->
  ~ In k (map reg_key ms).
Proof.
  induction reg as [ | [k' v] reg IH]; intros ms k Hm Hg.
  - injection Hm as <-. intros [].
  - cbn [registry_modules] in Hm.
    destruct k' as [ | | | | key | | | | ]; try discriminate.
    destruct v as [ | | | | | fs | | | ]; try discriminate.
    destruct (tbl_get fs (LNumber (double_of_int 1))) as [ | | | | | | s | | ];
      try discriminate.
    destruct (tbl_get fs (LNumber (double_of_int 2))) as [ | | | | | | u | | ];
      try discriminate.
    destruct (registry_modules reg) as [ms' | ] eqn:Er; try discriminate.
    injection Hm as <-. cbn [tbl_get] in Hg. cbn [map reg_key].
    destruct (rawequal (LString key) (LString k)) eqn:Hr; [discriminate | ].
    intros [E | Hin].
    + subst k. cbn [rawequal] in Hr. now rewrite bytes_eqb_refl in Hr.
    + exact (IH ms' k eq_refl Hg Hin).
Qed.

(* ===================================================================== *)
(** ** Saving and loading through the registry *)
(* ===================================================================== *)

(** X6: [Unserialize] on a blob that [unpickle] reads to its end as a
    table calls the unserialize function of every registered module once,
    in the order [lua_next] lists the registry, with the module's entry
    of that table or, when the table has none, with a new empty table;
    entries of modules that are not registered are passed to nobody.  It
    returns with the stack as it was. *)
Theorem X6_Unserialize_calls_every_module :
  forall place lua_number2str LookupBody
         (World : Type) (call_function : nat -> list LuaValue -> World -> World * list LuaValue)
         fuel w l pickled l1 data reg ms,
  unpickle place LookupBody fuel l pickled 0 = Ok (l1, length pickled) ->
  index2adr l1 (-1) = Some (LTable data) ->
  callbacks l = LTable reg \/ (callbacks l = LNil /\ reg = []) ->
  registry_modules reg = Some ms ->
  Unserialize place lua_number2str LookupBody World call_function fuel w l pickled
  = Ok (run_unserializers World call_function data ms w,
        with_callbacks (with_stack l1 (stack l)) (LTable reg)).
Proof.
  intros place n2s LB World call fuel w l pickled l1 data reg ms Hu Ht Hc Hm.
  exact (Unserialize_dispatches place n2s LB World call fuel w l pickled l1 data reg ms
           Hu Ht Hc Hm).
Qed.

Lemma X6_Unserialize_calls_every_module_witness :
  Unserialize place_last no_number2str ship_table call_log scripts 40 [] state_A saved_AB
  = Ok ([(1%nat, [data_A])], state_A).
Proof.
  assert (Hu : unpickle place_last ship_table 40 state_A saved_AB 0
               = Ok (lua_push (LTable [(LString (str "ModuleA"), data_A);
                                       (LString (str "ModuleB"), data_B)]) state_A,
                     length saved_AB)) by (vm_compute; reflexivity).
  exact (X6_Unserialize_calls_every_module place_last no_number2str ship_table
           call_log scripts 40 [] state_A saved_AB _ _ _ [module_A]
           Hu eq_refl (or_introl eq_refl) eq_refl).
Defined.

(** X7: [Serialize] calls the serialize function of every registered
    module once, without arguments, in the order [lua_next] lists the
    registry, assigns the first result of each under the module's key to
    a new table, and hands the bytes of that table to the writer, when the
    results are values [pickle] supports.  It returns with the stack as it
    was; a registry that was nil is an empty table afterwards. *)
Theorem X7_Serialize_collects_every_module :
  forall place lua_number2str LookupBody_index
         (World : Type) (call_function : nat -> list LuaValue -> World -> World * list LuaValue)
         fuel w l reg ms w' vs,
  callbacks l = LTable reg \/ (callbacks l = LNil /\ reg = []) ->
  registry_modules reg = Some ms ->
  run_serializers World call_function ms w = (w', vs) ->
  supported (objects l) (LTable (collect place [] ms vs)) = true ->
  (depth (LTable (collect place [] ms vs)) < fuel)%nat ->
  Serialize place lua_number2str LookupBody_index World call_function fuel w l
  = Ok (w', with_callbacks l (LTable reg),
        encode LookupBody_index (objects l) (LTable (collect place [] ms vs))).
Proof.
  intros place n2s LBI World call fuel w l reg ms w' vs Hc Hm Hr Hs Hd.
  exact (Serialize_collects place n2s LBI World call fuel w l reg ms w' vs Hc Hm Hr Hs Hd).
Qed.

Lemma X7_Serialize_collects_every_module_witness :
  Serialize place_last no_number2str ship_index call_log scripts 5 [] state_A
  = Ok ([(0%nat, [])], state_A,
        str "ts7" ++ NL :: str "ModuleAts1" ++ NL :: str "xb1nn").
Proof.
  exact (X7_Serialize_collects_every_module place_last no_number2str ship_index
           call_log scripts 5 [] state_A _ [module_A] _ [data_A]
           (or_introl eq_refl) eq_refl eq_refl eq_refl ltac:(cbn; lia)).
Defined.

(** X8: [l_register] called with a string key that is not in the registry
    and two functions adds the module: afterwards the registry lists the
    modules it listed before and the new one, under the key cut at its
    first NUL byte, with the two functions at [1] and [2]; keys that were
    distinct stay distinct.  The stack is as it was. *)
Theorem X8_l_register_adds_the_module :
  forall place lua_number2str l extra u s key self reg ms,
  placement_ok place ->
  stack l = extra ++ [LFunction u; LFunction s; LString key; self] ->
  callbacks l = LTable reg \/ (callbacks l = LNil /\ reg = []) ->
  registry_modules reg = Some ms ->
  tbl_get reg (LString (cstr key)) = LNil ->
  exists reg' ms',
    l_register place lua_number2str l = Ok (with_callbacks l (LTable reg'))
    /\ registry_modules reg' = Some ms'
    /\ Permutation ms'
         ({| reg_key := cstr key; reg_serialize := s; reg_unserialize := u |} :: ms)
    /\ (NoDup (map reg_key ms) -> NoDup (map reg_key ms')).
Proof.
  intros place n2s l extra u s key self reg ms Hp Es Hc Hm Hg.
  destruct l as [st cbs objs nl]. cbn [stack callbacks] in Es, Hc. subst st.
  rewrite (l_register_run place n2s extra u s key self cbs objs nl reg Hc), Hg.
  set (fs := tbl_set place (tbl_set place [] (LNumber (double_of_int 1)) (LFunction s))
               (LNumber (double_of_int 2)) (LFunction u)).
  destruct (callback_table place s u Hp) as [F1 F2]. fold fs in F1, F2.
  assert (E : tbl_set place reg (LString (cstr key)) (LTable fs)
              = place reg (LString (cstr key), LTable fs)).
  { unfold tbl_set. now rewrite (registry_modules_values reg ms _ Hm Hg). }
  rewrite E.
  assert (M : registry_modules ((LString (cstr key), LTable fs) :: reg)
              = Some ({| reg_key := cstr key; reg_serialize := s; reg_unserialize := u |}
                      :: ms)).
  { cbn [registry_modules]. now rewrite F1, F2, Hm. }
  destruct (registry_modules_perm _ _ (Permutation_sym (Hp reg _)) _ M) as (ms' & R & P).
  exists (place reg (LString (cstr key), LTable fs)), ms'.
  split; [reflexivity | split; [exact R | split; [now symmetry | ]]].
  intro Hd. apply (Permutation_NoDup (Permutation_map reg_key P)).
  cbn [map reg_key]. constructor; [ | exact Hd].
  exact (registry_modules_keys reg ms (cstr key) Hm Hg).
Qed.

Lemma X8_l_register_adds_the_module_witness :
  exists reg' ms',
    l_register place_last no_number2str register_A_call
    = Ok (with_callbacks register_A_call (LTable reg'))
    /\ registry_modules reg' = Some ms'
    /\ Permutation ms' [module_A]
    /\ (NoDup (map reg_key (@nil Registered)) -> NoDup (map reg_key ms')).
Proof.
  exact (X8_l_register_adds_the_module place_last no_number2str register_A_call
           [] 1%nat 0%nat (str "ModuleA") (LUserdata 0) [] []
           place_last_ok eq_refl (or_intror (conj eq_refl eq_refl)) eq_refl eq_refl).
Defined.

(** X9: [l_register] refuses with a Lua error a registration whose third
    or fourth argument is not a function, and one under a key that is in
    the registry already; the registry is then as it was. *)
Theorem X9_l_register_refusals :
  forall place lua_number2str l extra a4 a3 key self reg,
  stack l = extra ++ [a4; a3; LString key; self] ->
  callbacks l = LTable reg \/ (callbacks l = LNil /\ reg = []) ->
  (match a3, a4 with LFunction _, LFunction _ => False | _, _ => True end)
  \/ tbl_get reg (LString (cstr key)) <> LNil ->
  exists l', l_register place lua_number2str l = LuaError l'
             /\ callbacks l' = callbacks l.
Proof.
  intros place n2s l extra a4 a3 key self reg Es Hc H.
  assert (D : (match a3, a4 with LFunction _, LFunction _ => False | _, _ => True end)
              \/ exists s u, a3 = LFunction s /\ a4 = LFunction u).
  { destruct a3; auto; destruct a4; auto. right. eauto. }
  destruct D as [D | (s & u & -> & ->)].
  - exists l. split; [ | reflexivity].
    exact (l_register_checks place n2s l extra a4 a3 key self Es D).
  - destruct H as [[] | H].
    destruct l as [st cbs objs nl]. cbn [stack callbacks] in Es, Hc |- *. subst st.
    rewrite (l_register_run place n2s extra u s key self cbs objs nl reg Hc).
    destruct Hc as [-> | [-> ->]]; [ | now contradiction H].
    destruct (tbl_get reg (LString (cstr key))); try (now contradiction H); eauto.
Qed.

Lemma X9_l_register_refusals_witness :
  exists l', l_register place_last no_number2str register_A_again = LuaError l'
             /\ callbacks l' = callbacks register_A_again.
Proof.
  assert (H : tbl_get [(LString (str "ModuleA"), module_functions 0 1)]
                (LString (cstr (str "ModuleA"))) <> LNil)
    by (vm_compute; discriminate).
  exact (X9_l_register_refusals place_last no_number2str register_A_again
           [] (LFunction 1) (LFunction 0) (str "ModuleA") (LUserdata 0)
           [(LString (str "ModuleA"), module_functions 0 1)]
           eq_refl (or_introl eq_refl) (or_intror H)).
Defined.

(** X10: saving, then loading.  When the keys of the registered modules
    are distinct strings without NUL byte and every serialize function
    returns nothing or a value whose bytes are read back, [Serialize]
    writes a blob on which [Unserialize] succeeds, and [Unserialize] hands
    every module what its own serialize function returned, read back from
    the bytes, a module that returned nothing a new empty table; both
    leave the state as it was.  This holds wherever the runtime lists new
    keys. *)
Theorem X10_save_then_load_hands_back :
  forall place lua_number2str LookupBody_index LookupBody
         (World : Type) (call_function : nat -> list LuaValue -> World -> World * list LuaValue)
         fuel w l reg ms w1 vs,
  placement_ok place ->
  callbacks l = LTable reg ->
  registry_modules reg = Some ms ->
  Forall (fun m => string_ok (reg_key m) = true) ms ->
  NoDup (map reg_key ms) ->
  run_serializers World call_function ms w = (w1, vs) ->
  forallb returnable vs = true ->
  (length (encode LookupBody_index (objects l) (LTable (collect place [] ms vs))) < fuel)%nat ->
  exists pickled,
    Serialize place lua_number2str LookupBody_index World call_function fuel w l
    = Ok (w1, l, pickled)
    /\ Unserialize place lua_number2str LookupBody World call_function fuel w1 l pickled
       = Ok (hand_back place World call_function ms vs w1, l).
Proof.
  intros place n2s LBI LB World call fuel w l reg ms w1 vs Hp Hc Hm Hk Hd Hr Hv Hf.
  pose proof (run_serializers_length World call ms w w1 vs Hr) as Hlen.
  pose proof (saved_storable place Hp ms vs Hlen Hk Hd Hv) as Sst.
  set (saved := collect place [] ms vs) in *.
  exists (encode LBI (objects l) (LTable saved)).
  assert (Hl : with_callbacks l (LTable reg) = l)
    by (destruct l as [st cbs objs nl]; cbn [callbacks] in Hc; now subst).
  split.
  - rewrite (Serialize_collects place n2s LBI World call fuel w l reg ms w1 vs
               (or_introl Hc) Hm Hr (storable_supported _ _ Sst)).
    + fold saved. now rewrite Hl.
    + pose proof (depth_below_length LBI (objects l) (LTable saved) Sst). fold saved. lia.
  - pose proof (unpickle_encode place LB LBI (objects l) (LTable saved) Sst fuel
                  (encode LBI (objects l) (LTable saved)) Hf l 0%nat []
                  ltac:(rewrite app_nil_r; apply at_pos_start)) as U.
    cbn [Nat.add] in U.
    rewrite (Unserialize_dispatches place n2s LB World call fuel w1 l _ _
               (fold_left (assign place) saved []) reg ms U eq_refl (or_introl Hc) Hm).
    unfold saved.
    rewrite (run_unserializers_hand_back place World call _ ms vs w1 Hlen
               (load_argument_data place Hp ms vs Hlen Hk Hd Hv)).
    f_equal. f_equal. destruct l as [st cbs objs nl]; cbn [callbacks] in Hc; now subst.
Qed.

Lemma X10_save_then_load_hands_back_witness :
  exists pickled,
    Serialize place_last no_number2str ship_index call_log scripts 40 [] state_A
    = Ok ([(0%nat, [])], state_A, pickled)
    /\ Unserialize place_last no_number2str ship_table call_log scripts 40
         [(0%nat, [])] state_A pickled
       = Ok ([(0%nat, []); (1%nat, [data_A])], state_A).
Proof.
  assert (Hk : Forall (fun m => string_ok (reg_key m) = true) [module_A])
    by (constructor; [vm_compute; reflexivity | constructor]).
  assert (Hd : NoDup (map reg_key [module_A]))
    by (constructor; [intros [] | constructor]).
  assert (Hf : (length (encode ship_index (objects state_A)
                          (LTable (collect place_last [] [module_A] [data_A]))) < 40)%nat)
    by (apply Nat.ltb_lt; vm_compute; reflexivity).
  exact (X10_save_then_load_hands_back place_last no_number2str ship_index ship_table
           call_log scripts 40 [] state_A
           [(LString (str "ModuleA"), module_functions 0 1)] [module_A]
           [(0%nat, [])] [data_A]
           place_last_ok eq_refl eq_refl Hk Hd eq_refl eq_refl Hf).
Defined.

(** *** Numbers below the sixth decimal *)

Lemma micro_small s m e : 0 < m -> e < 0 -> 2 * (m * 10 ^ 6) < 2 ^ (- e) ->
  micro (DFinite s m e) = 0.
Proof.
  intros Hm He H. cbn [micro].
  replace (0 <=? e) with false by (symmetry; apply Z.leb_gt; lia).
  unfold round_half_even.
  rewrite Z.div_small, Z.mod_small by lia.
  replace (2 * (m * 10 ^ 6) <? 2 ^ (- e)) with true by (symmetry; apply Z.ltb_lt; lia).
  reflexivity.
Qed.

(** X11: [%f] keeps six decimals.  A number of magnitude below half a
    millionth is written as [0.000000] with its sign, and [unpickle]
    reads a zero back. *)
Theorem X11_small_numbers_are_read_back_as_zero :
  forall place lua_number2str LookupBody LookupBody_index fuel l s m e,
  0 < m -> e < 0 -> 2 * (m * 10 ^ 6) < 2 ^ (- e) ->
  let l1 := lua_push (LNumber (DFinite s m e)) l in
  let written := str "f" ++ sign_text s ++ str "0.000000" ++ [NL] in
  pickle lua_number2str LookupBody_index (S fuel) l1 (-1) [] None = Ok (l1, written)
  /\ unpickle place LookupBody (S fuel) l written 0
     = Ok (lua_push (LNumber (DZero s)) l, length written).
Proof.
  intros place n2s LB LBI fuel l s m e Hm He H l1 written.
  pose proof (micro_small s m e Hm He H) as M.
  assert (F : fmt_f (DFinite s m e) = sign_text s ++ str "0.000000")
    by (unfold fmt_f; rewrite M; reflexivity).
  assert (Hok : double_ok (DFinite s m e) = true).
  { unfold double_ok. rewrite F. apply andb_true_intro. split.
    - now apply Z.ltb_lt.
    - destruct s; reflexivity. }
  assert (E : encode LBI (objects l1) (LNumber (DFinite s m e)) = written).
  { rewrite (enc_number LBI (objects l1) _ Hok), F. unfold written.
    cbn [str list_ascii_of_string app]. f_equal. now rewrite <- app_assoc. }
  split.
  - pose proof (pickle_total n2s LBI (LNumber (DFinite s m e)) (S fuel) ltac:(cbn; lia)
                  (objects l1) l1 (-1) [] None eq_refl eq_refl) as P.
    cbn [supported] in P. now rewrite P, E.
  - rewrite <- E.
    pose proof (unpickle_number place LB LBI (objects l1) (DFinite s m e) fuel l _ 0%nat []
                  Hok ltac:(rewrite app_nil_r; apply at_pos_start)) as U.
    cbn [Nat.add] in U. rewrite U. unfold reread. rewrite M. reflexivity.
Qed.

Lemma X11_small_numbers_are_read_back_as_zero_witness :
  unpickle place_last ship_table 1 empty_state (str "f0.000000" ++ [NL]) 0
  = Ok (lua_push (LNumber (DZero false)) empty_state, 10%nat).
Proof.
  exact (proj2 (X11_small_numbers_are_read_back_as_zero place_last no_number2str
                  ship_table ship_index 0 empty_state false 7555786372591432 (-74)
                  ltac:(lia) ltac:(lia) ltac:(vm_compute; reflexivity))).
Defined.

(** X12: [Unserialize] takes one table and nothing else.  The bytes of a
    storable value that is no table, and the bytes of any storable value
    followed by further bytes, are rejected with the corruption
    exception; the value read is left on the stack. *)
Theorem X12_Unserialize_wants_one_table :
  forall place lua_number2str LookupBody LookupBody_index
         (World : Type) (call_function : nat -> list LuaValue -> World -> World * list LuaValue)
         objs fuel w l v junk,
  storable v = true ->
  (length (encode LookupBody_index objs v) < fuel)%nat ->
  junk <> [] \/ (forall es, v <> LTable es) ->
  Unserialize place lua_number2str LookupBody World call_function fuel w l
    (encode LookupBody_index objs v ++ junk)
  = Corrupt (lua_push (decoded place v) l).
Proof.
  intros place n2s LB LBI World call objs fuel w l v junk Hs Hf H.
  unfold Unserialize.
  rewrite (unpickle_encode place LB LBI objs v Hs fuel _ Hf l 0%nat junk (at_pos_start _)).
  cbn [bind Nat.add]. rewrite Nat.sub_0_r, length_app.
  destruct (Nat.eqb_spec (length (encode LBI objs v))
              (length (encode LBI objs v) + length junk)) as [E | _];
    cbn [negb]; [ | reflexivity].
  destruct H as [H | H]; [destruct junk; [congruence | cbn [length] in E; lia] | ].
  unfold lua_istable, lua_type.
  change (index2adr (lua_push (decoded place v) l) (-1)) with (Some (decoded place v)).
  destruct v as [ | b | p | x | s | es | f | id | t ]; cbn [storable] in Hs;
    try discriminate; try reflexivity.
  now contradiction (H es).
Qed.

Lemma X12_Unserialize_wants_one_table_witness :
  Unserialize place_last no_number2str ship_table call_log scripts 9 [] state_A
    (encode ship_index [] data_A ++ str "x")
  = Corrupt (lua_push (decoded place_last data_A) state_A).
Proof.
  assert (Hs : storable data_A = true) by reflexivity.
  assert (Hf : (length (encode ship_index [] data_A) < 9)%nat)
    by (apply Nat.ltb_lt; vm_compute; reflexivity).
  assert (Hj : str "x" <> [] \/ (forall es, data_A <> LTable es))
    by (left; discriminate).
  exact (X12_Unserialize_wants_one_table place_last no_number2str ship_table ship_index
           call_log scripts [] 9 [] state_A data_A (str "x") Hs Hf Hj).
Defined.

(** *** References at any position of the buffer *)

Lemma at_pos_skip buf pos a s n :
  at_pos buf pos (a ++ s) -> n = (pos + length a)%nat -> at_pos buf n s.
Proof. intros H ->. exact (at_pos_app _ _ _ _ H). Qed.

Lemma unpickle_body_at place LB fuel l buf pos n b rest :
  INT_MIN <= n <= INT_MAX -> LB n = Some b ->
  (forall tag, GetType b <> OTHER_OBJECT tag) ->
  at_pos buf pos (str "u" ++ str "Body" ++ NL :: snprintf_d n ++ NL :: rest) ->
  unpickle place LB (S fuel) l buf pos
  = Ok (PushToLua (OBody (GetType b) b) l, (pos + (7 + length (snprintf_d n)))%nat).
Proof.
  intros Hn Hb Ht H0.
  assert (H6 : at_pos buf (S (S pos + 4)) (snprintf_d n ++ NL :: rest)).
  { apply (at_pos_skip buf pos (str "uBody" ++ [NL]) _ _ H0).
    cbn [str list_ascii_of_string app length]. lia. }
  change (str "u" ++ str "Body" ++ NL :: snprintf_d n ++ NL :: rest)
    with ("u"%char :: str "Body" ++ NL :: snprintf_d n ++ NL :: rest) in H0.
  cbn [unpickle]. rewrite (peek_at _ _ _ _ H0).
  cbv beta iota zeta.
  change (Ascii.eqb "u" "f") with false. change (Ascii.eqb "u" "b") with false.
  change (Ascii.eqb "u" "s") with false. change (Ascii.eqb "u" "t") with false.
  change (Ascii.eqb "u" "u") with true. cbv iota.
  rewrite (cstring_at_at _ _ _ (at_pos_cons _ _ _ _ H0)).
  rewrite body_bytes_cstr.
  change (strchr (str "Body" ++ NL :: ?x) NL) with (Some 4%nat).
  cbv beta iota zeta.
  change ((4 =? 9)%nat && strncmp_eq (str "Body" ++ NL :: ?x) (str "SBodyPath"))
    with false.
  change ((4 =? 4)%nat && strncmp_eq (str "Body" ++ NL :: ?x) (str "Body")) with true.
  cbv iota.
  rewrite (strtol_field_at l _ _ n rest Hn H6). cbn [bind].
  rewrite Hb.
  destruct (Nat.eqb_spec (S (S (S pos + 4) + length (snprintf_d n)))
              (S (S pos + 4) + length (snprintf_d n))); [lia | ].
  replace (S (S (S pos + 4) + length (snprintf_d n)))
    with (pos + (7 + length (snprintf_d n)))%nat by lia.
  destruct (GetType b) eqn:Eb; try reflexivity. now destruct (Ht tag).
Qed.

Lemma unpickle_location_at place LB fuel l buf pos x y s t rest :
  INT_MIN <= x <= INT_MAX -> INT_MIN <= y <= INT_MAX ->
  INT_MIN <= s <= INT_MAX -> INT_MIN <= t <= INT_MAX ->
  at_pos buf pos
    (str "u" ++ str "SBodyPath" ++ NL :: snprintf_d x ++ NL :: snprintf_d y ++ NL ::
     snprintf_d s ++ NL :: snprintf_d t ++ NL :: rest) ->
  unpickle place LB (S fuel) l buf pos
  = Ok (PushToLua (OSBodyPath x y s t) l,
        (pos + (15 + length (snprintf_d x) + length (snprintf_d y)
                + length (snprintf_d s) + length (snprintf_d t)))%nat).
Proof.
  intros Hx Hy Hs Ht H0.
  set (fields := snprintf_d x ++ NL :: snprintf_d y ++ NL :: snprintf_d s ++ NL ::
                 snprintf_d t ++ NL :: rest) in *.
  assert (H1 : at_pos buf (S (S pos + 9)) fields).
  { apply (at_pos_skip buf pos (str "uSBodyPath" ++ [NL]) _ _ H0).
    cbn [str list_ascii_of_string app length]. lia. }
  pose proof (at_pos_cons _ _ _ _ (at_pos_app _ _ _ _ H1)) as H2.
  pose proof (at_pos_cons _ _ _ _ (at_pos_app _ _ _ _ H2)) as H3.
  pose proof (at_pos_cons _ _ _ _ (at_pos_app _ _ _ _ H3)) as H4.
  change (str "u" ++ str "SBodyPath" ++ NL :: fields)
    with ("u"%char :: str "SBodyPath" ++ NL :: fields) in H0.
  cbn [unpickle]. rewrite (peek_at _ _ _ _ H0).
  cbv beta iota zeta.
  change (Ascii.eqb "u" "f") with false. change (Ascii.eqb "u" "b") with false.
  change (Ascii.eqb "u" "s") with false. change (Ascii.eqb "u" "t") with false.
  change (Ascii.eqb "u" "u") with true. cbv iota.
  rewrite (cstring_at_at _ _ _ (at_pos_cons _ _ _ _ H0)).
  change (cstr (str "SBodyPath" ++ NL :: fields))
    with (str "SBodyPath" ++ NL :: cstr fields).
  change (strchr (str "SBodyPath" ++ NL :: ?r) NL) with (Some 9%nat).
  cbv beta iota zeta.
  change ((9 =? 9)%nat && strncmp_eq (str "SBodyPath" ++ NL :: ?r) (str "SBodyPath"))
    with true.
  cbv iota.
  rewrite (strtol_field_at l _ _ x _ Hx H1). cbn [bind].
  rewrite (strtol_field_at l _ _ y _ Hy H2). cbn [bind].
  rewrite (strtol_field_at l _ _ s _ Hs H3). cbn [bind].
  rewrite (strtol_field_at l _ _ t _ Ht H4). cbn [bind].
  do 2 f_equal. lia.
Qed.

Section ReferenceFacts.

Variable place : placement.
Variable LookupBody : Z -> option Body.
Variable LookupBody_index : Body -> Z.
Variable objs : list (lid * LuaObject).

Local Abbreviation unpickle := (unpickle place LookupBody).
Local Abbreviation enc := (encode LookupBody_index objs).
Local Abbreviation enc_entry := (enc_entry LookupBody_index objs).
Local Abbreviation storable_ref := (storable_ref LookupBody_index LookupBody objs).
Local Abbreviation revive := (revive place LookupBody_index LookupBody objs).
Local Abbreviation revive_step := (revive_step place LookupBody_index LookupBody objs).
Local Abbreviation push_revived := (push_revived place LookupBody_index LookupBody objs).
Local Abbreviation unpickle_ref_spec :=
  (unpickle_ref_spec place LookupBody_index LookupBody objs).
Local Abbreviation entry_ok_ref := (entry_ok_ref LookupBody_index LookupBody objs).

Lemma int_ok_range n : int_ok n = true -> INT_MIN <= n <= INT_MAX.
Proof. unfold int_ok. intro H. apply andb_prop in H. lia. Qed.

Lemma enc_location x y s t :
  int_ok x = true -> int_ok y = true -> int_ok s = true -> int_ok t = true ->
  forall rest,
  (str "u" ++ snprintf256
     (str "SBodyPath" ++ NL :: snprintf_d x ++ NL :: snprintf_d y ++ NL ::
      snprintf_d s ++ NL :: snprintf_d t ++ [NL])) ++ rest
  = str "u" ++ str "SBodyPath" ++ NL :: snprintf_d x ++ NL :: snprintf_d y ++ NL ::
    snprintf_d s ++ NL :: snprintf_d t ++ NL :: rest.
Proof.
  intros Hx Hy Hs Ht rest.
  pose proof (snprintf_d_length _ (int_ok_range _ Hx)).
  pose proof (snprintf_d_length _ (int_ok_range _ Hy)).
  pose proof (snprintf_d_length _ (int_ok_range _ Hs)).
  pose proof (snprintf_d_length _ (int_ok_range _ Ht)).
  rewrite snprintf256_short
    by (cbn [str list_ascii_of_string app length];
        repeat (rewrite length_app; cbn [length]); lia).
  cbn [str list_ascii_of_string app]. do 11 f_equal.
  repeat (rewrite <- app_assoc; cbn [app]; f_equal). 
Qed.

Lemma enc_body n : int_ok n = true -> forall rest,
  (str "u" ++ snprintf256 (str "Body" ++ NL :: snprintf_d n ++ [NL])) ++ rest
  = str "u" ++ str "Body" ++ NL :: snprintf_d n ++ NL :: rest.
Proof.
  intros Hn rest. pose proof (snprintf_d_length _ (int_ok_range _ Hn)).
  rewrite snprintf256_short
    by (cbn [str list_ascii_of_string app length];
        repeat (rewrite length_app; cbn [length]); lia).
  cbn [str list_ascii_of_string app]. do 6 f_equal.
  now rewrite <- app_assoc.
Qed.


Lemma push_revived_scalar v l :
  match v with LNumber _ | LBoolean _ | LString _ => True | _ => False end ->
  push_revived v l = lua_push (decoded place v) l.
Proof. destruct v; intros []; reflexivity. Qed.

Lemma unpickle_ref_userdata id o fuel buf :
  Lookup_in objs id = Some o -> object_ok LookupBody_index LookupBody o = true ->
  unpickle_ref_spec (fun l pos => unpickle (S fuel) l buf pos) buf (LUserdata id).
Proof.
  intros Hl Ho l pos rest H. cbn [encode] in H |- *. rewrite Hl in H |- *.
  unfold push_revived. cbn [revive]. rewrite Hl. cbn [fst snd].
  destruct o as [x y s t | w b | name]; cbn [object_ok] in Ho; try discriminate.
  - apply andb_prop in Ho. destruct Ho as [Ho Ht].
    apply andb_prop in Ho. destruct Ho as [Ho Hs].
    apply andb_prop in Ho. destruct Ho as [Hx Hy].
    rewrite (enc_location x y s t Hx Hy Hs Ht) in H.
    rewrite (unpickle_location_at place LookupBody fuel l buf pos x y s t rest
               (int_ok_range _ Hx) (int_ok_range _ Hy) (int_ok_range _ Hs)
               (int_ok_range _ Ht) H).
    unfold PushToLua. cbn [revived_object]. do 2 f_equal.
    rewrite <- (app_nil_r (str "u" ++ snprintf256 _)).
    rewrite (enc_location x y s t Hx Hy Hs Ht).
    cbn [str list_ascii_of_string app length].
    repeat (rewrite length_app; cbn [length]). lia.
  - apply andb_prop in Ho. destruct Ho as [Hn Hb].
    destruct (LookupBody (LookupBody_index b)) as [b' | ] eqn:Eb; try discriminate.
    rewrite (enc_body _ Hn) in H.
    rewrite (unpickle_body_at place LookupBody fuel l buf pos _ b' rest
               (int_ok_range _ Hn) Eb
               ltac:(intros tag E; rewrite E in Hb; discriminate) H).
    unfold PushToLua. cbn [revived_object]. rewrite Eb. do 2 f_equal.
    rewrite <- (app_nil_r (str "u" ++ snprintf256 _)).
    rewrite (enc_body _ Hn).
    cbn [str list_ascii_of_string app length].
    repeat (rewrite length_app; cbn [length]). lia.
Qed.


Lemma enc_head_ref v : storable_ref v = true ->
  exists c tl, enc v = c :: tl /\ Ascii.eqb c "n" = false.
Proof.
  destruct v as [ | b | p | x | s | es | f | id | t ]; cbn [storable_ref];
    try discriminate; intro H.
  - exact (enc_head LookupBody_index objs (LBoolean b) eq_refl).
  - exact (enc_head LookupBody_index objs (LNumber x) H).
  - exact (enc_head LookupBody_index objs (LString s) H).
  - cbn. eauto.
  - cbn [encode].
    destruct (Lookup_in objs id) as [[x y s t | w b | name] | ]; cbn [object_ok] in H;
      try discriminate; cbn; eauto.
Qed.

Lemma revive_key_ok k h : storable_ref k = true -> is_nan_key k = false ->
  match fst (revive k h) with LNil => False | _ => True end
  /\ is_nan_key (fst (revive k h)) = false.
Proof.
  destruct k as [ | b | p | x | s | es | f | id | t ]; cbn [storable_ref];
    try discriminate; intros Hs Hn; cbn [revive].
  - now split.
  - exact (decoded_key_ok place (LNumber x) Hs Hn).
  - now split.
  - destruct (fold_left _ es ([], h)). now split.
  - destruct (Lookup_in objs id); [now split | discriminate].
Qed.

Lemma revive_value_ok v h : storable_ref v = true ->
  match fst (revive v h) with LNil => False | _ => True end.
Proof.
  destruct v as [ | b | p | x | s | es | f | id | t ]; cbn [storable_ref];
    try discriminate; intros Hs; cbn [revive];
    first [ exact I | now destruct (fold_left _ _ _) | now destruct (Lookup_in objs _) ].
Qed.

Lemma unpickle_while_revive rec buf es :
  Forall (fun e => unpickle_ref_spec rec buf (fst e)
                   /\ unpickle_ref_spec rec buf (snd e)) es ->
  forallb entry_ok_ref es = true ->
  forall n acc l pos rest T,
  (length (flat_map enc_entry es) < n)%nat ->
  at_pos buf pos (flat_map enc_entry es ++ "n"%char :: rest) ->
  stack l = LTable acc :: T ->
  unpickle_while place rec buf n l pos
  = Ok (let '(t, h) := fold_left revive_step es (acc, (objects l, next_lid l)) in
        {| stack := LTable t :: T; callbacks := callbacks l;
           objects := fst h; next_lid := snd h |},
        (pos + length (flat_map enc_entry es))%nat).
Proof.
  induction 1 as [ | [k v] es [Hk Hv] _ IH]; intros Hok n acc l pos rest T Hn H E;
    (destruct n as [ | n]; [lia | ]); cbn [unpickle_while].
  - cbn in H. rewrite (peek_at _ _ _ _ H). change (Ascii.eqb "n" "n") with true.
    cbn. rewrite <- E. destruct l as [st cbs ob nl]. do 2 f_equal. lia.
  - cbn [forallb] in Hok. apply andb_prop in Hok. destruct Hok as [Hkv Hok].
    unfold entry_ok_ref in Hkv. cbn [fst snd] in *.
    apply andb_prop in Hkv. destruct Hkv as [Hkv Sv].
    apply andb_prop in Hkv. destruct Hkv as [Sk Nk]. apply negb_true_iff in Nk.
    cbn [flat_map fold_left] in *. unfold enc_entry at 1 in H. cbn [fst snd] in H.
    unfold enc_entry at 1 in Hn. unfold enc_entry at 1.
    cbn [fst snd] in Hn |- *.
    rewrite <- !app_assoc in H.
    destruct (enc_head_ref k Sk) as (c & tl & Ec & Hc).
    assert (Hp : peek buf pos = Some c)
      by (rewrite Ec in H; exact (peek_at _ _ _ _ H)).
    rewrite Hp, Hc. rewrite (Hk l pos _ H). cbn [bind].
    pose proof (at_pos_app _ _ _ _ H) as H1.
    rewrite (Hv _ _ _ H1). cbn [bind].
    unfold revive_step at 2. cbn [fst snd].
    unfold push_revived.
    pose proof (revive_key_ok k (objects l, next_lid l) Sk Nk) as [D1 D2].
    destruct (revive k (objects l, next_lid l)) as [k' h1] eqn:Ek.
    cbn [objects next_lid stack callbacks fst snd] in *.
    replace (fst h1, snd h1) with h1 by now destruct h1.
    pose proof (revive_value_ok v h1 Sv) as D3.
    destruct (revive v h1) as [v' h2] eqn:Ev. cbn [fst snd] in *.
    match goal with |- bind (lua_rawset _ ?l2 _) _ = _ =>
      rewrite (lua_rawset_ok place l2 v' k' acc T ltac:(cbn [stack]; now rewrite E) D1 D2)
    end.
    cbn [bind].
    pose proof (at_pos_app _ _ _ _ H1) as H2.
    rewrite !length_app in Hn.
    assert (L1 : (0 < length (enc k))%nat) by (rewrite Ec; cbn; lia).
    match goal with |- unpickle_while _ rec buf n ?l3 _ = _ =>
      rewrite (IH Hok n (tbl_set place acc k' v') l3 _ rest T ltac:(lia) H2 eq_refl)
    end.
    cbn [with_stack objects next_lid callbacks].
    replace (fst h2, snd h2) with h2 by now destruct h2.
    do 2 f_equal. rewrite !length_app. lia.
Qed.


Lemma storable_ref_supported v : storable_ref v = true -> supported objs v = true.
Proof.
  induction v as [ | b | p | x | s | es IH | f | id | t ] using LuaValue_nested_ind;
    cbn [storable_ref supported]; try discriminate; try reflexivity.
  - intro H. rewrite forallb_forall in H |- *. intros e He.
    rewrite Forall_forall in IH. destruct (IH e He) as [I1 I2].
    specialize (H e He). apply andb_prop in H. destruct H as [H Sv].
    apply andb_prop in H. destruct H as [Sk _].
    now rewrite (I1 Sk), (I2 Sv).
  - destruct (Lookup_in objs id) as [[x y s t | w b | name] | ]; cbn [object_ok];
      try discriminate; reflexivity.
Qed.

Lemma depth_ref_below_length v : storable_ref v = true ->
  (depth v < length (enc v))%nat.
Proof.
  induction v as [ | b | p | x | s | es IH | f | id | t ] using LuaValue_nested_ind;
    cbn [storable_ref]; try discriminate; intro H.
  - destruct b; cbn; lia.
  - rewrite (enc_number LookupBody_index objs x H). cbn. lia.
  - rewrite (enc_string LookupBody_index objs s H). cbn. lia.
  - cbn [depth encode]. change (str "t") with ["t"%char]. change (str "n") with ["n"%char].
    cbn [app length]. rewrite length_app. cbn [length].
    enough ((fold_right (fun e d => Nat.max (Nat.max (depth (fst e)) (depth (snd e))) d) 0 es
             <= length (flat_map (fun e => enc (fst e) ++ enc (snd e)) es))%nat)
      by lia.
    induction es as [ | e es IHes]; cbn [fold_right flat_map length]; [lia | ].
    inversion IH as [ | ? ? [I1 I2] IH']; subst. cbn [forallb] in H.
    apply andb_prop in H. destruct H as [He H].
    apply andb_prop in He. destruct He as [He Sv].
    apply andb_prop in He. destruct He as [Sk _].
    specialize (IHes IH' H). specialize (I1 Sk). specialize (I2 Sv).
    rewrite !length_app. lia.
  - destruct (enc_head_ref (LUserdata id) H) as (c & tl & -> & _). cbn. lia.
Qed.

(** [unpickle] reads back the bytes of every storable value with
    references. *)
Lemma unpickle_revive v : storable_ref v = true ->
  forall fuel buf, (length (enc v) < fuel)%nat ->
  unpickle_ref_spec (fun l pos => unpickle fuel l buf pos) buf v.
Proof.
  induction v as [ | b | p | x | s | es IH | f | id | t ] using LuaValue_nested_ind;
    cbn [storable_ref]; try discriminate; intros Hs fuel buf Hf l pos rest H;
    (destruct fuel as [ | fuel]; [lia | ]).
  - rewrite (push_revived_scalar (LBoolean b) l I).
    exact (unpickle_boolean place LookupBody LookupBody_index objs b fuel l buf pos rest H).
  - rewrite (push_revived_scalar (LNumber x) l I).
    exact (unpickle_number place LookupBody LookupBody_index objs x fuel l buf pos rest
             Hs H).
  - rewrite (push_revived_scalar (LString s) l I).
    exact (unpickle_string place LookupBody LookupBody_index objs s fuel l buf pos rest
             Hs H).
  - cbn [encode] in H, Hf |- *. change (str "t") with ["t"%char] in *.
    change (str "n") with ["n"%char] in *.
    cbn [app] in H. rewrite <- app_assoc in H. cbn [app] in H.
    change (flat_map (fun e => enc (fst e) ++ enc (snd e)) es)
      with (flat_map enc_entry es) in *.
    assert (Hf' : (length (flat_map enc_entry es) + 2 <= fuel)%nat).
    { cbn [app length] in Hf. rewrite length_app in Hf. cbn [length] in Hf. lia. }
    cbn [unpickle]. rewrite (peek_at _ _ _ _ H). cbv beta iota zeta.
    change (Ascii.eqb "t" "f") with false. change (Ascii.eqb "t" "b") with false.
    change (Ascii.eqb "t" "s") with false. change (Ascii.eqb "t" "t") with true.
    cbv iota.
    assert (F : Forall (fun e =>
                  unpickle_ref_spec (fun l pos => unpickle fuel l buf pos) buf (fst e)
                  /\ unpickle_ref_spec (fun l pos => unpickle fuel l buf pos) buf (snd e))
                  es).
    { rewrite Forall_forall in IH |- *. intros e He.
      destruct (IH e He) as [I1 I2].
      destruct (enc_entry_in LookupBody_index objs e es He) as [L1 L2].
      rewrite forallb_forall in Hs. specialize (Hs e He).
      apply andb_prop in Hs. destruct Hs as [Hs Sv].
      apply andb_prop in Hs. destruct Hs as [Sk _].
      split; [apply (I1 Sk) | apply (I2 Sv)]; lia. }
    rewrite (unpickle_while_revive _ buf es F Hs fuel [] (lua_newtable l) (S pos)
               rest (stack l) ltac:(lia) (at_pos_cons _ _ _ _ H) eq_refl).
    cbn [bind]. unfold push_revived. cbn [revive].
    cbn [lua_newtable lua_push with_stack objects next_lid callbacks].
    change (fold_left _ es ([], (objects l, next_lid l)))
      with (fold_left revive_step es ([], (objects l, next_lid l))).
    destruct (fold_left revive_step es ([], (objects l, next_lid l))) as [t h].
    do 2 f_equal. rewrite !length_app. cbn [length]. lia.
  - destruct (Lookup_in objs id) as [o | ] eqn:El; [ | discriminate].
    exact (unpickle_ref_userdata id o fuel buf El Hs l pos rest H).
Qed.

End ReferenceFacts.

(** X13: references inside tables survive a save.  For a value built
    from numbers, booleans, strings, tables and references to locations
    and to bodies the identity table knows, [pickle] writes its bytes,
    and [unpickle] reads them back wherever they lie in the buffer: the
    value it pushes has the same shape, and every reference in it is a new
    userdata for a new [LuaObject], naming the same location or the body
    that [Serializer::LookupBody] finds under the saved id. *)
Theorem X13_references_in_tables_are_read_back :
  forall place lua_number2str LookupBody LookupBody_index fuel ls l before v after,
  storable_ref LookupBody_index LookupBody (objects ls) v = true ->
  (length (encode LookupBody_index (objects ls) v) < fuel)%nat ->
  pickle lua_number2str LookupBody_index fuel (lua_push v ls) (-1) [] None
  = Ok (lua_push v ls, encode LookupBody_index (objects ls) v)
  /\ unpickle place LookupBody fuel l
       (before ++ encode LookupBody_index (objects ls) v ++ after) (length before)
     = Ok (push_revived place LookupBody_index LookupBody (objects ls) v l,
           (length before + length (encode LookupBody_index (objects ls) v))%nat).
Proof.
  intros place n2s LB LBI fuel ls l before v after Hs Hf. split.
  - pose proof (depth_ref_below_length LB LBI (objects ls) v Hs) as Hd.
    pose proof (pickle_total n2s LBI v fuel ltac:(lia) (objects ls) (lua_push v ls)
                  (-1) [] None eq_refl eq_refl) as P.
    now rewrite (storable_ref_supported LB LBI (objects ls) v Hs) in P.
  - exact (unpickle_revive place LB LBI (objects ls) v Hs fuel _ Hf l (length before)
             after (at_pos_middle _ _)).
Qed.

Lemma X13_references_in_tables_are_read_back_witness :
  unpickle place_last ship_table 60 empty_state
    (encode ship_index (objects state_refs) refs_table) 0
  = Ok ({| stack := [LTable [(LString (str "ship"), LUserdata 1);
                             (LString (str "home"), LUserdata 2)]];
           callbacks := LNil;
           objects := [(2, OSBodyPath 3 (-7) 12 5); (1, OBody SHIP the_ship)];
           next_lid := 3 |},
        length (encode ship_index (objects state_refs) refs_table)).
Proof.
  assert (Hs : storable_ref ship_index ship_table (objects state_refs) refs_table = true)
    by (vm_compute; reflexivity).
  assert (Hf : (length (encode ship_index (objects state_refs) refs_table) < 60)%nat)
    by (apply Nat.ltb_lt; vm_compute; reflexivity).
  pose proof (proj2 (X13_references_in_tables_are_read_back place_last no_number2str
                       ship_table ship_index 60 state_refs empty_state [] refs_table []
                       Hs Hf)) as H.
  cbn [app length Nat.add] in H. rewrite app_nil_r in H.
  rewrite H. vm_compute. reflexivity.
Defined.
